(** * Telecom Infrastructure Resilience Simulator: the graph engine

    A shallow embedding of the event handlers of the [TelecomSimulator]
    component of [src/app/page.tsx] ([toggleEdge], [runDFS], [runBFS],
    [recoverNetwork], [resetSimulation], [handleCanvasClick]), of the edge
    loop of its drawing effect and of the component as a state machine,
    together with the properties of the resilience engine that the
    specification states about them and further properties of the code:
    what the searches compute, when they raise, and what holds in every
    state the component can reach.

    Conventions of the embedding.
    - A JavaScript object used as a dictionary ([Record<string, T>]) is a
      [gmap string T]; reading a missing key gives [undefined], which is
      [None] of the lookup.  That is what an object literal [{}] does at
      every key but the names of the members of [Object.prototype]
      ([prototypeMembers]): there a key that was never written reads the
      inherited member, and a write at ["__proto__"] makes no entry.  A
      statement that depends on a read at a key that may not have been
      written has the hypothesis that the keys are [ordinary]
      ([ordinaryIds] for the ids of the nodes of a graph).
    - The React state of the component is the record [State]; a handler is
      a function from the state before to the state after it.
    - A handler that raises ends in [Thrown]; the only exception the
      handlers can raise is a [TypeError] (a property of [undefined] is
      read, or [undefined] is iterated).
    - The [while] loops and the recursion of [dfsVisit] take a fuel;
      [OutOfFuel] is the model running out of it, and the theorems show
      which fuel is enough.
    - The log lines ([algorithmResult]) are kept as structured [Event]s
      and turned into the strings of the source by [render].
    - The computation of a handler has a name of its own, the one the
      specification gives it ([analyze] for [runDFS], [findShortestPath]
      for [runBFS], [planRecovery] for [recoverNetwork]); the handler sets
      the state of the component from its result. *)

From Stdlib Require Import Floats.PrimFloat Floats.SpecFloat Floats.FloatAxioms.
From stdpp Require Import gmap strings list fin_maps pretty.

(** ** Outcomes of a handler *)

Inductive JsError : Type := TypeError.

Inductive Outcome (A : Type) : Type :=
  | Done (a : A)
  | Thrown (e : JsError)
  | OutOfFuel.

Arguments Done {A} a.
Arguments Thrown {A} e.
Arguments OutOfFuel {A}.

#[global] Instance Outcome_ret : MRet Outcome := fun A a => Done a.

#[global] Instance Outcome_bind : MBind Outcome := fun A B k m =>
  match m with
  | Done a => k a
  | Thrown e => Thrown e
  | OutOfFuel => OutOfFuel
  end.

(** ** Data model: [Node], [Edge], [Graph] *)

Inductive NodeType : Type := city | barangay | hub.

Definition NodeType_eqb (a b : NodeType) : bool :=
  match a, b with
  | city, city | barangay, barangay | hub, hub => true
  | _, _ => false
  end.

Module Node.
Record t : Type := mk {
  id : string;
  label : string;
  x : float;
  y : float;
  type : NodeType;
  isArticulationPoint : option bool
}.
End Node.

Module Edge.
Record t : Type := mk {
  source : string;
  target : string;
  isBridge : option bool;
  isActive : bool;
  isRecovery : option bool
}.
End Edge.

Record Graph : Type := mkGraph {
  nodes : list Node.t;
  edges : list Edge.t
}.

Definition node (i l : string) (px py : float) (k : NodeType) : Node.t :=
  Node.mk i l px py k None.

Definition link (s t : string) (active : bool) : Edge.t :=
  Edge.mk s t None active None.

Definition initialGraph : Graph :=
  {| nodes :=
       [ node "1" "Cebu Hub" 300 100 hub;
         node "2" "Cebu City" 200 180 city;
         node "3" "Mandaue Hub" 150 250 hub;
         node "4" "Banilad" 100 320 city;
         node "5" "Subangdaku" 200 320 city;
         node "6" "Nau" 250 380 barangay;
         node "7" "Baco" 150 380 barangay;
         node "8" "Palawan Hub" 50 200 hub;
         node "9" "El Nido" 30 280 city;
         node "10" "Puerto Princesa" 80 350 city;
         node "11" "Quezon Hub" 400 180 hub;
         node "12" "Lucena" 450 250 city;
         node "13" "Tayabas" 500 300 barangay ];
     edges :=
       [ link "1" "2" true; link "1" "11" true; link "2" "3" true;
         link "2" "8" true; link "3" "4" true; link "3" "5" true;
         link "4" "7" true; link "5" "6" true; link "5" "7" true;
         link "8" "9" true; link "8" "10" true; link "11" "12" true;
         link "12" "13" true ] |}.

(** ** The state of the component *)

Inductive Mode : Type := normal | failure.

(** The lines of the algorithm log, before they are rendered with the
    labels of the nodes. *)
Inductive Event : Type :=
  | EvVisiting (u : string)
  | EvExploring (u v : string)
  | EvArticulation (u : string)
  | EvBridge (u v : string)
  | EvBackEdge (u v : string)
  | EvRootArticulation (u : string)
  | EvPleaseSelect
  | EvStartBFS (s : string)
  | EvFoundTarget (t : string)
  | EvDiscovered (neighbor current : string)
  | EvShortestPath (p : list string)
  | EvNoPath (s t : string)
  | EvRecoveryStart
  | EvAllConnected
  | EvDisconnected (ds : list Node.t)
  | EvReconnecting (d c : Node.t).

Record State : Type := mkState {
  graph : Graph;
  selectedNode : option string;
  targetNode : option string;
  algorithmResult : list string;
  path : list string;
  bridges : list Edge.t;
  articulationPoints : list Node.t;
  mode : Mode;
  recoveryEdges : list Edge.t
}.

Definition initialState : State :=
  {| graph := initialGraph; selectedNode := None; targetNode := None;
     algorithmResult := []; path := []; bridges := [];
     articulationPoints := []; mode := normal; recoveryEdges := [] |}.

(** [getNodeLabel]: the label of the first node with that id, the id
    itself when there is none. *)
Definition getNodeLabel (g : Graph) (i : string) : string :=
  match find (fun n => String.eqb (Node.id n) i) (nodes g) with
  | Some n => Node.label n
  | None => i
  end.

Fixpoint join (sep : string) (l : list string) : string :=
  match l with
  | [] => ""
  | [a] => a
  | a :: rest => a +:+ sep +:+ join sep rest
  end.

Definition render (g : Graph) (e : Event) : string :=
  let lbl := getNodeLabel g in
  match e with
  | EvVisiting u => "Visiting " +:+ lbl u
  | EvExploring u v => "Exploring edge from " +:+ lbl u +:+ " to " +:+ lbl v
  | EvArticulation u => "Found articulation point: " +:+ lbl u
  | EvBridge u v => "Found bridge: " +:+ lbl u +:+ " - " +:+ lbl v
  | EvBackEdge u v => "Back edge from " +:+ lbl u +:+ " to " +:+ lbl v
  | EvRootArticulation u => "Root is an articulation point: " +:+ lbl u
  | EvPleaseSelect => "Please select both source and target nodes"
  | EvStartBFS s => "Starting BFS from " +:+ lbl s
  | EvFoundTarget t => "Found target: " +:+ lbl t
  | EvDiscovered n c => "Discovered " +:+ lbl n +:+ " from " +:+ lbl c
  | EvShortestPath p => "Shortest path: " +:+ join " → " (map lbl p)
  | EvNoPath s t => "No path exists from " +:+ lbl s +:+ " to " +:+ lbl t
  | EvRecoveryStart => "Starting network recovery process..."
  | EvAllConnected => "All nodes are connected. No recovery needed."
  | EvDisconnected ds =>
      "Found " +:+ pretty (length ds) +:+ " disconnected nodes: "
      +:+ join ", " (map Node.label ds)
  | EvReconnecting d c =>
      "Reconnecting " +:+ Node.label d +:+ " to " +:+ Node.label c
  end.

(** ** [resetSimulation] and [toggleEdge] *)

Definition resetSimulation (st : State) : State :=
  {| graph :=
       {| nodes := map (fun n => Node.mk (Node.id n) (Node.label n) (Node.x n)
                                   (Node.y n) (Node.type n) (Some false))
                       (nodes initialGraph);
          edges := map (fun e => Edge.mk (Edge.source e) (Edge.target e)
                                   (Some false) true (Edge.isRecovery e))
                       (edges initialGraph) |};
     selectedNode := None; targetNode := None; algorithmResult := [];
     path := []; bridges := []; articulationPoints := [];
     mode := normal; recoveryEdges := [] |}.

(** The test both [toggleEdge] and the bridge search apply to an edge:
    its endpoints are [a] and [b], in either order. *)
Definition joins (a b : string) (e : Edge.t) : bool :=
  (String.eqb (Edge.source e) a && String.eqb (Edge.target e) b)
  || (String.eqb (Edge.source e) b && String.eqb (Edge.target e) a).

Definition flip (e : Edge.t) : Edge.t :=
  Edge.mk (Edge.source e) (Edge.target e) (Edge.isBridge e)
          (negb (Edge.isActive e)) (Edge.isRecovery e).

Definition toggleEdge (sourceId targetId : string) (st : State) : State :=
  {| graph :=
       {| nodes := nodes (graph st);
          edges := map (fun edge => if joins sourceId targetId edge
                                    then flip edge else edge)
                       (edges (graph st)) |};
     selectedNode := selectedNode st; targetNode := targetNode st;
     algorithmResult := []; path := [];
     bridges := bridges st; articulationPoints := articulationPoints st;
     mode := mode st; recoveryEdges := recoveryEdges st |}.

(** ** Adjacency list over the active edges *)

Definition activeEdges (g : Graph) : list Edge.t :=
  filter (fun e => Edge.isActive e = true) (edges g).

(** [adjList[node.id] = []] for every node. *)
Definition emptyAdj (ns : list Node.t) : gmap string (list string) :=
  fold_left (fun adj n => <[Node.id n := []]> adj) ns ∅.

(** [adjList[a].push(b)]: a [TypeError] when [adjList[a]] is [undefined]. *)
Definition push_adj (a b : string) (adj : gmap string (list string))
  : Outcome (gmap string (list string)) :=
  match adj !! a with
  | Some l => Done (<[a := l ++ [b]]> adj)
  | None => Thrown TypeError
  end.

Definition addEdge (acc : Outcome (gmap string (list string))) (e : Edge.t)
  : Outcome (gmap string (list string)) :=
  adj ← acc;
  adj1 ← push_adj (Edge.source e) (Edge.target e) adj;
  push_adj (Edge.target e) (Edge.source e) adj1.

Definition buildAdjList (g : Graph) : Outcome (gmap string (list string)) :=
  fold_left addEdge (activeEdges g) (Done (emptyAdj (nodes g))).

(** [!visited[k]] is [negb (flag visited k)]: a missing key reads
    [undefined], which is falsy (at a key that is not the name of a member
    of [Object.prototype], see [ordinary] below). *)
Definition flag (m : gmap string bool) (k : string) : bool :=
  default false (m !! k).

(** A numeric entry ([discoveryTime[k]], [lowTime[k]]); the handlers read
    one only for a key they have written. *)
Definition num (m : gmap string nat) (k : string) : nat :=
  default 0 (m !! k).

(** ** [runDFS]: bridges and articulation points *)

Module Dfs.
(** The variables [dfsVisit] closes over. *)
Record state : Type := mk {
  visited : gmap string bool;
  discoveryTime : gmap string nat;
  lowTime : gmap string nat;
  parent : gmap string string;
  foundBridges : list Edge.t;
  foundArticulationPoints : gset string;
  time : nat
}.

Definition init : state := mk ∅ ∅ ∅ ∅ [] ∅ 0.

(** [visited[u] = true; time += 1; discoveryTime[u] = time; lowTime[u] = time] *)
Definition enter (u : string) (st : state) : state :=
  mk (<[u := true]> (visited st)) (<[u := S (time st)]> (discoveryTime st))
     (<[u := S (time st)]> (lowTime st)) (parent st) (foundBridges st)
     (foundArticulationPoints st) (S (time st)).

(** [parent[v] = u] *)
Definition setParent (v u : string) (st : state) : state :=
  mk (visited st) (discoveryTime st) (lowTime st) (<[v := u]> (parent st))
     (foundBridges st) (foundArticulationPoints st) (time st).

(** [lowTime[u] = Math.min(lowTime[u], n)] *)
Definition lower (u : string) (n : nat) (st : state) : state :=
  mk (visited st) (discoveryTime st)
     (<[u := Nat.min (num (lowTime st) u) n]> (lowTime st)) (parent st)
     (foundBridges st) (foundArticulationPoints st) (time st).

(** [foundArticulationPoints.add(u)] *)
Definition addArticulation (u : string) (st : state) : state :=
  mk (visited st) (discoveryTime st) (lowTime st) (parent st)
     (foundBridges st) ({[u]} ∪ foundArticulationPoints st) (time st).

(** [if (bridgeEdge) foundBridges.push(bridgeEdge)] *)
Definition pushBridge (bridgeEdge : option Edge.t) (st : state) : state :=
  match bridgeEdge with
  | Some e =>
      mk (visited st) (discoveryTime st) (lowTime st) (parent st)
         (foundBridges st ++ [e]) (foundArticulationPoints st) (time st)
  | None => st
  end.

(** [v !== parent[u]] is [negb (isParent st u v)]. *)
Definition isParent (st : state) (u v : string) : bool :=
  match parent st !! u with
  | Some p => String.eqb v p
  | None => false
  end.
End Dfs.

(** What one call of [dfsVisit] holds while it runs: the shared variables,
    its [childCount] and its [result]. *)
Definition Frame : Type := Dfs.state * nat * list Event.

(** The body of [for (const v of adjList[u])] in [dfsVisit (u, isRoot)];
    [visit] is the recursive call [dfsVisit (v, false)]. *)
Definition dfsNeighbor
    (visit : string -> Dfs.state -> Outcome (Dfs.state * list Event))
    (active : list Edge.t) (u : string) (isRoot : bool)
    (acc : Outcome Frame) (v : string) : Outcome Frame :=
  '(st, childCount, result) ← acc;
  if negb (flag (Dfs.visited st) v) then
    let st := Dfs.setParent v u st in
    let result := result ++ [EvExploring u v] in
    '(st, childResults) ← visit v st;
    let result := result ++ childResults in
    let st := Dfs.lower u (num (Dfs.lowTime st) v) st in
    let '(st, result) :=
      if negb isRoot && (num (Dfs.discoveryTime st) u <=? num (Dfs.lowTime st) v)
      then (Dfs.addArticulation u st, result ++ [EvArticulation u])
      else (st, result) in
    let '(st, result) :=
      if num (Dfs.discoveryTime st) u <? num (Dfs.lowTime st) v
      then (Dfs.pushBridge (find (joins u v) active) st, result ++ [EvBridge u v])
      else (st, result) in
    Done (st, S childCount, result)
  else if negb (Dfs.isParent st u v) then
    Done (Dfs.lower u (num (Dfs.discoveryTime st) v) st, childCount,
          result ++ [EvBackEdge u v])
  else Done (st, childCount, result).

Fixpoint dfsVisit (adjList : gmap string (list string)) (active : list Edge.t)
    (fuel : nat) (u : string) (isRoot : bool) (st : Dfs.state)
  : Outcome (Dfs.state * list Event) :=
  match fuel with
  | 0 => OutOfFuel
  | S fuel' =>
      let st := Dfs.enter u st in
      match adjList !! u with
      | None => Thrown TypeError
      | Some ns =>
          '(st, childCount, result) ←
            fold_left
              (dfsNeighbor (fun v => dfsVisit adjList active fuel' v false)
                           active u isRoot)
              ns (Done (st, 0, [EvVisiting u]));
          if isRoot && (1 <? childCount)
          then Done (Dfs.addArticulation u st, result ++ [EvRootArticulation u])
          else Done (st, result)
      end
  end.

(** [graph.nodes[0].id] *)
Definition firstNodeId (g : Graph) : Outcome string :=
  match nodes g with
  | n :: _ => Done (Node.id n)
  | [] => Thrown TypeError
  end.

(** The search proper of [runDFS]: adjacency list, then [dfsVisit] from the
    first node. *)
Definition analyze (fuel : nat) (g : Graph) : Outcome (Dfs.state * list Event) :=
  adjList ← buildAdjList g;
  startNode ← firstNodeId g;
  dfsVisit adjList (activeEdges g) fuel startNode true Dfs.init.

Definition markBridge (foundBridges : list Edge.t) (edge : Edge.t) : Edge.t :=
  Edge.mk (Edge.source edge) (Edge.target edge)
          (Some (existsb (fun bridge => joins (Edge.source edge) (Edge.target edge) bridge)
                         foundBridges))
          (Edge.isActive edge) (Edge.isRecovery edge).

Definition markArticulation (aps : gset string) (n : Node.t) : Node.t :=
  Node.mk (Node.id n) (Node.label n) (Node.x n) (Node.y n) (Node.type n)
          (Some (bool_decide (Node.id n ∈ aps))).

Definition runDFS (fuel : nat) (st : State) : Outcome State :=
  '(d, dfsResults) ← analyze fuel (graph st);
  let updatedEdges := map (markBridge (Dfs.foundBridges d)) (edges (graph st)) in
  let updatedNodes :=
    map (markArticulation (Dfs.foundArticulationPoints d)) (nodes (graph st)) in
  Done {| graph := {| nodes := updatedNodes; edges := updatedEdges |};
          selectedNode := selectedNode st; targetNode := targetNode st;
          algorithmResult := map (render (graph st)) dfsResults;
          path := [];
          bridges := Dfs.foundBridges d;
          articulationPoints :=
            filter (fun n => Node.isArticulationPoint n = Some true) updatedNodes;
          mode := mode st; recoveryEdges := recoveryEdges st |}.

(** ** [runBFS]: shortest path *)

Module Bfs.
Record state : Type := mk {
  visited : gmap string bool;
  queue : list string;
  prev : gmap string (option string);
  result : list Event
}.

(** [queue.push(s); visited[s] = true; prev[s] = null] and the first line
    of the log. *)
Definition init (s : string) : state :=
  mk (<[s := true]> ∅) [s] (<[s := None]> ∅) [EvStartBFS s].
End Bfs.

(** The body of [for (const neighbor of adjList[current])]. *)
Definition bfsNeighbor (current : string) (st : Bfs.state) (neighbor : string)
  : Bfs.state :=
  if negb (flag (Bfs.visited st) neighbor) then
    Bfs.mk (<[neighbor := true]> (Bfs.visited st))
           (Bfs.queue st ++ [neighbor])
           (<[neighbor := Some current]> (Bfs.prev st))
           (Bfs.result st ++ [EvDiscovered neighbor current])
  else st.

(** [while (queue.length > 0)]: one unit of fuel for each node taken off the
    queue. *)
Fixpoint bfsLoop (adjList : gmap string (list string)) (targetNode : string)
    (fuel : nat) (st : Bfs.state) : Outcome Bfs.state :=
  match Bfs.queue st with
  | [] => Done st
  | current :: rest =>
      match fuel with
      | 0 => OutOfFuel
      | S fuel' =>
          let st := Bfs.mk (Bfs.visited st) rest (Bfs.prev st)
                           (Bfs.result st ++ [EvVisiting current]) in
          if String.eqb current targetNode then
            Done (Bfs.mk (Bfs.visited st) (Bfs.queue st) (Bfs.prev st)
                         (Bfs.result st ++ [EvFoundTarget targetNode]))
          else
            match adjList !! current with
            | None => Thrown TypeError
            | Some ns =>
                bfsLoop adjList targetNode fuel' (fold_left (bfsNeighbor current) ns st)
            end
      end
  end.

(** [while (current !== null) { shortestPath.unshift(current); current = prev[current] }].
    Where [prev[current]] is [undefined] the loop of the source goes on with
    [undefined], which is not [null], and does not come back to the path: the
    model gives [OutOfFuel] there.  The search reads [prev] only at nodes it
    has marked visited, where it has written it ([bfsInv], [inv_prev]). *)
Fixpoint reconstruct (prev : gmap string (option string)) (fuel : nat)
    (current : option string) (shortestPath : list string)
  : Outcome (list string) :=
  match current with
  | None => Done shortestPath
  | Some c =>
      match fuel with
      | 0 => OutOfFuel
      | S fuel' =>
          match prev !! c with
          | Some p => reconstruct prev fuel' p (c :: shortestPath)
          | None => OutOfFuel
          end
      end
  end.

(** What the search hands to the component: the path ([[]] with the
    [EvNoPath] line when the target was not reached) and the log. *)
Inductive PathResult : Type :=
  | Found (shortestPath : list string) (log : list Event)
  | NotFound (log : list Event).

(** [runBFS] from "Initialize BFS" on, for a given adjacency list. *)
Definition bfsSearch (adjList : gmap string (list string)) (fuel : nat)
    (selected target : string) : Outcome PathResult :=
  st ← bfsLoop adjList target fuel (Bfs.init selected);
  if flag (Bfs.visited st) target then
    shortestPath ← reconstruct (Bfs.prev st) fuel (Some target) [];
    Done (Found shortestPath (Bfs.result st ++ [EvShortestPath shortestPath]))
  else
    Done (NotFound (Bfs.result st ++ [EvNoPath selected target])).

(** [runBFS] below its guard. *)
Definition findShortestPath (fuel : nat) (g : Graph) (selected target : string)
  : Outcome PathResult :=
  adjList ← buildAdjList g;
  bfsSearch adjList fuel selected target.

(** [!selectedNode]: [null] and the empty string are falsy. *)
Definition unset (o : option string) : bool :=
  match o with
  | None => true
  | Some s => String.eqb s ""
  end.

Definition setBfsResult (st : State) (p : list string) (log : list Event) : State :=
  {| graph := graph st; selectedNode := selectedNode st;
     targetNode := targetNode st;
     algorithmResult := map (render (graph st)) log;
     path := p; bridges := bridges st;
     articulationPoints := articulationPoints st;
     mode := mode st; recoveryEdges := recoveryEdges st |}.

Definition runBFS (fuel : nat) (st : State) : Outcome State :=
  match selectedNode st, targetNode st with
  | Some s, Some t =>
      if unset (Some s) || unset (Some t) then
        Done (setBfsResult st (path st) [EvPleaseSelect])
      else
        r ← findShortestPath fuel (graph st) s t;
        match r with
        | Found p log => Done (setBfsResult st p log)
        | NotFound log => Done (setBfsResult st [] log)
        end
  | _, _ => Done (setBfsResult st (path st) [EvPleaseSelect])
  end.

(** ** [recoverNetwork]: reconnecting the nodes cut off from the hub *)

(** [graph.nodes.find((node) => node.type === "hub")?.id || graph.nodes[0].id]:
    the id of the first hub unless it is missing or falsy (the empty
    string), the id of the first node otherwise. *)
Definition sourceNode (g : Graph) : Outcome string :=
  match find (fun n => NodeType_eqb (Node.type n) hub) (nodes g) with
  | Some n => if String.eqb (Node.id n) "" then firstNodeId g else Done (Node.id n)
  | None => firstNodeId g
  end.

(** The body of [for (const neighbor of adjList[current])] of the
    reachability search; the pair is [visited] and [queue]. *)
Definition reachNeighbor (acc : gmap string bool * list string) (neighbor : string)
  : gmap string bool * list string :=
  if negb (flag acc.1 neighbor)
  then (<[neighbor := true]> acc.1, acc.2 ++ [neighbor])
  else acc.

Fixpoint reachLoop (adjList : gmap string (list string)) (fuel : nat)
    (visited : gmap string bool) (queue : list string)
  : Outcome (gmap string bool) :=
  match queue with
  | [] => Done visited
  | current :: rest =>
      match fuel with
      | 0 => OutOfFuel
      | S fuel' =>
          match adjList !! current with
          | None => Thrown TypeError
          | Some ns =>
              let acc := fold_left reachNeighbor ns (visited, rest) in
              reachLoop adjList fuel' acc.1 acc.2
          end
      end
  end.

(** [Number.MAX_VALUE] *)
Definition MAX_VALUE : float := 0x1.fffffffffffffp+1023%float.

(** [Math.sqrt(dx * dx + dy * dy)] with [dx = connectedNode.x - disconnectedNode.x]. *)
Definition distance (connectedNode disconnectedNode : Node.t) : float :=
  let dx := PrimFloat.sub (Node.x connectedNode) (Node.x disconnectedNode) in
  let dy := PrimFloat.sub (Node.y connectedNode) (Node.y disconnectedNode) in
  PrimFloat.sqrt (PrimFloat.add (PrimFloat.mul dx dx) (PrimFloat.mul dy dy)).

(** The body of [connectedNodes.forEach]; the pair is [closestNode] and
    [minDistance]. *)
Definition closer (disconnectedNode : Node.t) (acc : Node.t * float)
    (connectedNode : Node.t) : Node.t * float :=
  if PrimFloat.ltb (distance connectedNode disconnectedNode) acc.2
  then (connectedNode, distance connectedNode disconnectedNode)
  else acc.

(** [closestNode] starts as [connectedNodes[0]]; reading [closestNode.id]
    raises when there is no connected node. *)
Definition closestNode (connectedNodes : list Node.t) (disconnectedNode : Node.t)
  : Outcome Node.t :=
  match connectedNodes with
  | [] => Thrown TypeError
  | first :: _ =>
      Done (fold_left (closer disconnectedNode) connectedNodes (first, MAX_VALUE)).1
  end.

Definition recoveryEdge (disconnectedNode closest : Node.t) : Edge.t :=
  Edge.mk (Node.id disconnectedNode) (Node.id closest) None true (Some true).

(** The body of [disconnectedNodes.forEach], over all of them: the new
    recovery edges and the log lines. *)
Fixpoint reconnect (connectedNodes : list Node.t) (disconnected : list Node.t)
  : Outcome (list Edge.t * list Event) :=
  match disconnected with
  | [] => Done ([], [])
  | d :: rest =>
      c ← closestNode connectedNodes d;
      '(es, log) ← reconnect connectedNodes rest;
      Done (recoveryEdge d c :: es, EvReconnecting d c :: log)
  end.

Record RecoveryPlan : Type := mkPlan {
  hubOf : string;
  reached : gmap string bool;
  disconnectedNodes : list Node.t;
  newRecoveryEdges : list Edge.t;
  planLog : list Event
}.

Definition planRecovery (fuel : nat) (g : Graph) : Outcome RecoveryPlan :=
  adjList ← buildAdjList g;
  src ← sourceNode g;
  visited ← reachLoop adjList fuel (<[src := true]> ∅) [src];
  let disconnected := filter (fun n => flag visited (Node.id n) = false) (nodes g) in
  if length disconnected =? 0 then
    Done (mkPlan src visited disconnected [] [EvRecoveryStart; EvAllConnected])
  else
    let connectedNodes := filter (fun n => flag visited (Node.id n) = true) (nodes g) in
    '(es, log) ← reconnect connectedNodes disconnected;
    Done (mkPlan src visited disconnected es
                 ([EvRecoveryStart; EvDisconnected disconnected] ++ log)).

Definition recoverNetwork (fuel : nat) (st : State) : Outcome State :=
  p ← planRecovery fuel (graph st);
  Done {| graph := graph st; selectedNode := selectedNode st;
          targetNode := targetNode st;
          algorithmResult := map (render (graph st)) (planLog p);
          path := path st; bridges := bridges st;
          articulationPoints := articulationPoints st;
          mode := mode st; recoveryEdges := newRecoveryEdges p |}.

(** ** Graph-theoretic vocabulary of the statements *)

Definition nodeIds (g : Graph) : list string := map Node.id (nodes g).

(** The names of the members of [Object.prototype], which every object
    literal inherits.  The dictionaries of the handlers ([visited], [prev],
    [adjList], [discoveryTime], [lowTime], [parent]) are object literals. *)
Definition prototypeMembers : list string :=
  ["constructor"; "__defineGetter__"; "__defineSetter__"; "hasOwnProperty";
   "__lookupGetter__"; "__lookupSetter__"; "isPrototypeOf";
   "propertyIsEnumerable"; "toString"; "valueOf"; "__proto__";
   "toLocaleString"].

(** A key at which a dictionary holds what was written there and nothing
    else. *)
Definition ordinary (k : string) : Prop := k ∉ prototypeMembers.

#[global] Instance ordinary_dec (k : string) : Decision (ordinary k) :=
  decide (k ∉ prototypeMembers).

(** No node of the graph is named after a member of [Object.prototype]. *)
Definition ordinaryIds (g : Graph) : Prop := Forall ordinary (nodeIds g).

#[global] Instance ordinaryIds_dec (g : Graph) : Decision (ordinaryIds g) :=
  decide (Forall ordinary (nodeIds g)).

(** The invariant of the data model: every edge names nodes of the graph. *)
Definition wellFormed (g : Graph) : Prop :=
  Forall (fun e => Edge.source e ∈ nodeIds g ∧ Edge.target e ∈ nodeIds g) (edges g).

(** [u] and [v] are joined by an active edge among [es]. *)
Definition linked (es : list Edge.t) (u v : string) : Prop :=
  ∃ e, e ∈ es ∧ Edge.isActive e = true ∧ joins u v e = true.

(** [v] can be reached from [u] along active edges of [es]. *)
Inductive reachable (es : list Edge.t) (u : string) : string → Prop :=
  | reach_refl : reachable es u u
  | reach_step v w : reachable es u v → linked es v w → reachable es u w.

(** Every two consecutive nodes of the path satisfy [R]. *)
Fixpoint chain (R : string → string → Prop) (p : list string) : Prop :=
  match p with
  | a :: (b :: _) as rest => R a b ∧ chain R rest
  | _ => True
  end.

(** The nodes a log says were put on the queue, in order. *)
Definition enqueued (log : list Event) : list string :=
  omap (fun e => match e with
                 | EvStartBFS s => Some s
                 | EvDiscovered n _ => Some n
                 | _ => None
                 end) log.

Arguments enqueued : simpl never.

(** The neighbours the adjacency list gives [u], in the order of the
    source: for each edge, its target under its source, then its source
    under its target. *)
Definition neighbours (es : list Edge.t) (u : string) : list string :=
  flat_map (fun e => (if decide (Edge.source e = u) then [Edge.target e] else [])
                     ++ (if decide (Edge.target e = u) then [Edge.source e] else []))
           es.

(** The number of ids in [keys] not yet marked in [visited]: the measure
    of the traversals. *)
Definition unvisited (keys : list string) (visited : gmap string bool) : nat :=
  length (filter (fun k => flag visited k = false) keys).

(** The adjacency list, as the traversals use it. *)
Record adjacency (g : Graph) (adj : gmap string (list string)) : Prop := {
  adj_keys u : is_Some (adj !! u) ↔ u ∈ nodeIds g;
  adj_sound u ns v : adj !! u = Some ns → v ∈ ns → linked (edges g) u v;
  adj_complete u v : linked (edges g) u v → ∃ ns, adj !! u = Some ns ∧ v ∈ ns;
  adj_closed u ns v : adj !! u = Some ns → v ∈ ns → v ∈ nodeIds g
}.

(** The log of a search. *)
Definition logOf (r : PathResult) : list Event :=
  match r with
  | Found _ log => log
  | NotFound log => log
  end.

(** The two endpoints of an edge, which is how the component refers to it. *)
Definition ends (e : Edge.t) : string * string := (Edge.source e, Edge.target e).

(** ** Invariants of the loops *)

(** [p] is the branch of the predecessor map [prev] that ends in [v]: it
    starts at a node whose predecessor is [null], each node is the
    predecessor of the next, an [R]-step away from it, and no node repeats. *)
Inductive branch (R : string → string → Prop) (prev : gmap string (option string))
  : string → list string → Prop :=
  | branch_root s : prev !! s = Some None → branch R prev s [s]
  | branch_step u v p :
      prev !! v = Some (Some u) → branch R prev u p → v ∉ p → R u v →
      branch R prev v (p ++ [v]).

(** The invariant of the loop of [runBFS] searching from [s] in [g]. *)
Record bfsInv (g : Graph) (s : string) (st : Bfs.state) : Prop := {
  inv_queue q : q ∈ Bfs.queue st → flag (Bfs.visited st) q = true;
  inv_prev v : flag (Bfs.visited st) v = true →
               ∃ p, branch (linked (edges g)) (Bfs.prev st) v p;
  inv_dom v : flag (Bfs.visited st) v = false → Bfs.prev st !! v = None;
  inv_root v : Bfs.prev st !! v = Some None → v = s;
  inv_once : NoDup (enqueued (Bfs.result st));
  inv_log v : v ∈ enqueued (Bfs.result st) ↔ flag (Bfs.visited st) v = true;
  inv_keys v : flag (Bfs.visited st) v = true → v = s ∨ v ∈ nodeIds g
}.

(** The invariant of the reachability loop of [recoverNetwork] from [src]:
    [visited] holds nodes of the graph that can be reached from [src], those
    still to be expanded are on the queue and, of the others, every
    neighbour is visited as well. *)
Record reachInv (g : Graph) (adj : gmap string (list string)) (src : string)
    (visited : gmap string bool) (queue : list string) : Prop := {
  reach_src : flag visited src = true;
  reach_queue q : q ∈ queue → flag visited q = true;
  reach_sound v : flag visited v = true → reachable (edges g) src v;
  reach_keys v : flag visited v = true → v ∈ nodeIds g;
  reach_done u ns v :
    flag visited u = true → u ∉ queue → adj !! u = Some ns → v ∈ ns →
    flag visited v = true
}.

(** What the planner must achieve on [g] with the plan [p]. *)
Record reconnected (g : Graph) (p : RecoveryPlan) : Prop := {
  plan_hub : sourceNode g = Done (hubOf p);
  plan_reached v : flag (reached p) v = true ↔ reachable (edges g) (hubOf p) v;
  plan_disconnected :
    disconnectedNodes p = filter (fun n => flag (reached p) (Node.id n) = false) (nodes g);
  plan_edges :
    Forall2 (fun d e =>
               Edge.source e = Node.id d ∧ Edge.isActive e = true ∧
               Edge.isRecovery e = Some true ∧
               ∃ c, c ∈ nodes g ∧ Edge.target e = Node.id c ∧
                    flag (reached p) (Node.id c) = true)
            (disconnectedNodes p) (newRecoveryEdges p);
  plan_connects n :
    n ∈ nodes g → reachable (edges g ++ newRecoveryEdges p) (hubOf p) (Node.id n)
}.

(** The same edges under other annotations: a function on edges that
    keeps the endpoints and the [isActive] flag. *)
Definition sameLink (f : Edge.t → Edge.t) : Prop :=
  ∀ e, Edge.source (f e) = Edge.source e ∧ Edge.target (f e) = Edge.target e
       ∧ Edge.isActive (f e) = Edge.isActive e.

(** The state of the analysis with [f] applied to the bridges found. *)
Definition mapBridges (f : Edge.t → Edge.t) (st : Dfs.state) : Dfs.state :=
  Dfs.mk (Dfs.visited st) (Dfs.discoveryTime st) (Dfs.lowTime st) (Dfs.parent st)
         (map f (Dfs.foundBridges st)) (Dfs.foundArticulationPoints st) (Dfs.time st).

Definition relabelVisit (f : Edge.t → Edge.t) (o : Outcome (Dfs.state * list Event))
  : Outcome (Dfs.state * list Event) :=
  '(st, result) ← o; Done (mapBridges f st, result).

Definition relabelFrame (f : Edge.t → Edge.t) (o : Outcome Frame) : Outcome Frame :=
  '(st, childCount, result) ← o; Done (mapBridges f st, childCount, result).

(** ** The specification's wording of [toggleEdge] *)

(** [toggleEdge] as the specification words it: the first edge joining the
    pair is flipped, and only that one. *)
Fixpoint flipFirst (a b : string) (es : list Edge.t) : list Edge.t :=
  match es with
  | [] => []
  | e :: rest => if joins a b e then flip e :: rest else e :: flipFirst a b rest
  end.

(** ** Graphs and states of the examples *)

(** A state of the component showing the graph [g], nothing selected. *)
Definition showing (g : Graph) : State :=
  {| graph := g; selectedNode := None; targetNode := None;
     algorithmResult := []; path := []; bridges := [];
     articulationPoints := []; mode := normal; recoveryEdges := [] |}.

(** The state after the user has clicked on [s] and then on [t]. *)
Definition selecting (s t : string) (st : State) : State :=
  {| graph := graph st; selectedNode := Some s; targetNode := Some t;
     algorithmResult := algorithmResult st; path := path st;
     bridges := bridges st; articulationPoints := articulationPoints st;
     mode := mode st; recoveryEdges := recoveryEdges st |}.

(** Two parallel edges between the same two nodes. *)
Definition parallelGraph : Graph :=
  {| nodes := [node "A" "a" 0 0 city; node "B" "b" 10 0 city];
     edges := [link "A" "B" true; link "A" "B" true] |}.

(** The adjacency list [buildAdjList] gives for [parallelGraph]. *)
Definition parallelAdj : gmap string (list string) :=
  <["B" := ["A"; "A"]]> (<["A" := ["B"; "B"]]> ∅).

(** The path graph A - B - C, for a given listing of its nodes and edges. *)
Definition pathNodes : list Node.t :=
  [node "A" "a" 0 0 city; node "B" "b" 10 0 city; node "C" "c" 20 0 city].

Definition pathEdgeListings : list (list Edge.t) :=
  ab ← [link "A" "B" true; link "B" "A" true];
  bc ← [link "B" "C" true; link "C" "B" true];
  [[ab; bc]; [bc; ab]].

Definition pathGraphs : list Graph :=
  ns ← permutations pathNodes;
  es ← pathEdgeListings;
  [mkGraph ns es].

(** The initial graph after the link between Cebu City and Mandaue Hub has
    been toggled off. *)
Definition cutGraph : Graph := graph (toggleEdge "2" "3" initialState).

(** The graph with no node and no edge. *)
Definition emptyGraph : Graph := mkGraph [] [].

(** What the analysis must say of a path graph A - B - C. *)
Definition pathGraphAnalysed (g : Graph) (st : State) : Prop :=
  bridges st ≡ₚ edges g ∧
  Forall (fun e => Edge.isBridge e = Some true) (edges (graph st)) ∧
  map Node.id (articulationPoints st) = ["B"] ∧
  Forall (fun n => Node.isArticulationPoint n = Some (String.eqb (Node.id n) "B"))
         (nodes (graph st)) ∧
  map Node.id (nodes (graph st)) = map Node.id (nodes g) ∧
  map ends (edges (graph st)) = map ends (edges g).

(** ** Levels of the breadth-first search *)

(** The levels of the search from [s]: [r v] is the number of nodes of the
    branch of [prev] to [v]; the queue holds nodes of level [m] followed by
    nodes of level [m + 1]; the nodes that have left the queue are of
    level [m] at most and, but for the node [cur] being expanded, all their
    neighbours are visited, at most one level further. *)
Record bfsLevels (g : Graph) (s : string) (r : string → nat) (m : nat)
    (cur : option string) (st : Bfs.state) : Prop := {
  lv_source : flag (Bfs.visited st) s = true ∧ r s = 1;
  lv_rank v : flag (Bfs.visited st) v = true →
              ∃ p, branch (linked (edges g)) (Bfs.prev st) v p ∧ length p = r v;
  lv_split : ∃ lo hi, Bfs.queue st = lo ++ hi ∧
                      Forall (fun x => r x = m) lo ∧ Forall (fun x => r x = S m) hi;
  lv_done v : flag (Bfs.visited st) v = true → v ∉ Bfs.queue st → r v ≤ m;
  lv_cur c : cur = Some c → flag (Bfs.visited st) c = true ∧ r c = m;
  lv_expanded v w :
    flag (Bfs.visited st) v = true → v ∉ Bfs.queue st → cur ≠ Some v →
    linked (edges g) v w → flag (Bfs.visited st) w = true ∧ r w ≤ S (r v)
}.

(** What the levels give when the loop has ended, on the target [t] or on
    an empty queue: the neighbours of every visited node below the level of
    the target (of every visited node, when the target is not visited) are
    visited, at most one level further. *)
Record bfsFinal (g : Graph) (s t : string) (r : string → nat) (st : Bfs.state)
  : Prop := {
  fin_source : flag (Bfs.visited st) s = true ∧ r s = 1;
  fin_rank v : flag (Bfs.visited st) v = true →
               ∃ p, branch (linked (edges g)) (Bfs.prev st) v p ∧ length p = r v;
  fin_expanded v w :
    flag (Bfs.visited st) v = true →
    (flag (Bfs.visited st) t = true → r v < r t) →
    linked (edges g) v w → flag (Bfs.visited st) w = true ∧ r w ≤ S (r v)
}.

(** ** Invariant of the depth-first traversal *)

(** What holds of the shared variables of [runDFS] on [g] while the
    traversal from [root] runs: the visited nodes can be reached from
    [root], the bridges found are active edges of the graph between visited
    nodes, and the articulation points found are visited. *)
Record dfsOk (g : Graph) (root : string) (st : Dfs.state) : Prop := {
  ok_visited v : flag (Dfs.visited st) v = true → reachable (edges g) root v;
  ok_bridges e : e ∈ Dfs.foundBridges st →
                 e ∈ activeEdges g ∧ flag (Dfs.visited st) (Edge.source e) = true
                 ∧ flag (Dfs.visited st) (Edge.target e) = true;
  ok_articulation a : a ∈ Dfs.foundArticulationPoints st →
                      flag (Dfs.visited st) a = true
}.

(** What one call of [dfsVisit] adds to the state [st], giving [st']: it
    unmarks nothing, and every neighbour of a node it has marked is marked. *)
Record dfsGrows (g : Graph) (st st' : Dfs.state) : Prop := {
  grows_mono v : flag (Dfs.visited st) v = true → flag (Dfs.visited st') v = true;
  grows_closed v w :
    flag (Dfs.visited st') v = true → flag (Dfs.visited st) v = false →
    linked (edges g) v w → flag (Dfs.visited st') w = true
}.

(** ** What makes a reported bridge a bridge *)

(** The edges left when every edge that joins [a] and [b] is taken away. *)
Definition without (a b : string) (es : list Edge.t) : list Edge.t :=
  filter (fun e => joins a b e = false) es.

(** The ends of [e] are two nodes, and without the edges that join them
    neither can be reached from the other. *)
Definition bridgeOf (g : Graph) (e : Edge.t) : Prop :=
  Edge.source e ≠ Edge.target e ∧
  ¬ reachable (without (Edge.source e) (Edge.target e) (edges g))
              (Edge.source e) (Edge.target e) ∧
  ¬ reachable (without (Edge.source e) (Edge.target e) (edges g))
              (Edge.target e) (Edge.source e).

(** Every neighbour of [x] has been visited. *)
Definition closedAt (g : Graph) (st : Dfs.state) (x : string) : Prop :=
  ∀ w, linked (edges g) x w → flag (Dfs.visited st) w = true.

(** What holds when [dfsVisit] is called: [onStack] are the nodes whose
    call has not returned yet. *)
Record dfsPre (g : Graph) (onStack : string → Prop) (st : Dfs.state) : Prop := {
  pre_stack x : flag (Dfs.visited st) x = true → onStack x ∨ closedAt g st x;
  pre_stack_visited x : onStack x → flag (Dfs.visited st) x = true;
  pre_time x : flag (Dfs.visited st) x = true →
               num (Dfs.discoveryTime st) x ≤ Dfs.time st;
  pre_bridges e : e ∈ Dfs.foundBridges st → bridgeOf g e
}.

(** What holds between the iterations of the loop of [dfsVisit (u, _)],
    called in the state [st]. *)
Record dfsLoop (g : Graph) (u : string) (st stk : Dfs.state) : Prop := {
  lp_mono x : flag (Dfs.visited st) x = true → flag (Dfs.visited stk) x = true;
  lp_disc x : flag (Dfs.visited st) x = true →
              num (Dfs.discoveryTime stk) x = num (Dfs.discoveryTime st) x;
  lp_low x : flag (Dfs.visited st) x = true →
             num (Dfs.lowTime stk) x = num (Dfs.lowTime st) x;
  lp_parent x : flag (Dfs.visited st) x = true ∨ x = u →
                Dfs.parent stk !! x = Dfs.parent st !! x;
  lp_u : flag (Dfs.visited stk) u = true;
  lp_disc_u : num (Dfs.discoveryTime stk) u = S (Dfs.time st);
  lp_closed x : flag (Dfs.visited stk) x = true → flag (Dfs.visited st) x = false →
                x ≠ u → closedAt g stk x;
  lp_time x : flag (Dfs.visited stk) x = true →
              num (Dfs.discoveryTime stk) x ≤ Dfs.time stk;
  lp_time_mono : Dfs.time st ≤ Dfs.time stk;
  lp_low_bound x y :
    flag (Dfs.visited stk) x = true → flag (Dfs.visited st) x = false → x ≠ u →
    flag (Dfs.visited st) y = true → linked (edges g) x y →
    num (Dfs.lowTime stk) u ≤ num (Dfs.discoveryTime st) y;
  lp_bridges e : e ∈ Dfs.foundBridges stk → bridgeOf g e
}.

(** What holds when [dfsVisit (u, _)], called in the state [st], returns in
    the state [st']. *)
Record dfsPost (g : Graph) (u : string) (st st' : Dfs.state) : Prop := {
  post_mono x : flag (Dfs.visited st) x = true → flag (Dfs.visited st') x = true;
  post_disc x : flag (Dfs.visited st) x = true →
                num (Dfs.discoveryTime st') x = num (Dfs.discoveryTime st) x;
  post_low x : flag (Dfs.visited st) x = true →
               num (Dfs.lowTime st') x = num (Dfs.lowTime st) x;
  post_parent x : flag (Dfs.visited st) x = true ∨ x = u →
                  Dfs.parent st' !! x = Dfs.parent st !! x;
  post_u : flag (Dfs.visited st') u = true;
  post_closed x : flag (Dfs.visited st') x = true →
                  flag (Dfs.visited st) x = false → closedAt g st' x;
  post_time x : flag (Dfs.visited st') x = true →
                num (Dfs.discoveryTime st') x ≤ Dfs.time st';
  post_time_mono : Dfs.time st ≤ Dfs.time st';
  post_low_bound x y :
    flag (Dfs.visited st') x = true → flag (Dfs.visited st) x = false →
    flag (Dfs.visited st) y = true → linked (edges g) x y →
    (x = u ∧ Dfs.parent st !! u = Some y) ∨
    num (Dfs.lowTime st') u ≤ num (Dfs.discoveryTime st) y;
  post_bridges e : e ∈ Dfs.foundBridges st' → bridgeOf g e
}.

(** ** What makes the bridge search complete *)

(** A link of the graph between two nodes of a set. *)
Definition linkedIn (g : Graph) (inside : string → Prop) (x y : string) : Prop :=
  linked (edges g) x y ∧ inside x ∧ inside y.

(** What the analysis has settled of the link between [x] and [y]: a
    bridge it has found joins them, or they stay connected without the
    edges that join them. *)
Definition settled (g : Graph) (found : list Edge.t) (x y : string) : Prop :=
  (∃ b, b ∈ found ∧ joins x y b = true) ∨
  reachable (without x y (edges g)) x y.

(** The nodes visited between two states of the traversal. *)
Definition newIn (st st' : Dfs.state) (x : string) : Prop :=
  flag (Dfs.visited st') x = true ∧ flag (Dfs.visited st) x = false.

(** What holds of the stack when [dfsVisit (u, _)] is called: [parent[u]]
    is on it and linked to [u], and every node on it is connected to
    [parent[u]] through nodes on it. *)
Record treePre (g : Graph) (onStack : string → Prop) (u : string)
    (st : Dfs.state) : Prop := {
  tp_stack x : onStack x →
               ∃ p, Dfs.parent st !! u = Some p ∧ rtc (linkedIn g onStack) x p;
  tp_parent p : Dfs.parent st !! u = Some p → onStack p ∧ linked (edges g) p u
}.

(** What the call [dfsVisit (u, _)], called in [st], has done when in
    [st']: the nodes it has visited hang together from [u]; [lowTime[u]]
    is a discovery time it has seen; the links of the nodes it has visited,
    except those that [open] leaves for later, are settled. *)
Record treeInv (g : Graph) (u : string) (open : string → string → Prop)
    (st st' : Dfs.state) : Prop := {
  tr_tree x : newIn st st' x → rtc (linkedIn g (newIn st st')) u x;
  tr_disc x : newIn st st' x → Dfs.time st < num (Dfs.discoveryTime st') x;
  tr_low :
    num (Dfs.lowTime st') u = num (Dfs.discoveryTime st') u ∨
    ∃ x y, newIn st st' x ∧ flag (Dfs.visited st') y = true ∧
           linked (edges g) x y ∧
           ¬ (x = u ∧ Dfs.parent st !! u = Some y) ∧
           num (Dfs.lowTime st') u = num (Dfs.discoveryTime st') y;
  tr_settled x y :
    newIn st st' x → ¬ open x y → linked (edges g) x y → x ≠ y →
    settled g (Dfs.foundBridges st') x y;
  tr_found e : e ∈ Dfs.foundBridges st → e ∈ Dfs.foundBridges st'
}.

(** ** What makes a reported articulation point one *)

(** The edges that do not touch [u]. *)
Definition avoiding (u : string) (es : list Edge.t) : list Edge.t :=
  filter (fun e => Edge.source e ≠ u ∧ Edge.target e ≠ u) es.

(** Taking [u] away separates two other nodes of its component. *)
Definition cutNode (g : Graph) (u : string) : Prop :=
  ∃ a b, a ≠ u ∧ b ≠ u ∧
         reachable (edges g) u a ∧ reachable (edges g) u b ∧
         ¬ reachable (avoiding u (edges g)) a b.

(** What holds of the articulation points when [dfsVisit (u, isRoot)] is
    called: only the first call has [isRoot] set, the others have set
    [parent[u]]. *)
Record apPre (g : Graph) (onStack : string → Prop) (u : string) (isRoot : bool)
    (st : Dfs.state) : Prop := {
  app_sound a : a ∈ Dfs.foundArticulationPoints st → cutNode g a;
  app_root : isRoot = true → ∀ x, ¬ onStack x;
  app_parent : isRoot = false → is_Some (Dfs.parent st !! u)
}.

(** What the call [dfsVisit (u, isRoot)], called in [st], has done of the
    articulation points when in [st']: those found are cut nodes; a node
    the call has visited other than [u] and not found leaves the others
    connected to [u]; and [u], when it is not the root and not found,
    leaves them connected to the stack. *)
Record apInv (g : Graph) (onStack : string → Prop) (u : string) (isRoot : bool)
    (st st' : Dfs.state) : Prop := {
  ap_found a : a ∈ Dfs.foundArticulationPoints st →
               a ∈ Dfs.foundArticulationPoints st';
  ap_sound a : a ∈ Dfs.foundArticulationPoints st' → cutNode g a;
  ap_inner w a :
    newIn st st' w → newIn st st' a → a ≠ w → w ≠ u →
    w ∉ Dfs.foundArticulationPoints st' →
    reachable (avoiding w (edges g)) a u;
  ap_top a :
    isRoot = false → u ∉ Dfs.foundArticulationPoints st' →
    newIn st st' a → a ≠ u →
    ∃ y, onStack y ∧ reachable (avoiding u (edges g)) a y
}.

(** What [childCount] counts in the call on the root [u]. *)
Record apCount (g : Graph) (u : string) (childCount : nat)
    (st stk : Dfs.state) : Prop := {
  apc_none : childCount = 0 → ∀ a, newIn st stk a → a = u;
  apc_one : childCount ≤ 1 →
            ∀ a b, newIn st stk a → newIn st stk b → a ≠ u → b ≠ u →
                   reachable (avoiding u (edges g)) a b;
  apc_iso : 0 < childCount →
            ∃ v (F : string → Prop),
              linked (edges g) u v ∧ F v ∧ ¬ F u ∧
              (∀ x, F x → flag (Dfs.visited stk) x = true) ∧
              (∀ x y, F x → linked (edges g) x y → y ≠ u → F y);
  apc_cut : 1 < childCount → cutNode g u
}.

(** ** The canvas: clicks and drawing *)

(** What [handleCanvasClick] reads of a click: the position of the pointer
    and the bounding rectangle of the canvas ([None] when
    [canvasRef.current] is [null]). *)
Module DOMRect.
Record t : Type := mk {
  left : float;
  top : float;
  width : float;
  height : float
}.
End DOMRect.

Record MouseEvent : Type := mkClick {
  clientX : float;
  clientY : float;
  canvasRect : option DOMRect.t
}.

(** The [width] and [height] attributes of the canvas. *)
Definition canvasWidth : float := 600.
Definition canvasHeight : float := 450.

Definition hitRadius : float := 20.

(** [graph.nodes.find] on the squared distance to the scaled position. *)
Definition clickedNode (g : Graph) (x y : float) : option Node.t :=
  find (fun n =>
          let dx := PrimFloat.sub (Node.x n) x in
          let dy := PrimFloat.sub (Node.y n) y in
          PrimFloat.leb (PrimFloat.add (PrimFloat.mul dx dx) (PrimFloat.mul dy dy))
                        (PrimFloat.mul hitRadius hitRadius))
       (nodes g).

Definition setSelection (st : State) (selected target : option string)
    (p : list string) : State :=
  {| graph := graph st; selectedNode := selected; targetNode := target;
     algorithmResult := algorithmResult st; path := p;
     bridges := bridges st; articulationPoints := articulationPoints st;
     mode := mode st; recoveryEdges := recoveryEdges st |}.

Definition handleCanvasClick (e : MouseEvent) (st : State) : State :=
  match canvasRect e with
  | None => st
  | Some rect =>
      let scaleX := PrimFloat.div canvasWidth (DOMRect.width rect) in
      let scaleY := PrimFloat.div canvasHeight (DOMRect.height rect) in
      let x := PrimFloat.mul (PrimFloat.sub (clientX e) (DOMRect.left rect)) scaleX in
      let y := PrimFloat.mul (PrimFloat.sub (clientY e) (DOMRect.top rect)) scaleY in
      match clickedNode (graph st) x y with
      | None => st
      | Some n =>
          if unset (selectedNode st) then
            setSelection st (Some (Node.id n)) (targetNode st) (path st)
          else if unset (targetNode st) then
            if negb (bool_decide (Some (Node.id n) = selectedNode st))
            then setSelection st (selectedNode st) (Some (Node.id n)) (path st)
            else st
          else setSelection st (Some (Node.id n)) None []
      end
  end.

(** [setMode] *)
Definition setMode (m : Mode) (st : State) : State :=
  {| graph := graph st; selectedNode := selectedNode st;
     targetNode := targetNode st; algorithmResult := algorithmResult st;
     path := path st; bridges := bridges st;
     articulationPoints := articulationPoints st;
     mode := m; recoveryEdges := recoveryEdges st |}.

(** The drawing context: the three settings the edge loop writes. *)
Record Ctx : Type := mkCtx {
  strokeStyle : string;
  lineWidth : nat;
  lineDash : list nat
}.

(** [path.includes(x)], [path.indexOf(x)] (-1 when absent) and [path[i]]
    ([undefined], here [None], outside the array). *)
Definition includes (l : list string) (x : string) : bool :=
  existsb (String.eqb x) l.

Fixpoint indexOf (l : list string) (x : string) : Z :=
  match l with
  | [] => (-1)%Z
  | y :: rest =>
      if String.eqb y x then 0%Z
      else let i := indexOf rest x in if (i <? 0)%Z then (-1)%Z else (i + 1)%Z
  end.

Definition item (l : list string) (i : Z) : option string :=
  if (i <? 0)%Z then None else l !! Z.to_nat i.

(** [o === x] for an array element [o]. *)
Definition same (o : option string) (x : string) : bool :=
  match o with
  | Some y => String.eqb y x
  | None => false
  end.

(** The test of the third branch of the edge styling. *)
Definition pathTest (p : list string) (edge : Edge.t) : bool :=
  includes p (Edge.source edge) && includes p (Edge.target edge)
  && (same (item p (indexOf p (Edge.source edge))) (Edge.target edge)
      || same (item p (indexOf p (Edge.target edge))) (Edge.source edge)).

(** The settings of the context when [ctx.stroke()] draws [edge]. *)
Definition edgeStroke (p : list string) (edge : Edge.t) (ctx : Ctx) : Ctx :=
  if negb (Edge.isActive edge) then mkCtx "#ff0000" (lineWidth ctx) [5; 3]
  else if default false (Edge.isBridge edge) then mkCtx "#ff9900" 3 []
  else if pathTest p edge then mkCtx "#00cc00" 3 []
  else mkCtx "#666666" 2 [].

(** A line drawn on the canvas. *)
Record Segment : Type := mkSegment {
  drawn : Edge.t;
  fromNode : Node.t;
  toNode : Node.t;
  stroke : Ctx
}.

(** The body of [graph.edges.forEach] of the drawing effect; the pair is the
    lines drawn so far and the context. *)
Definition drawEdge (g : Graph) (p : list string) (acc : list Segment * Ctx)
    (edge : Edge.t) : list Segment * Ctx :=
  match find (fun n => String.eqb (Node.id n) (Edge.source edge)) (nodes g),
        find (fun n => String.eqb (Node.id n) (Edge.target edge)) (nodes g) with
  | Some sourceNode, Some targetNode =>
      let ctx := edgeStroke p edge acc.2 in
      (acc.1 ++ [mkSegment edge sourceNode targetNode ctx],
       mkCtx (strokeStyle ctx) 2 [])
  | _, _ => acc
  end.

Definition drawEdges (st : State) (ctx : Ctx) : list Segment * Ctx :=
  fold_left (drawEdge (graph st) (path st)) (edges (graph st)) ([], ctx).

(** ** The component as a state machine *)

(** What the user can do: click on the canvas, press [Toggle] in a row of
    the failure table (shown in failure mode only), press one of the
    buttons.  The button of [runBFS] is disabled while a selection is
    missing. *)
Inductive Action : Type :=
  | Click (e : MouseEvent)
  | ToggleRow (idx : nat)
  | RunDFS
  | RunBFS
  | Recover
  | Reset
  | SetMode (m : Mode).

Definition step (fuel : nat) (st : State) (a : Action) : Outcome State :=
  match a with
  | Click e => Done (handleCanvasClick e st)
  | ToggleRow idx =>
      match mode st, edges (graph st) !! idx with
      | failure, Some edge => Done (toggleEdge (Edge.source edge) (Edge.target edge) st)
      | _, _ => Done st
      end
  | RunDFS => runDFS fuel st
  | RunBFS =>
      if unset (selectedNode st) || unset (targetNode st) then Done st
      else runBFS fuel st
  | Recover => recoverNetwork fuel st
  | Reset => Done (resetSimulation st)
  | SetMode m => Done (setMode m st)
  end.

(** The states the component can be in. *)
Inductive uiReachable : State → Prop :=
  | ui_init : uiReachable initialState
  | ui_step st a fuel st' :
      uiReachable st → step fuel st a = Done st' → uiReachable st'.

(** What holds in every such state: the graph has the nodes and the links
    of the initial graph; the selections are ids of nodes, the target
    differing from the source; and the path shown, if any, is a path of the
    graph as it is, from the source to the target, and a shortest one. *)
Record uiInv (st : State) : Prop := {
  ui_nodes : nodeIds (graph st) = nodeIds initialGraph;
  ui_edges : map ends (edges (graph st)) = map ends (edges initialGraph);
  ui_selected s : selectedNode st = Some s → s ∈ nodeIds initialGraph;
  ui_target t : targetNode st = Some t →
                t ∈ nodeIds initialGraph ∧
                ∃ s, selectedNode st = Some s ∧ s ≠ t;
  ui_path : path st ≠ [] →
            ∃ s t, selectedNode st = Some s ∧ targetNode st = Some t ∧
                   head (path st) = Some s ∧ last (path st) = Some t ∧
                   NoDup (path st) ∧
                   chain (linked (edges (graph st))) (path st) ∧
                   ∀ q, head q = Some s → last q = Some t →
                        chain (linked (edges (graph st))) q →
                        length (path st) ≤ length q
}.

(** A state showing one node with an edge to itself, and the path made of
    that node; the context of a fresh canvas. *)
Definition loopState : State :=
  {| graph := {| nodes := [node "A" "a" 0 0 city]; edges := [link "A" "A" true] |};
     selectedNode := Some "A"; targetNode := Some "A";
     algorithmResult := []; path := ["A"]; bridges := [];
     articulationPoints := []; mode := normal; recoveryEdges := [] |}.

Definition freshCtx : Ctx := mkCtx "#000000" 1 [].

(** * Properties *)

(** ** The outcome monad *)

Lemma bind_Done {A B} (m : Outcome A) (k : A → Outcome B) (b : B) :
  m ≫= k = Done b → ∃ a, m = Done a ∧ k a = Done b.
Proof. destruct m; simpl; intros H; try discriminate. eauto. Qed.

Lemma fold_left_Thrown {A B} (f : Outcome A → B → Outcome A) (l : list B) e :
  (∀ b, f (Thrown e) b = Thrown e) → fold_left f l (Thrown e) = Thrown e.
Proof. intros Hf. induction l as [|b l IH]; simpl; [done|]. by rewrite Hf. Qed.

Lemma fold_left_OutOfFuel {A B} (f : Outcome A → B → Outcome A) (l : list B) :
  (∀ b, f OutOfFuel b = OutOfFuel) → fold_left f l OutOfFuel = OutOfFuel.
Proof. intros Hf. induction l as [|b l IH]; simpl; [done|]. by rewrite Hf. Qed.

(** ** Strings and flags *)

Lemma eqb_true (a b : string) : String.eqb a b = true ↔ a = b.
Proof. apply String.eqb_eq. Qed.

Lemma eqb_false (a b : string) : String.eqb a b = false ↔ a ≠ b.
Proof. apply String.eqb_neq. Qed.

Lemma flag_insert_eq (m : gmap string bool) k : flag (<[k := true]> m) k = true.
Proof. unfold flag. by rewrite lookup_insert_eq. Qed.

Lemma flag_insert_ne (m : gmap string bool) k k' b :
  k ≠ k' → flag (<[k := b]> m) k' = flag m k'.
Proof. intros. unfold flag. by rewrite lookup_insert_ne. Qed.

Lemma flag_insert_mono (m : gmap string bool) k k' :
  flag m k' = true → flag (<[k := true]> m) k' = true.
Proof.
  intros H. destruct (decide (k = k')) as [->|Hne].
  - apply flag_insert_eq.
  - by rewrite flag_insert_ne.
Qed.

Lemma flag_insert_true (m : gmap string bool) k k' :
  flag (<[k := true]> m) k' = true ↔ k = k' ∨ flag m k' = true.
Proof.
  destruct (decide (k = k')) as [->|Hne].
  - rewrite flag_insert_eq. split; [by left|done].
  - rewrite flag_insert_ne by done. split; [by right|by intros [?|?]].
Qed.

Lemma joins_sym a b e : joins a b e = joins b a e.
Proof. unfold joins. apply orb_comm. Qed.

Lemma joins_spec a b e :
  joins a b e = true ↔
  (Edge.source e = a ∧ Edge.target e = b) ∨ (Edge.source e = b ∧ Edge.target e = a).
Proof.
  unfold joins. rewrite orb_true_iff, !andb_true_iff, !eqb_true. done.
Qed.


(** ** The adjacency list *)

Lemma emptyAdj_fold ns (m : gmap string (list string)) k :
  fold_left (fun adj n => <[Node.id n := []]> adj) ns m !! k
  = if decide (k ∈ map Node.id ns) then Some [] else m !! k.
Proof.
  revert m. induction ns as [|n ns IH]; intros m.
  - rewrite decide_False; [done|]. apply not_elem_of_nil.
  - cbn [fold_left map]. rewrite IH. destruct (decide (k ∈ map Node.id ns)) as [Hin|Hin].
    + rewrite decide_True; [done|]. by right.
    + destruct (decide (k = Node.id n)) as [->|Hne].
      * rewrite lookup_insert_eq, decide_True; [done|]. by left.
      * rewrite lookup_insert_ne by done. rewrite decide_False; [done|].
        by intros [?|?]%elem_of_cons.
Qed.

Lemma emptyAdj_lookup ns k :
  emptyAdj ns !! k = if decide (k ∈ map Node.id ns) then Some [] else None.
Proof. unfold emptyAdj. by rewrite emptyAdj_fold, lookup_empty. Qed.

Lemma push_adj_Done a b adj adj' :
  push_adj a b adj = Done adj' →
  is_Some (adj !! a) ∧
  ∀ u, adj' !! u = (fun l => l ++ (if decide (a = u) then [b] else [])) <$> adj !! u.
Proof.
  unfold push_adj. destruct (adj !! a) as [l|] eqn:Ha; [|done].
  intros [= <-]. split; [done|]. intros u. case_decide as Hu.
  - subst u. by rewrite lookup_insert_eq, Ha.
  - rewrite lookup_insert_ne by done. destruct (adj !! u); simpl; [|done].
    by rewrite app_nil_r.
Qed.

Lemma push_adj_ok a b adj :
  is_Some (adj !! a) → ∃ adj', push_adj a b adj = Done adj'.
Proof. intros [l Hl]. unfold push_adj. rewrite Hl. eauto. Qed.

Lemma addEdge_Done adj e adj' :
  addEdge (Done adj) e = Done adj' →
  is_Some (adj !! Edge.source e) ∧ is_Some (adj !! Edge.target e) ∧
  ∀ u, adj' !! u = (fun l => l ++ neighbours [e] u) <$> adj !! u.
Proof.
  unfold addEdge. simpl. intros H.
  apply bind_Done in H as (adj1 & H1 & H2).
  apply push_adj_Done in H1 as [Hs H1].
  apply push_adj_Done in H2 as [Ht H2].
  split; [done|]. split.
  - rewrite H1 in Ht. by apply fmap_is_Some in Ht.
  - intros u. rewrite H2, H1. destruct (adj !! u) as [l|]; simpl; [|done].
    unfold neighbours. simpl. by rewrite app_nil_r, app_assoc.
Qed.

Lemma addEdge_ok adj e :
  is_Some (adj !! Edge.source e) → is_Some (adj !! Edge.target e) →
  ∃ adj', addEdge (Done adj) e = Done adj'.
Proof.
  intros Hs Ht. unfold addEdge. simpl.
  destruct (push_adj_ok (Edge.source e) (Edge.target e) adj Hs) as [adj1 H1].
  rewrite H1. simpl. apply push_adj_ok.
  apply push_adj_Done in H1 as [_ H1]. rewrite H1. by apply fmap_is_Some.
Qed.


Lemma neighbours_app es1 es2 u :
  neighbours (es1 ++ es2) u = neighbours es1 u ++ neighbours es2 u.
Proof. unfold neighbours. by rewrite flat_map_app. Qed.


Lemma addEdges_Done es : ∀ adj adj',
  fold_left addEdge es (Done adj) = Done adj' →
  (∀ e, e ∈ es → is_Some (adj !! Edge.source e) ∧ is_Some (adj !! Edge.target e)) ∧
  ∀ u, adj' !! u = (fun l => l ++ neighbours es u) <$> adj !! u.
Proof.
  induction es as [|e es IH]; intros adj adj' H; cbn [fold_left] in H.
  - injection H as <-. split; [by intros e He; apply elem_of_nil in He|].
    intros u. destruct (adj !! u); simpl; [|done]. by rewrite app_nil_r.
  - destruct (addEdge (Done adj) e) as [adj1|err|] eqn:He.
    + apply addEdge_Done in He as (Hs & Ht & H1).
      apply IH in H as [Hin H2]. split.
      * intros e' [->|He']%elem_of_cons; [done|].
        destruct (Hin e' He') as [Hs' Ht'].
        rewrite !H1 in Hs', Ht'. by rewrite !fmap_is_Some in Hs', Ht'.
      * intros u. rewrite H2, H1. destruct (adj !! u) as [l|]; simpl; [|done].
        by rewrite app_nil_r, <- app_assoc.
    + rewrite fold_left_Thrown in H by done. discriminate.
    + rewrite fold_left_OutOfFuel in H by done. discriminate.
Qed.

Lemma addEdges_ok es : ∀ adj,
  (∀ e, e ∈ es → is_Some (adj !! Edge.source e) ∧ is_Some (adj !! Edge.target e)) →
  ∃ adj', fold_left addEdge es (Done adj) = Done adj'.
Proof.
  induction es as [|e es IH]; intros adj H; cbn [fold_left]; [eauto|].
  destruct (H e) as [Hs Ht]; [left|].
  destruct (addEdge_ok adj e Hs Ht) as [adj1 H1]. rewrite H1.
  apply IH. intros e' He'. destruct (H e') as [Hs' Ht']; [by right|].
  apply addEdge_Done in H1 as (_ & _ & H1). rewrite !H1. by rewrite !fmap_is_Some.
Qed.

Lemma elem_of_neighbours es u v :
  v ∈ neighbours es u ↔ ∃ e, e ∈ es ∧ joins u v e = true.
Proof.
  unfold neighbours. rewrite list_elem_of_In, in_flat_map. split.
  - intros (e & He & Hv). exists e. rewrite <- list_elem_of_In in He.
    split; [done|]. apply joins_spec.
    apply in_app_or in Hv as [Hv|Hv]; case_decide; simpl in Hv;
      try contradiction; destruct Hv as [<-|[]]; auto.
  - intros (e & He & Hj). exists e. rewrite <- list_elem_of_In. split; [done|].
    apply in_or_app. apply joins_spec in Hj as [[<- <-]|[<- <-]].
    + left. rewrite decide_True by done. by left.
    + right. rewrite decide_True by done. by left.
Qed.

Lemma elem_of_activeEdges g e :
  e ∈ activeEdges g ↔ e ∈ edges g ∧ Edge.isActive e = true.
Proof. unfold activeEdges. rewrite list_elem_of_filter. tauto. Qed.

(** What [buildAdjList] returns when it does not raise: a key for each node
    id, holding the neighbours along active edges. *)
Lemma buildAdjList_Done g adj :
  buildAdjList g = Done adj →
  (∀ e, e ∈ activeEdges g → Edge.source e ∈ nodeIds g ∧ Edge.target e ∈ nodeIds g) ∧
  ∀ u, adj !! u = if decide (u ∈ nodeIds g)
                  then Some (neighbours (activeEdges g) u) else None.
Proof.
  unfold buildAdjList. intros H. apply addEdges_Done in H as [Hin H]. split.
  - intros e He. destruct (Hin e He) as [Hs Ht].
    rewrite !emptyAdj_lookup in Hs, Ht. unfold nodeIds.
    repeat case_decide; try done; by destruct Hs, Ht.
  - intros u. rewrite H, emptyAdj_lookup. unfold nodeIds. by case_decide.
Qed.

Lemma buildAdjList_ok g :
  (∀ e, e ∈ activeEdges g → Edge.source e ∈ nodeIds g ∧ Edge.target e ∈ nodeIds g) →
  ∃ adj, buildAdjList g = Done adj.
Proof.
  intros H. apply addEdges_ok. intros e He. destruct (H e He) as [Hs Ht].
  rewrite !emptyAdj_lookup. unfold nodeIds in *. by rewrite !decide_True.
Qed.

Lemma wellFormed_active g :
  wellFormed g →
  ∀ e, e ∈ activeEdges g → Edge.source e ∈ nodeIds g ∧ Edge.target e ∈ nodeIds g.
Proof.
  intros H e He. apply elem_of_activeEdges in He as [He _].
  unfold wellFormed in H. rewrite Forall_forall in H. by apply H.
Qed.

Lemma linked_active g u v :
  linked (edges g) u v ↔ ∃ e, e ∈ activeEdges g ∧ joins u v e = true.
Proof.
  unfold linked. split.
  - intros (e & ? & ? & ?). exists e. by rewrite elem_of_activeEdges.
  - intros (e & [? ?]%elem_of_activeEdges & ?). eauto.
Qed.

Lemma buildAdjList_adjacency g adj : buildAdjList g = Done adj → adjacency g adj.
Proof.
  intros H. apply buildAdjList_Done in H as [Hin H]. split.
  - intros u. rewrite H. case_decide; split; intros Hu; done.
  - intros u ns v Hu Hv. rewrite H in Hu. case_decide; [|done].
    injection Hu as <-. apply linked_active. by apply elem_of_neighbours.
  - intros u v Hl. apply linked_active in Hl as (e & He & Hj).
    exists (neighbours (activeEdges g) u). split.
    + rewrite H, decide_True; [done|].
      destruct (Hin e He). apply joins_spec in Hj as [[<- _]|[_ <-]]; done.
    + apply elem_of_neighbours. eauto.
  - intros u ns v Hu Hv. rewrite H in Hu. case_decide; [|done].
    injection Hu as <-. apply elem_of_neighbours in Hv as (e & He & Hj).
    destruct (Hin e He). apply joins_spec in Hj as [[_ <-]|[<- _]]; done.
Qed.

(** ** [toggleEdge] *)

Lemma toggle_absent a b es :
  Forall (fun e => joins a b e = false) es →
  map (fun edge => if joins a b edge then flip edge else edge) es = es.
Proof.
  induction 1 as [|e es He _ IH]; [done|]. cbn [map]. by rewrite He, IH.
Qed.

(** C6, as amended: [toggleEdge] leaves the nodes alone and flips the
    [isActive] flag of every edge that joins the pair, in either order of
    its endpoints, and of no other edge; when no edge joins the pair the
    graph is unchanged.  Parallel edges joining the pair are all flipped. *)
Theorem toggleEdge_flips_every_match (a b : string) (st : State) :
  nodes (graph (toggleEdge a b st)) = nodes (graph st) ∧
  length (edges (graph (toggleEdge a b st))) = length (edges (graph st)) ∧
  (∀ i e, edges (graph st) !! i = Some e →
          edges (graph (toggleEdge a b st)) !! i
          = Some (if joins a b e then flip e else e)) ∧
  (Forall (fun e => joins a b e = false) (edges (graph st)) →
   graph (toggleEdge a b st) = graph st) ∧
  toggleEdge a b st = toggleEdge b a st.
Proof.
  split; [done|]. split; [apply length_map|]. split; [|split].
  - intros i e Hi. cbn. change (map ?f ?l) with (f <$> l).
    by rewrite list_lookup_fmap, Hi.
  - intros H. cbn. rewrite toggle_absent by done. by destruct (graph st).
  - unfold toggleEdge. do 2 f_equal. apply map_ext. intros e.
    by rewrite joins_sym.
Qed.

(** C6, as stated, fails on parallel edges: toggling the pair of
    [parallelGraph] flips both edges, where flipping the first match only
    leaves the second edge active. *)
Lemma toggleEdge_flips_parallel_edges :
  edges (graph (toggleEdge "A" "B" (showing parallelGraph)))
  = [link "A" "B" false; link "A" "B" false] ∧
  flipFirst "A" "B" (edges parallelGraph) = [link "A" "B" false; link "A" "B" true] ∧
  edges (graph (toggleEdge "A" "B" (showing parallelGraph)))
  ≠ flipFirst "A" "B" (edges parallelGraph).
Proof. split; [reflexivity|]. split; [reflexivity|]. discriminate. Qed.

(** ** The analysis of a path graph *)

(** C2: on the path graph A - B - C, whichever way its three nodes and two
    edges are listed (6 orders of the nodes, 8 listings of the edges),
    [runDFS] reports both edges as bridges and B as the only articulation
    point. *)
Theorem path_graph_analysis :
  length pathGraphs = 48 ∧
  Forall (fun g => ∃ st, runDFS 3 (showing g) = Done st ∧ pathGraphAnalysed g st)
         pathGraphs.
Proof.
  split; [reflexivity|]. unfold pathGraphs, pathEdgeListings. cbn.
  repeat apply Forall_cons_2; try apply Forall_nil_2;
    (eexists; split; [vm_compute; reflexivity|]);
    (split; [cbn; try reflexivity; apply Permutation_swap|]);
    (split; [repeat constructor|]);
    (split; [reflexivity|]);
    (split; [repeat constructor|]);
    split; reflexivity.
Qed.

(** ** The measure of the traversals *)

Lemma unvisited_cons k keys (visited : gmap string bool) :
  unvisited (k :: keys) visited
  = (if flag visited k then 0 else 1) + unvisited keys visited.
Proof.
  unfold unvisited. rewrite filter_cons. destruct (flag visited k) eqn:E.
  - by rewrite decide_False by done.
  - by rewrite decide_True by done.
Qed.

Lemma unvisited_le keys (visited : gmap string bool) :
  unvisited keys visited ≤ length keys.
Proof. apply length_filter. Qed.

Lemma unvisited_mark_le keys (visited : gmap string bool) v :
  unvisited keys (<[v := true]> visited) ≤ unvisited keys visited.
Proof.
  induction keys as [|k keys IH]; [done|]. rewrite !unvisited_cons.
  destruct (flag visited k) eqn:E.
  - rewrite flag_insert_mono by done. lia.
  - destruct (flag (<[v:=true]> visited) k); lia.
Qed.

Lemma unvisited_mark_lt keys (visited : gmap string bool) v :
  v ∈ keys → flag visited v = false →
  unvisited keys (<[v := true]> visited) < unvisited keys visited.
Proof.
  intros Hin Hv. induction keys as [|k keys IH]; [by apply elem_of_nil in Hin|].
  rewrite !unvisited_cons. apply elem_of_cons in Hin as [<-|Hin].
  - rewrite flag_insert_eq, Hv.
    pose proof (unvisited_mark_le keys visited v). lia.
  - specialize (IH Hin). destruct (flag visited k) eqn:E.
    + rewrite flag_insert_mono by done. lia.
    + destruct (flag (<[v:=true]> visited) k); lia.
Qed.

(** ** Branches of the predecessor map *)

Section branches.
Context (R : string → string → Prop).

Lemma branch_defined prev v p x :
  branch R prev v p → x ∈ p → is_Some (prev !! x).
Proof.
  induction 1 as [s Hs|u v p Hv _ IH Hnin _].
  - intros ->%list_elem_of_singleton. eauto.
  - intros [Hx| ->%list_elem_of_singleton]%elem_of_app; [by apply IH|eauto].
Qed.

Lemma branch_insert prev v p n o :
  branch R prev v p → prev !! n = None → branch R (<[n := o]> prev) v p.
Proof.
  intros H Hn. induction H as [s Hs|u v p Hv _ IH Hnin Huv].
  - apply branch_root. rewrite lookup_insert_ne; [done|]. congruence.
  - apply branch_step with u; try done.
    rewrite lookup_insert_ne; [done|]. congruence.
Qed.

Lemma branch_last prev v p : branch R prev v p → last p = Some v.
Proof. destruct 1; [done|]. apply last_snoc. Qed.

Lemma branch_head prev v p s :
  (∀ x, prev !! x = Some None → x = s) → branch R prev v p → head p = Some s.
Proof.
  intros Hroot. induction 1 as [r Hr|u v p _ _ IH _ _].
  - by rewrite (Hroot r Hr).
  - destruct p; [done|]. done.
Qed.

Lemma branch_NoDup prev v p : branch R prev v p → NoDup p.
Proof.
  induction 1 as [s _|u v p _ _ IH Hnin _].
  - apply NoDup_singleton.
  - apply NoDup_app. split; [done|]. split; [|apply NoDup_singleton].
    intros x Hx ->%list_elem_of_singleton. done.
Qed.

Lemma chain_snoc p u v :
  chain R p → last p = Some u → R u v → chain R (p ++ [v]).
Proof.
  induction p as [|a [|b p] IH]; intros Hc Hl Huv.
  - done.
  - injection Hl as ->. by split.
  - destruct Hc as [Hab Hc]. split; [done|]. by apply IH.
Qed.

Lemma branch_chain prev v p : branch R prev v p → chain R p.
Proof.
  induction 1 as [s _|u v p _ Hb IH _ Huv]; [done|].
  apply chain_snoc with u; [done| |done]. by eapply branch_last.
Qed.

(** [reconstruct] walks the branch: it returns nothing else, and it
    returns it when the fuel covers the length of the branch. *)
Lemma reconstruct_branch prev v p :
  branch R prev v p →
  ∀ fuel acc q, reconstruct prev fuel (Some v) acc = Done q → q = p ++ acc.
Proof.
  induction 1 as [s Hs|u v p Hv _ IH _ _]; intros [|fuel] acc q; try done.
  - cbn. rewrite Hs. destruct fuel; cbn; congruence.
  - cbn. rewrite Hv. intros Hq%IH. by rewrite <- app_assoc.
Qed.

Lemma reconstruct_total prev v p :
  branch R prev v p →
  ∀ fuel acc, length p ≤ fuel → reconstruct prev fuel (Some v) acc = Done (p ++ acc).
Proof.
  induction 1 as [s Hs|u v p Hv _ IH _ _]; intros [|fuel] acc Hf;
    try (rewrite ?length_app in Hf; cbn in Hf; lia).
  - cbn. rewrite Hs. by destruct fuel.
  - cbn. rewrite Hv. rewrite length_app in Hf. cbn in Hf.
    rewrite IH by lia. by rewrite <- app_assoc.
Qed.
End branches.

(** ** The loop of [runBFS] *)

Lemma enqueued_snoc log e :
  enqueued (log ++ [e])
  = enqueued log ++ match e with
                    | EvStartBFS s => [s]
                    | EvDiscovered n _ => [n]
                    | _ => []
                    end.
Proof. unfold enqueued. rewrite omap_app. by destruct e. Qed.

Lemma bfsInv_init g s : bfsInv g s (Bfs.init s).
Proof.
  split; cbn.
  - intros q ->%list_elem_of_singleton. apply flag_insert_eq.
  - intros v Hv. apply flag_insert_true in Hv as [<-|Hv]; [|done].
    exists [s]. apply branch_root. apply lookup_insert_eq.
  - intros v Hv. apply lookup_insert_None. split; [done|].
    intros <-. by rewrite flag_insert_eq in Hv.
  - intros v Hv. destruct (decide (s = v)) as [->|Hne]; [done|].
    by rewrite lookup_insert_ne in Hv.
  - apply (NoDup_singleton s).
  - intros v. change (enqueued [EvStartBFS s]) with [s].
    rewrite list_elem_of_singleton, flag_insert_true.
    split; [intros ->; by left|by intros [->|?]].
  - intros v [<-|Hv]%flag_insert_true; [by left|done].
Qed.

Lemma bfsNeighbor_inv g s current st v :
  linked (edges g) current v → v ∈ nodeIds g →
  flag (Bfs.visited st) current = true →
  bfsInv g s st → bfsInv g s (bfsNeighbor current st v).
Proof.
  intros Hl Hv Hc I. unfold bfsNeighbor.
  destruct (flag (Bfs.visited st) v) eqn:E; [done|]. cbn.
  pose proof (inv_dom _ _ _ I v E) as Hprev.
  split; cbn.
  - intros q [Hq| ->%list_elem_of_singleton]%elem_of_app.
    + apply flag_insert_mono. by apply (inv_queue _ _ _ I).
    + apply flag_insert_eq.
  - intros w [<-|Hw]%flag_insert_true.
    + destruct (inv_prev _ _ _ I current Hc) as [p Hp].
      exists (p ++ [v]). apply branch_step with current.
      * apply lookup_insert_eq.
      * by apply branch_insert.
      * intros Hin. apply (branch_defined _ _ _ _ _ Hp) in Hin.
        rewrite Hprev in Hin. by destruct Hin.
      * done.
    + destruct (inv_prev _ _ _ I w Hw) as [p Hp]. exists p.
      by apply branch_insert.
  - intros w Hw. destruct (decide (v = w)) as [->|Hne].
    + by rewrite flag_insert_eq in Hw.
    + rewrite flag_insert_ne in Hw by done. rewrite lookup_insert_ne by done.
      by apply (inv_dom _ _ _ I).
  - intros w Hw. destruct (decide (v = w)) as [->|Hne].
    + by rewrite lookup_insert_eq in Hw.
    + rewrite lookup_insert_ne in Hw by done. by apply (inv_root _ _ _ I).
  - rewrite enqueued_snoc. apply NoDup_app. split; [apply (inv_once _ _ _ I)|].
    split; [|apply NoDup_singleton].
    intros x Hx ->%list_elem_of_singleton.
    apply (inv_log _ _ _ I) in Hx. congruence.
  - intros w. rewrite enqueued_snoc, elem_of_app, list_elem_of_singleton.
    rewrite flag_insert_true, (inv_log _ _ _ I w). split; intros [?|?]; auto.
  - intros w [<-|Hw]%flag_insert_true; [by right|]. by apply (inv_keys _ _ _ I).
Qed.

Lemma bfsNeighbor_visited current st v w :
  flag (Bfs.visited st) w = true → flag (Bfs.visited (bfsNeighbor current st v)) w = true.
Proof.
  intros H. unfold bfsNeighbor. destruct (flag (Bfs.visited st) v); [done|].
  cbn. by apply flag_insert_mono.
Qed.

Lemma bfsNeighbors_inv g s current ns : ∀ st,
  (∀ v, v ∈ ns → linked (edges g) current v ∧ v ∈ nodeIds g) →
  flag (Bfs.visited st) current = true →
  bfsInv g s st → bfsInv g s (fold_left (bfsNeighbor current) ns st).
Proof.
  induction ns as [|v ns IH]; intros st Hns Hc I; [done|]. cbn [fold_left].
  apply IH.
  - intros w Hw. apply Hns. by right.
  - by apply bfsNeighbor_visited.
  - destruct (Hns v) as [? ?]; [left|]. by apply bfsNeighbor_inv.
Qed.

Lemma bfsNeighbor_measure keys current st v :
  v ∈ keys →
  length (Bfs.queue (bfsNeighbor current st v))
  + unvisited keys (Bfs.visited (bfsNeighbor current st v))
  ≤ length (Bfs.queue st) + unvisited keys (Bfs.visited st).
Proof.
  intros Hv. unfold bfsNeighbor. destruct (flag (Bfs.visited st) v) eqn:E; [done|].
  cbn. rewrite length_app. cbn.
  pose proof (unvisited_mark_lt keys (Bfs.visited st) v Hv E). lia.
Qed.

Lemma bfsNeighbors_measure keys current ns : ∀ st,
  (∀ v, v ∈ ns → v ∈ keys) →
  length (Bfs.queue (fold_left (bfsNeighbor current) ns st))
  + unvisited keys (Bfs.visited (fold_left (bfsNeighbor current) ns st))
  ≤ length (Bfs.queue st) + unvisited keys (Bfs.visited st).
Proof.
  induction ns as [|v ns IH]; intros st Hns; [done|]. cbn [fold_left].
  etrans; [apply IH|apply bfsNeighbor_measure].
  - intros w Hw. apply Hns. by right.
  - apply Hns. by left.
Qed.

Lemma bfsInv_step g s st queue' e :
  (∀ x, x ∈ queue' → x ∈ Bfs.queue st) → enqueued [e] = [] →
  bfsInv g s st →
  bfsInv g s (Bfs.mk (Bfs.visited st) queue' (Bfs.prev st) (Bfs.result st ++ [e])).
Proof.
  intros Hq He I.
  assert (enqueued (Bfs.result st ++ [e]) = enqueued (Bfs.result st)) as Hlog.
  { unfold enqueued in *. by rewrite omap_app, He, app_nil_r. }
  split; cbn; rewrite ?Hlog; try apply I.
  intros q Hin. apply (inv_queue _ _ _ I). by apply Hq.
Qed.

Section bfs_loop.
Context (g : Graph) (adj : gmap string (list string)) (s t : string).
Hypothesis Hadj : adjacency g adj.

Lemma bfsLoop_inv fuel : ∀ st st',
  bfsInv g s st → bfsLoop adj t fuel st = Done st' → bfsInv g s st'.
Proof.
  induction fuel as [|fuel IH]; intros st st' I H.
  - destruct st as [vis [|c rest] prev log]; cbn in H; [|done]. by injection H as <-.
  - destruct st as [vis [|c rest] prev log]; cbn in H; [by injection H as <-|].
    assert (flag vis c = true) as Hc by (apply (inv_queue _ _ _ I); left).
    assert (bfsInv g s (Bfs.mk vis rest prev (log ++ [EvVisiting c]))) as I1.
    { apply (bfsInv_step g s (Bfs.mk vis (c :: rest) prev log)); [|done|done].
      intros x Hx. by right. }
    destruct (String.eqb c t).
    + injection H as <-.
      by apply (bfsInv_step g s (Bfs.mk vis rest prev (log ++ [EvVisiting c]))).
    + destruct (adj !! c) as [ns|] eqn:Hns; [|done].
      apply IH in H; [done|]. apply bfsNeighbors_inv; [|done|done].
      intros v Hv. split.
      * by apply (adj_sound g adj Hadj c ns).
      * by apply (adj_closed g adj Hadj c ns).
Qed.

Lemma bfsLoop_total fuel : ∀ st,
  s ∈ nodeIds g → bfsInv g s st →
  length (Bfs.queue st) + unvisited (nodeIds g) (Bfs.visited st) ≤ fuel →
  ∃ st', bfsLoop adj t fuel st = Done st'.
Proof.
  induction fuel as [|fuel IH]; intros st Hs I Hm.
  - destruct st as [vis [|c rest] prev log]; cbn in *; [eauto|lia].
  - destruct st as [vis [|c rest] prev log]; cbn in *; [eauto|].
    assert (flag vis c = true) as Hc by (apply (inv_queue _ _ _ I); left).
    assert (bfsInv g s (Bfs.mk vis rest prev (log ++ [EvVisiting c]))) as I1.
    { apply (bfsInv_step g s (Bfs.mk vis (c :: rest) prev log)); [|done|done].
      intros x Hx. by right. }
    destruct (String.eqb c t); [eauto|].
    assert (c ∈ nodeIds g) as Hkey.
    { destruct (inv_keys _ _ _ I c Hc) as [->|?]; done. }
    apply (adj_keys g adj Hadj) in Hkey as [ns Hns]. rewrite Hns.
    assert (∀ v, v ∈ ns → v ∈ nodeIds g) as Hclosed.
    { intros v Hv. by apply (adj_closed g adj Hadj c ns). }
    apply IH; [done| |].
    + apply bfsNeighbors_inv; [|done|done].
      intros v Hv. split; [by apply (adj_sound g adj Hadj c ns)|auto].
    + etrans; [by apply bfsNeighbors_measure|]. cbn. lia.
Qed.

(** A node that is marked visited is the source or a node of the graph,
    and the branch to it stays within such nodes. *)
Lemma branch_short st v p :
  s ∈ nodeIds g → bfsInv g s st →
  branch (linked (edges g)) (Bfs.prev st) v p → length p ≤ length (nodes g).
Proof.
  intros Hs I Hp. unfold nodeIds in Hs.
  rewrite <- (length_map Node.id (nodes g)).
  apply submseteq_length, NoDup_submseteq; [by eapply branch_NoDup|].
  intros x Hx. apply (branch_defined _ _ _ _ _ Hp) in Hx as [o Hx].
  destruct (flag (Bfs.visited st) x) eqn:E.
  - destruct (inv_keys _ _ _ I x E) as [->|?]; done.
  - rewrite (inv_dom _ _ _ I x E) in Hx. done.
Qed.

(** What the search returns is a path of the graph from [s] to [t]. *)
Lemma bfsSearch_path fuel p log :
  bfsSearch adj fuel s t = Done (Found p log) →
  head p = Some s ∧ last p = Some t ∧ NoDup p ∧ chain (linked (edges g)) p.
Proof.
  unfold bfsSearch. intros H. apply bind_Done in H as (st & Hloop & H).
  apply bfsLoop_inv in Hloop; [|apply bfsInv_init].
  destruct (flag (Bfs.visited st) t) eqn:Ht; [|done].
  apply bind_Done in H as (q & Hq & H). injection H as <- _.
  destruct (inv_prev _ _ _ Hloop t Ht) as [p Hp].
  apply (reconstruct_branch _ _ _ _ Hp) in Hq. rewrite app_nil_r in Hq. subst q.
  split; [|split; [|split]].
  - eapply branch_head; [|done]. apply (inv_root _ _ _ Hloop).
  - by eapply branch_last.
  - by eapply branch_NoDup.
  - by eapply branch_chain.
Qed.

(** With one unit of fuel for each node of the graph the search ends, and
    it put no node on the queue twice. *)
(** The loop alone: it ends, and what it has put on the queue are nodes of
    the graph, each put there once. *)
Lemma bfsLoop_enqueues fuel :
  s ∈ nodeIds g → length (nodes g) ≤ fuel →
  ∃ st, bfsLoop adj t fuel (Bfs.init s) = Done st ∧
        NoDup (enqueued (Bfs.result st)) ∧
        ∀ v, v ∈ enqueued (Bfs.result st) → v ∈ nodeIds g.
Proof.
  intros Hs Hfuel.
  destruct (bfsLoop_total fuel (Bfs.init s) Hs (bfsInv_init g s)) as [st Hst].
  { cbn. pose proof (unvisited_mark_lt (nodeIds g) ∅ s Hs eq_refl).
    pose proof (unvisited_le (nodeIds g) ∅). unfold nodeIds in *.
    rewrite length_map in *. lia. }
  exists st. split; [done|].
  pose proof (bfsLoop_inv fuel _ _ (bfsInv_init g s) Hst) as I.
  split; [apply (inv_once _ _ _ I)|].
  intros v Hv%(inv_log _ _ _ I). destruct (inv_keys _ _ _ I v Hv) as [->|?]; done.
Qed.

Lemma bfsSearch_total fuel :
  s ∈ nodeIds g → length (nodes g) ≤ fuel →
  ∃ r, bfsSearch adj fuel s t = Done r ∧
       NoDup (enqueued (logOf r)) ∧
       (∀ v, v ∈ enqueued (logOf r) → v ∈ nodeIds g) ∧
       (t ∉ nodeIds g → ∃ log, r = NotFound log).
Proof.
  intros Hs Hfuel. unfold bfsSearch.
  destruct (bfsLoop_total fuel (Bfs.init s) Hs (bfsInv_init g s)) as [st Hst].
  { cbn. pose proof (unvisited_mark_lt (nodeIds g) ∅ s Hs eq_refl).
    pose proof (unvisited_le (nodeIds g) ∅). unfold nodeIds in *.
    rewrite length_map in *. lia. }
  rewrite Hst. cbn.
  pose proof (bfsLoop_inv fuel _ _ (bfsInv_init g s) Hst) as I.
  assert (∀ v, v ∈ enqueued (Bfs.result st) → v ∈ nodeIds g) as Hkeys.
  { intros v Hv%(inv_log _ _ _ I). destruct (inv_keys _ _ _ I v Hv) as [->|?]; done. }
  destruct (flag (Bfs.visited st) t) eqn:Ht.
  - destruct (inv_prev _ _ _ I t Ht) as [p Hp].
    rewrite (reconstruct_total _ _ _ _ Hp).
    2:{ etrans; [by eapply branch_short|done]. }
    cbn. eexists. split; [done|]. cbn. rewrite enqueued_snoc, app_nil_r.
    split; [apply (inv_once _ _ _ I)|]. split; [done|].
    intros Hnot. destruct (inv_keys _ _ _ I t Ht) as [->|?]; done.
  - eexists. split; [done|]. cbn. rewrite enqueued_snoc, app_nil_r.
    split; [apply (inv_once _ _ _ I)|]. split; [done|]. eauto.
Qed.
End bfs_loop.

(** The search from a node to itself, whatever the adjacency list. *)
Lemma bfsSearch_self adj fuel x :
  0 < fuel →
  bfsSearch adj fuel x x
  = Done (Found [x] [EvStartBFS x; EvVisiting x; EvFoundTarget x; EvShortestPath [x]]).
Proof.
  destruct fuel as [|fuel]; [lia|]. intros _. unfold bfsSearch. cbn.
  rewrite String.eqb_refl. cbn. rewrite flag_insert_eq. cbn.
  rewrite lookup_insert_eq. by destruct fuel.
Qed.


Lemma wellFormed_buildAdjList g :
  wellFormed g → ∃ adj, buildAdjList g = Done adj ∧ adjacency g adj.
Proof.
  intros Hwf. destruct (buildAdjList_ok g (wellFormed_active g Hwf)) as [adj H].
  exists adj. split; [done|]. by apply buildAdjList_adjacency.
Qed.

Lemma initialGraph_wellFormed : wellFormed initialGraph.
Proof. apply (bool_decide_unpack _). by vm_compute. Defined.

(** The nodes of the initial graph are named ["1"] to ["13"]. *)
Lemma initialGraph_ordinary : ordinaryIds initialGraph.
Proof. apply (bool_decide_unpack _). by vm_compute. Defined.

(** [toggleEdge] leaves the nodes as they are. *)
Lemma cutGraph_ordinary : ordinaryIds cutGraph.
Proof. apply (bool_decide_unpack _). by vm_compute. Defined.

(** [runBFS] is the search once two non-empty ids are selected. *)
Lemma runBFS_selected fuel st s t :
  selectedNode st = Some s → targetNode st = Some t → s ≠ "" → t ≠ "" →
  runBFS fuel st
  = r ← findShortestPath fuel (graph st) s t;
    match r with
    | Found p log => Done (setBfsResult st p log)
    | NotFound log => Done (setBfsResult st [] log)
    end.
Proof.
  intros Hs Ht Hs' Ht'. unfold runBFS. rewrite Hs, Ht. cbn.
  apply eqb_false in Hs', Ht'. by rewrite Hs', Ht'.
Qed.

(** ** The shortest-path search *)

(** Whenever the search returns a path, on a graph whose nodes have
    ordinary ids and for an ordinary source and target (ids of nodes of the
    graph or not), the path starts at the source, ends at the target,
    repeats no node, and every two consecutive nodes of it are joined by an
    active edge of the graph.  (At a target named after a member of
    [Object.prototype] the handler reads the inherited member of [visited]
    and of [prev], which the maps of the embedding do not hold.) *)
Theorem shortest_path_is_a_path (g : Graph) (s t : string) (fuel : nat)
    (p : list string) (log : list Event) :
  ordinaryIds g → ordinary s → ordinary t →
  findShortestPath fuel g s t = Done (Found p log) →
  head p = Some s ∧ last p = Some t ∧ NoDup p ∧ chain (linked (edges g)) p.
Proof.
  unfold findShortestPath. intros _ _ _ H. apply bind_Done in H as (adj & Hadj & H).
  apply buildAdjList_adjacency in Hadj. by eapply bfsSearch_path.
Qed.

Lemma shortest_path_is_a_path_witness :
  ordinaryIds initialGraph ∧ ordinary "13" ∧ ordinary "7" ∧
  findShortestPath 13 initialGraph "13" "7"
  = Done (Found ["13"; "12"; "11"; "1"; "2"; "3"; "4"; "7"]
            [EvStartBFS "13"; EvVisiting "13"; EvDiscovered "12" "13";
             EvVisiting "12"; EvDiscovered "11" "12"; EvVisiting "11";
             EvDiscovered "1" "11"; EvVisiting "1"; EvDiscovered "2" "1";
             EvVisiting "2"; EvDiscovered "3" "2"; EvDiscovered "8" "2";
             EvVisiting "3"; EvDiscovered "4" "3"; EvDiscovered "5" "3";
             EvVisiting "8"; EvDiscovered "9" "8"; EvDiscovered "10" "8";
             EvVisiting "4"; EvDiscovered "7" "4"; EvVisiting "5";
             EvDiscovered "6" "5"; EvVisiting "9"; EvVisiting "10";
             EvVisiting "7"; EvFoundTarget "7";
             EvShortestPath ["13"; "12"; "11"; "1"; "2"; "3"; "4"; "7"]]) ∧
  head ["13"; "12"; "11"; "1"; "2"; "3"; "4"; "7"] = Some "13" ∧
  last ["13"; "12"; "11"; "1"; "2"; "3"; "4"; "7"] = Some "7" ∧
  NoDup ["13"; "12"; "11"; "1"; "2"; "3"; "4"; "7"] ∧
  chain (linked (edges initialGraph)) ["13"; "12"; "11"; "1"; "2"; "3"; "4"; "7"].
Proof.
  assert (ordinary "13") as Hs by (apply (bool_decide_unpack _); by vm_compute).
  assert (ordinary "7") as Ht by (apply (bool_decide_unpack _); by vm_compute).
  split; [exact initialGraph_ordinary|]. split; [exact Hs|]. split; [exact Ht|].
  split; [vm_compute; reflexivity|].
  eapply (shortest_path_is_a_path initialGraph "13" "7" 13
            _ _ initialGraph_ordinary Hs Ht).
  vm_compute; reflexivity.
Defined.

(** C10: on a graph whose edges all name nodes of the graph, searching
    from the id of a node, for any target, the adjacency list is built and
    the loop of the search ends within one unit of fuel for each node,
    without a [TypeError] (no adjacency list is looked up at a missing key),
    and the nodes it has put on the queue (one log line for each
    [queue.push]) are nodes of the graph, each put there once.  (A node
    named after a member of [Object.prototype] reads as visited in the
    handler before it is written: the handler puts it on the queue as the
    source only, so it puts no more nodes on the queue than the loop
    here, and none twice.) *)
Theorem bfs_enqueues_once_and_terminates (g : Graph) (s t : string) (fuel : nat) :
  wellFormed g → s ∈ nodeIds g → length (nodes g) ≤ fuel →
  ∃ adj st, buildAdjList g = Done adj ∧
            bfsLoop adj t fuel (Bfs.init s) = Done st ∧
            NoDup (enqueued (Bfs.result st)) ∧
            ∀ v, v ∈ enqueued (Bfs.result st) → v ∈ nodeIds g.
Proof.
  intros Hwf Hs Hfuel. destruct (wellFormed_buildAdjList g Hwf) as (adj & Hb & Hadj).
  destruct (bfsLoop_enqueues g adj s t Hadj fuel Hs Hfuel) as (st & Hst & Hnd & Hin).
  by exists adj, st.
Qed.

Lemma bfs_enqueues_once_and_terminates_witness :
  wellFormed initialGraph ∧ "13" ∈ nodeIds initialGraph ∧
  length (nodes initialGraph) ≤ 13 ∧
  ∃ adj st, buildAdjList initialGraph = Done adj ∧
            bfsLoop adj "7" 13 (Bfs.init "13") = Done st ∧
            NoDup (enqueued (Bfs.result st)) ∧
            ∀ v, v ∈ enqueued (Bfs.result st) → v ∈ nodeIds initialGraph.
Proof.
  assert ("13" ∈ nodeIds initialGraph) as Hs
    by (apply (bool_decide_unpack _); by vm_compute).
  assert (length (nodes initialGraph) ≤ 13) as Hf by (vm_compute; lia).
  split; [exact initialGraph_wellFormed|]. split; [exact Hs|]. split; [exact Hf|].
  exact (bfs_enqueues_once_and_terminates initialGraph "13" "7" 13
           initialGraph_wellFormed Hs Hf).
Defined.


(** The handler itself, when the id selected twice is not the empty string
    (which its guard takes for no selection). *)
Lemma runBFS_to_self (st : State) (x : string) (fuel : nat) :
  wellFormed (graph st) → 0 < fuel → x ≠ "" →
  selectedNode st = Some x → targetNode st = Some x →
  ∃ st', runBFS fuel st = Done st' ∧ path st' = [x].
Proof.
  intros Hwf Hfuel Hx Hs Ht. rewrite (runBFS_selected fuel st x x) by done.
  destruct (wellFormed_buildAdjList (graph st) Hwf) as (adj & Hb & _).
  unfold findShortestPath. rewrite Hb. cbn. rewrite bfsSearch_self by done.
  cbn. eauto.
Qed.





(** ** The reachability loop of [recoverNetwork] *)

Lemma reachNeighbor_visited acc v w :
  flag acc.1 w = true → flag (reachNeighbor acc v).1 w = true.
Proof.
  intros H. unfold reachNeighbor. destruct (flag acc.1 v); [done|].
  cbn. by apply flag_insert_mono.
Qed.

Lemma reachNeighbor_marks acc v : flag (reachNeighbor acc v).1 v = true.
Proof.
  unfold reachNeighbor. destruct (flag acc.1 v) eqn:E; [done|].
  cbn. apply flag_insert_eq.
Qed.

Lemma reachNeighbor_queue acc v q :
  q ∈ (reachNeighbor acc v).2 ↔ q ∈ acc.2 ∨ (q = v ∧ flag acc.1 v = false).
Proof.
  unfold reachNeighbor. destruct (flag acc.1 v) eqn:E; cbn.
  - split; [by left|by intros [?|[_ ?]]].
  - rewrite elem_of_app, list_elem_of_singleton. split; intros [?|?]; auto.
    right. by destruct H.
Qed.

Lemma reachNeighbor_new acc v w :
  flag (reachNeighbor acc v).1 w = true →
  flag acc.1 w = true ∨ (w = v ∧ w ∈ (reachNeighbor acc v).2).
Proof.
  unfold reachNeighbor. destruct (flag acc.1 v) eqn:E; cbn; [by left|].
  intros [<-|?]%flag_insert_true; [|by left].
  right. split; [done|]. apply elem_of_app. right. by left.
Qed.

Lemma reachNeighbors_visited ns : ∀ acc w,
  flag acc.1 w = true → flag (fold_left reachNeighbor ns acc).1 w = true.
Proof.
  induction ns as [|v ns IH]; intros acc w H; [done|]. cbn [fold_left].
  by apply IH, reachNeighbor_visited.
Qed.

Lemma reachNeighbors_marks ns : ∀ acc v,
  v ∈ ns → flag (fold_left reachNeighbor ns acc).1 v = true.
Proof.
  induction ns as [|x ns IH]; intros acc v Hv; [by apply elem_of_nil in Hv|].
  cbn [fold_left]. apply elem_of_cons in Hv as [->|Hv]; [|by apply IH].
  apply reachNeighbors_visited, reachNeighbor_marks.
Qed.

Lemma reachNeighbors_queue ns : ∀ acc q,
  q ∈ acc.2 → q ∈ (fold_left reachNeighbor ns acc).2.
Proof.
  induction ns as [|x ns IH]; intros acc q Hq; [done|]. cbn [fold_left].
  apply IH, reachNeighbor_queue. by left.
Qed.

Lemma reachNeighbors_new ns : ∀ acc w,
  flag (fold_left reachNeighbor ns acc).1 w = true →
  flag acc.1 w = true ∨ w ∈ (fold_left reachNeighbor ns acc).2.
Proof.
  induction ns as [|x ns IH]; intros acc w H; [by left|]. cbn [fold_left] in *.
  apply IH in H as [H|H]; [|by right].
  apply reachNeighbor_new in H as [H|[-> H]]; [by left|].
  right. by apply reachNeighbors_queue.
Qed.

Lemma reachNeighbor_measure keys acc v :
  v ∈ keys →
  length (reachNeighbor acc v).2 + unvisited keys (reachNeighbor acc v).1
  ≤ length acc.2 + unvisited keys acc.1.
Proof.
  intros Hv. unfold reachNeighbor. destruct (flag acc.1 v) eqn:E; [done|].
  cbn. rewrite length_app. cbn.
  pose proof (unvisited_mark_lt keys acc.1 v Hv E). lia.
Qed.

Lemma reachNeighbors_measure keys ns : ∀ acc,
  (∀ v, v ∈ ns → v ∈ keys) →
  length (fold_left reachNeighbor ns acc).2
  + unvisited keys (fold_left reachNeighbor ns acc).1
  ≤ length acc.2 + unvisited keys acc.1.
Proof.
  induction ns as [|v ns IH]; intros acc Hns; [done|]. cbn [fold_left].
  etrans; [apply IH|apply reachNeighbor_measure].
  - intros w Hw. apply Hns. by right.
  - apply Hns. by left.
Qed.

Section reach_loop.
Context (g : Graph) (adj : gmap string (list string)) (src : string).
Hypothesis Hadj : adjacency g adj.

Lemma reachInv_init : src ∈ nodeIds g → reachInv g adj src (<[src := true]> ∅) [src].
Proof.
  intros Hsrc. split.
  - apply flag_insert_eq.
  - intros q ->%list_elem_of_singleton. apply flag_insert_eq.
  - intros v [<-|?]%flag_insert_true; [apply reach_refl|done].
  - intros v [<-|?]%flag_insert_true; done.
  - intros u ns v [<-|?]%flag_insert_true Hq; [|done]. destruct Hq. by left.
Qed.

(** One turn of the loop: [current] leaves the queue and its neighbours
    [ns] are visited. *)
Lemma reachInv_expand visited current rest ns :
  adj !! current = Some ns →
  reachInv g adj src visited (current :: rest) →
  reachInv g adj src (fold_left reachNeighbor ns (visited, rest)).1
                     (fold_left reachNeighbor ns (visited, rest)).2.
Proof.
  intros Hns I.
  assert (flag visited current = true) as Hc by (apply (reach_queue _ _ _ _ _ I); left).
  assert (∀ ms acc,
    (∀ v, v ∈ ms → v ∈ ns) →
    (∀ q, q ∈ acc.2 → flag acc.1 q = true) →
    (∀ v, flag acc.1 v = true → reachable (edges g) src v ∧ v ∈ nodeIds g) →
    flag acc.1 current = true →
    (∀ q, q ∈ (fold_left reachNeighbor ms acc).2 →
          flag (fold_left reachNeighbor ms acc).1 q = true) ∧
    (∀ v, flag (fold_left reachNeighbor ms acc).1 v = true →
          reachable (edges g) src v ∧ v ∈ nodeIds g)) as Hfold.
  { induction ms as [|x ms IH]; intros acc Hms Hq Hs Hcur; [done|].
    cbn [fold_left]. apply IH.
    - intros v Hv. apply Hms. by right.
    - intros q [Hin|[-> _]]%reachNeighbor_queue.
      + by apply reachNeighbor_visited, Hq.
      + apply reachNeighbor_marks.
    - intros v [Hv|[-> _]]%reachNeighbor_new; [by apply Hs|].
      assert (x ∈ ns) as Hx by (apply Hms; by left). split.
      + apply reach_step with current; [by apply Hs|].
        by apply (adj_sound g adj Hadj current ns).
      + by apply (adj_closed g adj Hadj current ns).
    - by apply reachNeighbor_visited. }
  destruct (Hfold ns (visited, rest)) as [Hq Hs]; try done.
  { intros q Hq. apply (reach_queue _ _ _ _ _ I). by right. }
  { intros v Hv. split; [by apply (reach_sound _ _ _ _ _ I)|by apply (reach_keys _ _ _ _ _ I)]. }
  split; [|done|apply Hs|apply Hs|].
  { apply reachNeighbors_visited, (reach_src _ _ _ _ _ I). }
  intros u ms v Hu Hnq Hms Hv.
  destruct (decide (u = current)) as [->|Hne].
  - rewrite Hns in Hms. injection Hms as <-. by apply reachNeighbors_marks.
  - apply reachNeighbors_visited.
    destruct (reachNeighbors_new _ _ _ Hu) as [Hu'|Hin]; [|done].
    apply (reach_done _ _ _ _ _ I u ms v); [done| |done|done].
    intros [?|Hin]%elem_of_cons; [done|].
    apply Hnq. by apply reachNeighbors_queue.
Qed.

Lemma reachLoop_inv fuel : ∀ visited queue visited',
  reachInv g adj src visited queue →
  reachLoop adj fuel visited queue = Done visited' →
  reachInv g adj src visited' [].
Proof.
  induction fuel as [|fuel IH]; intros visited [|c rest] visited' I H; cbn in H;
    try done; try (by injection H as <-).
  destruct (adj !! c) as [ns|] eqn:Hns; [|done].
  apply IH in H; [done|]. by apply (reachInv_expand visited c rest ns).
Qed.

Lemma reachLoop_total fuel : ∀ visited queue,
  reachInv g adj src visited queue →
  length queue + unvisited (nodeIds g) visited ≤ fuel →
  ∃ visited', reachLoop adj fuel visited queue = Done visited'.
Proof.
  induction fuel as [|fuel IH]; intros visited [|c rest] I Hm; cbn in *;
    eauto; try lia.
  assert (c ∈ nodeIds g) as Hkey.
  { apply (reach_keys _ _ _ _ _ I), (reach_queue _ _ _ _ _ I). by left. }
  apply (adj_keys g adj Hadj) in Hkey as [ns Hns]. rewrite Hns.
  apply IH; [by apply (reachInv_expand visited c rest ns)|].
  etrans; [apply reachNeighbors_measure|cbn; lia].
  intros v Hv. by apply (adj_closed g adj Hadj c ns).
Qed.

(** When the loop ends, [visited] is the set of the nodes that can be
    reached from [src] along active edges. *)
Lemma reachInv_final visited v :
  reachInv g adj src visited [] →
  flag visited v = true ↔ reachable (edges g) src v.
Proof.
  intros I. split; [apply (reach_sound _ _ _ _ _ I)|].
  induction 1 as [|v w _ IH Hl]; [apply (reach_src _ _ _ _ _ I)|].
  apply (adj_complete g adj Hadj) in Hl as (ns & Hns & Hw).
  apply (reach_done _ _ _ _ _ I v ns w); [done| |done|done]. apply not_elem_of_nil.
Qed.
End reach_loop.

(** ** The recovery planner *)

Lemma linked_app_l es es' u v : linked es u v → linked (es ++ es') u v.
Proof. intros (e & ? & ? & ?). exists e. rewrite elem_of_app. auto. Qed.

Lemma reachable_app_l es es' u v : reachable es u v → reachable (es ++ es') u v.
Proof.
  induction 1 as [|v w _ IH Hl]; [apply reach_refl|].
  apply reach_step with v; [done|]. by apply linked_app_l.
Qed.

Lemma firstNodeId_Done g i : firstNodeId g = Done i → i ∈ nodeIds g.
Proof.
  unfold firstNodeId, nodeIds. destruct (nodes g) as [|n ns]; [done|].
  intros [= <-]. by left.
Qed.

Lemma sourceNode_Done g src : sourceNode g = Done src → src ∈ nodeIds g.
Proof.
  unfold sourceNode.
  destruct (find _ (nodes g)) as [n|] eqn:Hfind; [|apply firstNodeId_Done].
  destruct (String.eqb (Node.id n) ""); [apply firstNodeId_Done|].
  intros [= <-]. apply find_some in Hfind as [Hin _].
  apply list_elem_of_In in Hin. unfold nodeIds.
  by apply (list_elem_of_fmap_2 Node.id).
Qed.

Lemma sourceNode_ok g : nodes g ≠ [] → ∃ src, sourceNode g = Done src.
Proof.
  intros Hne. unfold sourceNode, firstNodeId.
  destruct (nodes g) as [|n ns] eqn:E; [done|].
  destruct (find _ (n :: ns)) as [h|]; [|eauto].
  destruct (String.eqb (Node.id h) ""); eauto.
Qed.

Lemma closer_in d l : ∀ acc,
  (fold_left (closer d) l acc).1 = acc.1 ∨ (fold_left (closer d) l acc).1 ∈ l.
Proof.
  induction l as [|c l IH]; intros acc; [by left|]. cbn [fold_left].
  destruct (IH (closer d acc c)) as [->|Hin]; [|right; by right].
  unfold closer. destruct (PrimFloat.ltb _ _); [right; by left|by left].
Qed.

Lemma closestNode_Done connected d c :
  closestNode connected d = Done c → c ∈ connected.
Proof.
  unfold closestNode. destruct connected as [|first rest]; [done|].
  intros H.
  assert (c = (fold_left (closer d) (first :: rest) (first, MAX_VALUE)).1) as ->
    by congruence.
  destruct (closer_in d (first :: rest) (first, MAX_VALUE)) as [E|E]; [|done].
  rewrite E. by left.
Qed.

Lemma reconnect_Done connected ds : ∀ es log,
  reconnect connected ds = Done (es, log) →
  Forall2 (fun d e => ∃ c, c ∈ connected ∧ e = recoveryEdge d c) ds es.
Proof.
  induction ds as [|d ds IH]; intros es log H; cbn in H.
  - injection H as <- <-. constructor.
  - apply bind_Done in H as (c & Hc & H).
    apply bind_Done in H as ([es' log'] & Hrest & H). injection H as <- <-.
    constructor; [|by eapply IH].
    exists c. split; [by eapply closestNode_Done|done].
Qed.

Lemma reconnect_ok connected ds :
  connected ≠ [] → ∃ es log, reconnect connected ds = Done (es, log).
Proof.
  intros Hne. induction ds as [|d ds (es & log & IH)]; cbn; [eauto|].
  destruct connected as [|first rest]; [done|]. cbn in *. rewrite IH. cbn. eauto.
Qed.

(** What [planRecovery] has done when it returns a plan. *)
Lemma planRecovery_Done fuel g p : planRecovery fuel g = Done p → reconnected g p.
Proof.
  unfold planRecovery. intros H.
  apply bind_Done in H as (adj & Hadj & H). apply buildAdjList_adjacency in Hadj.
  apply bind_Done in H as (src & Hsrc & H).
  apply bind_Done in H as (visited & Hloop & H).
  pose proof (sourceNode_Done g src Hsrc) as Hin.
  apply (reachLoop_inv g adj src Hadj) in Hloop; [|by apply reachInv_init].
  pose proof (fun v => reachInv_final g adj src Hadj visited v Hloop) as Hreach.
  set (ds := filter (fun n => flag visited (Node.id n) = false) (nodes g)) in *.
  destruct (length ds =? 0) eqn:Hlen.
  - injection H as <-. apply Nat.eqb_eq, nil_length_inv in Hlen.
    split; cbn; [done|done|done|rewrite Hlen; constructor|].
    intros n Hn. rewrite app_nil_r. apply Hreach.
    destruct (flag visited (Node.id n)) eqn:E; [done|].
    assert (n ∈ ds) as Hds by (by apply list_elem_of_filter).
    rewrite Hlen in Hds. by apply elem_of_nil in Hds.
  - apply bind_Done in H as ([es log] & Hes & H). injection H as <-.
    apply reconnect_Done in Hes.
    assert (Forall2 (fun d e =>
              Edge.source e = Node.id d ∧ Edge.isActive e = true ∧
              Edge.isRecovery e = Some true ∧
              ∃ c, c ∈ nodes g ∧ Edge.target e = Node.id c ∧
                   flag visited (Node.id c) = true) ds es) as Hedges.
    { eapply Forall2_impl; [exact Hes|]. intros d e (c & Hc & ->).
      apply list_elem_of_filter in Hc as [Hc ?]. cbn. eauto 10. }
    split; cbn; [done|done|done|done|].
    intros n Hn. destruct (flag visited (Node.id n)) eqn:E.
    + apply reachable_app_l. by apply Hreach.
    + assert (n ∈ ds) as Hds by (by apply list_elem_of_filter).
      apply list_elem_of_lookup in Hds as [i Hi].
      destruct (Forall2_lookup_l _ _ _ _ _ Hedges Hi)
        as (e & He & Hs & Ha & _ & c & _ & Ht & Hc).
      apply reach_step with (Node.id c).
      * apply reachable_app_l. by apply Hreach.
      * exists e. split; [|split; [done|]].
        -- apply elem_of_app. right. by eapply list_elem_of_lookup_2.
        -- apply joins_spec. by right.
Qed.

Lemma planRecovery_ok fuel g :
  wellFormed g → nodes g ≠ [] → length (nodes g) ≤ fuel →
  ∃ p, planRecovery fuel g = Done p.
Proof.
  intros Hwf Hne Hfuel. unfold planRecovery.
  destruct (wellFormed_buildAdjList g Hwf) as (adj & -> & Hadj).
  destruct (sourceNode_ok g Hne) as [src Hsrc]. rewrite Hsrc. cbn.
  pose proof (sourceNode_Done g src Hsrc) as Hin.
  pose proof (reachInv_init g adj src Hin) as I0.
  destruct (reachLoop_total g adj src Hadj fuel _ _ I0) as [visited Hloop].
  { cbn. pose proof (unvisited_mark_lt (nodeIds g) ∅ src Hin eq_refl).
    pose proof (unvisited_le (nodeIds g) ∅). unfold nodeIds in *.
    rewrite length_map in *. lia. }
  rewrite Hloop. cbn. destruct (length _ =? 0); [eauto|].
  apply (reachLoop_inv g adj src Hadj) in Hloop; [|done].
  destruct (reconnect_ok
              (filter (fun n => flag visited (Node.id n) = true) (nodes g))
              (filter (fun n => flag visited (Node.id n) = false) (nodes g)))
    as (es & log & ->); [|cbn; eauto].
  unfold nodeIds in Hin. apply list_elem_of_fmap in Hin as (n & -> & Hn).
  intros Hnil.
  assert (n ∈ filter (fun n => flag visited (Node.id n) = true) (nodes g)) as Hf.
  { apply list_elem_of_filter. split; [|done]. apply (reach_src _ _ _ _ _ Hloop). }
  rewrite Hnil in Hf. by apply elem_of_nil in Hf.
Qed.

(** On a graph with at least one node whose edges all name nodes of the
    graph and whose nodes have ordinary ids, the planner returns a plan
    within one unit of fuel for each node; the set it computed is the set
    of the nodes reachable from its hub along the active edges of the graph
    as it was; each recovery edge is
    active and goes from a node outside that set to a node inside it; and
    once the recovery edges are added to the edges of the graph, every node
    can be reached from the hub. *)
Theorem recovery_reconnects_every_node (g : Graph) (fuel : nat) :
  wellFormed g → ordinaryIds g → nodes g ≠ [] → length (nodes g) ≤ fuel →
  ∃ p, planRecovery fuel g = Done p ∧ reconnected g p.
Proof.
  intros Hwf _ Hne Hfuel. destruct (planRecovery_ok fuel g Hwf Hne Hfuel) as [p Hp].
  exists p. split; [done|]. by eapply planRecovery_Done.
Qed.

Lemma recovery_reconnects_every_node_witness :
  wellFormed cutGraph ∧ ordinaryIds cutGraph ∧ nodes cutGraph ≠ [] ∧
  length (nodes cutGraph) ≤ 13 ∧
  ∃ p, planRecovery 13 cutGraph = Done p ∧ reconnected cutGraph p.
Proof.
  assert (wellFormed cutGraph) as Hwf by (apply (bool_decide_unpack _); by vm_compute).
  assert (nodes cutGraph ≠ []) as Hne by discriminate.
  assert (length (nodes cutGraph) ≤ 13) as Hf by (vm_compute; lia).
  split; [exact Hwf|]. split; [exact cutGraph_ordinary|].
  split; [exact Hne|]. split; [exact Hf|].
  exact (recovery_reconnects_every_node cutGraph 13 Hwf cutGraph_ordinary Hne Hf).
Defined.

Lemma NodeType_eqb_hub k : NodeType_eqb k hub = true ↔ k = hub.
Proof. by destruct k. Qed.

Lemma find_first_hub pre h post :
  Forall (fun n => Node.type n ≠ hub) pre → Node.type h = hub →
  find (fun n => NodeType_eqb (Node.type n) hub) (pre ++ h :: post) = Some h.
Proof.
  intros Hpre Hh. induction Hpre as [|n pre Hn _ IH]; cbn.
  - by rewrite Hh.
  - destruct (NodeType_eqb (Node.type n) hub) eqn:E; [|done].
    by apply NodeType_eqb_hub in E.
Qed.

Lemma find_no_hub ns :
  Forall (fun n => Node.type n ≠ hub) ns →
  find (fun n => NodeType_eqb (Node.type n) hub) ns = None.
Proof.
  induction 1 as [|n ns Hn _ IH]; cbn; [done|].
  destruct (NodeType_eqb (Node.type n) hub) eqn:E; [|done].
  by apply NodeType_eqb_hub in E.
Qed.

Lemma addEdges_fuel es : ∀ o, o ≠ OutOfFuel → fold_left addEdge es o ≠ OutOfFuel.
Proof.
  induction es as [|e es IH]; intros o Ho; [done|]. cbn [fold_left]. apply IH.
  destruct o as [adj|err|]; [|done|done]. unfold addEdge, push_adj. cbn.
  destruct (adj !! Edge.source e); [|done]. cbn.
  by destruct (<[Edge.source e:=_]> adj !! Edge.target e).
Qed.

(** C7, as amended: the hub of the planner is the first node of kind hub
    when there is one and its id is not the empty string, and the first
    node of the list when no node is of kind hub.  There is no typed error
    for a graph with no node: the planner then raises a [TypeError]. *)
Theorem hub_selection (g : Graph) :
  (nodes g = [] →
   sourceNode g = Thrown TypeError ∧ ∀ fuel, planRecovery fuel g = Thrown TypeError) ∧
  (∀ pre h post,
     nodes g = pre ++ h :: post → Forall (fun n => Node.type n ≠ hub) pre →
     Node.type h = hub → Node.id h ≠ "" → sourceNode g = Done (Node.id h)) ∧
  (∀ n rest,
     nodes g = n :: rest → Forall (fun n => Node.type n ≠ hub) (nodes g) →
     sourceNode g = Done (Node.id n)) ∧
  (∀ fuel p, planRecovery fuel g = Done p → sourceNode g = Done (hubOf p)).
Proof.
  split; [|split; [|split]].
  - intros Hnil.
    assert (sourceNode g = Thrown TypeError) as Hsrc.
    { unfold sourceNode, firstNodeId. by rewrite Hnil. }
    split; [done|]. intros fuel. unfold planRecovery. rewrite Hsrc.
    pose proof (addEdges_fuel (activeEdges g) (Done (emptyAdj (nodes g)))) as Hf.
    fold (buildAdjList g) in Hf.
    destruct (buildAdjList g) as [adj|[]|]; cbn; [done|done|]. by destruct Hf.
  - intros pre h post Hns Hpre Hh Hid. unfold sourceNode.
    rewrite Hns, find_first_hub by done. apply eqb_false in Hid. by rewrite Hid.
  - intros n rest Hns Hno. unfold sourceNode, firstNodeId.
    rewrite find_no_hub by done. by rewrite Hns.
  - intros fuel p Hp. by apply planRecovery_Done in Hp as [? _ _ _ _].
Qed.

(** C7, as stated, fails on the graph with no node: the planner raises a
    [TypeError] when it reads the id of the first node. *)
Lemma empty_graph_raises :
  sourceNode emptyGraph = Thrown TypeError ∧
  planRecovery 1 emptyGraph = Thrown TypeError ∧
  recoverNetwork 1 (showing emptyGraph) = Thrown TypeError.
Proof. repeat split. Qed.

(** ** The parent test of [dfsVisit] *)

Lemma num_insert_eq (m : gmap string nat) k n : num (<[k := n]> m) k = n.
Proof. unfold num. by rewrite lookup_insert_eq. Qed.

Lemma num_insert_ne (m : gmap string nat) k k' n :
  k ≠ k' → num (<[k := n]> m) k' = num m k'.
Proof. intros. unfold num. by rewrite lookup_insert_ne. Qed.






(** ** [dfsVisit] ends *)

Lemma unvisited_mono keys (visited visited' : gmap string bool) :
  (∀ k, flag visited k = true → flag visited' k = true) →
  unvisited keys visited' ≤ unvisited keys visited.
Proof.
  intros H. induction keys as [|k keys IH]; [done|]. rewrite !unvisited_cons.
  destruct (flag visited k) eqn:E.
  - rewrite (H k E). lia.
  - destruct (flag visited' k); lia.
Qed.

Lemma pushBridge_visited b st : Dfs.visited (Dfs.pushBridge b st) = Dfs.visited st.
Proof. by destruct b. Qed.

Lemma dfsNeighbor_total visit active u isRoot st childCount result v :
  (flag (Dfs.visited st) v = false →
   ∃ st1 childResults,
     visit v (Dfs.setParent v u st) = Done (st1, childResults) ∧
     ∀ k, flag (Dfs.visited st) k = true → flag (Dfs.visited st1) k = true) →
  ∃ st' childCount' result',
    dfsNeighbor visit active u isRoot (Done (st, childCount, result)) v
    = Done (st', childCount', result') ∧
    ∀ k, flag (Dfs.visited st) k = true → flag (Dfs.visited st') k = true.
Proof.
  intros Hvisit. unfold dfsNeighbor. cbn [mbind Outcome_bind].
  destruct (flag (Dfs.visited st) v) eqn:E; cbn [negb].
  - destruct (negb (Dfs.isParent st u v)); eauto 10.
  - destruct (Hvisit eq_refl) as (st1 & childResults & -> & Hmono).
    cbn [mbind Outcome_bind].
    destruct (negb isRoot && _); destruct (_ <? _);
      (eexists _, _, _; split; [reflexivity|]);
      rewrite ?pushBridge_visited; exact Hmono.
Qed.

Section dfs_total.
Context (g : Graph) (adj : gmap string (list string)) (active : list Edge.t).
Hypothesis Hadj : adjacency g adj.

Lemma dfsVisit_total fuel : ∀ u isRoot st,
  u ∈ nodeIds g → flag (Dfs.visited st) u = false →
  unvisited (nodeIds g) (Dfs.visited st) ≤ fuel →
  ∃ st' result,
    dfsVisit adj active fuel u isRoot st = Done (st', result) ∧
    ∀ k, flag (Dfs.visited st) k = true → flag (Dfs.visited st') k = true.
Proof.
  induction fuel as [|fuel IH]; intros u isRoot st Hu Hnew Hm.
  - pose proof (unvisited_mark_lt (nodeIds g) (Dfs.visited st) u Hu Hnew). lia.
  - cbn [dfsVisit].
    pose proof (unvisited_mark_lt (nodeIds g) (Dfs.visited st) u Hu Hnew) as Hlt.
    destruct (proj2 (adj_keys g adj Hadj u) Hu) as [ns Hns]. rewrite Hns.
    assert (∀ ms st0 c res,
      (∀ v, v ∈ ms → v ∈ nodeIds g) →
      unvisited (nodeIds g) (Dfs.visited st0) ≤ fuel →
      ∃ st' c' res',
        fold_left
          (dfsNeighbor (fun v => dfsVisit adj active fuel v false) active u isRoot)
          ms (Done (st0, c, res)) = Done (st', c', res') ∧
        ∀ k, flag (Dfs.visited st0) k = true → flag (Dfs.visited st') k = true)
      as Hfold.
    { induction ms as [|v ms IHms]; intros st0 c res Hms Hm0; [by eauto 10|].
      cbn [fold_left].
      destruct (dfsNeighbor_total (fun v => dfsVisit adj active fuel v false)
                  active u isRoot st0 c res v) as (st1 & c1 & res1 & -> & Hmono1).
      { intros Hv.
        destruct (IH v false (Dfs.setParent v u st0)) as (s1 & r1 & E1 & M1);
          [apply Hms; by left|done|done|].
        exists s1, r1. split; [exact E1|exact M1]. }
      destruct (IHms st1 c1 res1) as (st2 & c2 & res2 & -> & Hmono2).
      - intros w Hw. apply Hms. by right.
      - etrans; [by apply unvisited_mono|done].
      - eauto 10. }
    destruct (Hfold ns (Dfs.enter u st) 0 [EvVisiting u])
      as (st' & c' & res' & -> & Hmono).
    { intros v Hv. by apply (adj_closed g adj Hadj u ns). }
    { cbn. lia. }
    cbn [mbind Outcome_bind].
    destruct (isRoot && (1 <? c')); (eexists _, _; split; [reflexivity|]);
      intros k Hk; apply Hmono; cbn; by apply flag_insert_mono.
Qed.
End dfs_total.

Lemma analyze_total fuel g :
  wellFormed g → nodes g ≠ [] → length (nodes g) ≤ fuel →
  ∃ d log, analyze fuel g = Done (d, log).
Proof.
  intros Hwf Hne Hfuel. unfold analyze.
  destruct (wellFormed_buildAdjList g Hwf) as (adj & -> & Hadj). cbn.
  destruct (firstNodeId g) as [i|e|] eqn:Hi.
  - pose proof (firstNodeId_Done g i Hi) as Hin. cbn.
    destruct (dfsVisit_total g adj (activeEdges g) Hadj fuel i true Dfs.init)
      as (d & log & Hd & _); [done|done| |].
    + etrans; [apply unvisited_le|]. unfold nodeIds. by rewrite length_map.
    + rewrite Hd. eauto.
  - unfold firstNodeId in Hi. by destruct (nodes g).
  - unfold firstNodeId in Hi. by destruct (nodes g).
Qed.

(** ** The analysis does not depend on the annotations *)

Lemma joins_relabel f a b e : sameLink f → joins a b (f e) = joins a b e.
Proof. intros Hf. destruct (Hf e) as (Hs & Ht & _). unfold joins. by rewrite Hs, Ht. Qed.

Lemma find_relabel f a b l :
  sameLink f → find (joins a b) (map f l) = f <$> find (joins a b) l.
Proof.
  intros Hf. induction l as [|e l IH]; [done|]. cbn.
  rewrite joins_relabel by done. by destruct (joins a b e).
Qed.

Lemma pushBridge_relabel f b st :
  Dfs.pushBridge (f <$> b) (mapBridges f st) = mapBridges f (Dfs.pushBridge b st).
Proof.
  destruct b as [e|]; [|done]. unfold mapBridges. cbn. by rewrite map_app.
Qed.

Lemma dfsNeighbor_relabel f visit visit' active u isRoot acc v :
  sameLink f →
  (∀ w st, visit' w (mapBridges f st) = relabelVisit f (visit w st)) →
  dfsNeighbor visit' (map f active) u isRoot (relabelFrame f acc) v
  = relabelFrame f (dfsNeighbor visit active u isRoot acc v).
Proof.
  intros Hf Hvisit. destruct acc as [[[st c] res]|e|]; [|done|done].
  unfold dfsNeighbor, relabelFrame. cbn [mbind Outcome_bind].
  change (Dfs.visited (mapBridges f st)) with (Dfs.visited st).
  destruct (flag (Dfs.visited st) v); cbn [negb].
  - change (Dfs.isParent (mapBridges f st) u v) with (Dfs.isParent st u v).
    by destruct (Dfs.isParent st u v).
  - change (Dfs.setParent v u (mapBridges f st))
      with (mapBridges f (Dfs.setParent v u st)).
    rewrite Hvisit.
    destruct (visit v (Dfs.setParent v u st)) as [[st1 cres]|e|]; [|done|done].
    unfold relabelVisit. cbn [mbind Outcome_bind].
    rewrite find_relabel by done.
    change (Dfs.lowTime (mapBridges f st1)) with (Dfs.lowTime st1).
    change (Dfs.lower u (num (Dfs.lowTime st1) v) (mapBridges f st1))
      with (mapBridges f (Dfs.lower u (num (Dfs.lowTime st1) v) st1)).
    set (st2 := Dfs.lower u (num (Dfs.lowTime st1) v) st1).
    change (Dfs.discoveryTime (mapBridges f st2)) with (Dfs.discoveryTime st2).
    change (Dfs.lowTime (mapBridges f st2)) with (Dfs.lowTime st2).
    destruct (negb isRoot && _).
    + change (Dfs.addArticulation u (mapBridges f st2))
        with (mapBridges f (Dfs.addArticulation u st2)).
      set (st3 := Dfs.addArticulation u st2).
      change (Dfs.discoveryTime (mapBridges f st3)) with (Dfs.discoveryTime st3).
      change (Dfs.lowTime (mapBridges f st3)) with (Dfs.lowTime st3).
      destruct (_ <? _); [|done]. by rewrite pushBridge_relabel.
    + destruct (_ <? _); [|done]. by rewrite pushBridge_relabel.
Qed.

Lemma dfsNeighbors_relabel f visit visit' active u isRoot ns : ∀ acc,
  sameLink f →
  (∀ w st, visit' w (mapBridges f st) = relabelVisit f (visit w st)) →
  fold_left (dfsNeighbor visit' (map f active) u isRoot) ns (relabelFrame f acc)
  = relabelFrame f (fold_left (dfsNeighbor visit active u isRoot) ns acc).
Proof.
  intros acc Hf Hvisit. revert acc.
  induction ns as [|v ns IH]; intros acc; [done|]. cbn [fold_left].
  by rewrite (dfsNeighbor_relabel f visit visit'), IH.
Qed.

Lemma dfsVisit_relabel f adj active fuel : ∀ u isRoot st,
  sameLink f →
  dfsVisit adj (map f active) fuel u isRoot (mapBridges f st)
  = relabelVisit f (dfsVisit adj active fuel u isRoot st).
Proof.
  induction fuel as [|fuel IH]; intros u isRoot st Hf; [done|]. cbn [dfsVisit].
  destruct (adj !! u) as [ns|]; [|done].
  change (Done (Dfs.enter u (mapBridges f st), 0, [EvVisiting u]))
    with (relabelFrame f (Done (Dfs.enter u st, 0, [EvVisiting u]))).
  rewrite (dfsNeighbors_relabel f (fun v => dfsVisit adj active fuel v false));
    [|done|by intros; apply IH].
  destruct (fold_left _ ns _) as [[[st1 c] res]|e|]; [|done|done].
  unfold relabelFrame, relabelVisit. cbn [mbind Outcome_bind].
  by destruct (isRoot && (1 <? c)).
Qed.

Lemma markBridge_sameLink foundBridges : sameLink (markBridge foundBridges).
Proof. by intros e. Qed.

Lemma activeEdges_relabel f ns ns' es :
  sameLink f →
  activeEdges (mkGraph ns' (map f es)) = map f (activeEdges (mkGraph ns es)).
Proof.
  intros Hf. unfold activeEdges. cbn [edges].
  induction es as [|e es IH]; [done|]. cbn [map].
  rewrite !filter_cons, IH. destruct (Hf e) as (_ & _ & Ha). rewrite Ha.
  by destruct (decide (Edge.isActive e = true)).
Qed.

Lemma emptyAdj_relabel h ns :
  (∀ n, Node.id (h n) = Node.id n) → emptyAdj (map h ns) = emptyAdj ns.
Proof.
  intros Hh. apply map_eq. intros k. rewrite !emptyAdj_lookup.
  rewrite map_map. by rewrite (map_ext _ _ Hh).
Qed.

Lemma addEdges_relabel f es : ∀ o,
  sameLink f → fold_left addEdge (map f es) o = fold_left addEdge es o.
Proof.
  intros o Hf. revert o. induction es as [|e es IH]; intros o; [done|].
  cbn [map fold_left]. rewrite IH. f_equal. unfold addEdge.
  destruct (Hf e) as (-> & -> & _). done.
Qed.

Lemma buildAdjList_relabel f h ns es :
  sameLink f → (∀ n, Node.id (h n) = Node.id n) →
  buildAdjList (mkGraph (map h ns) (map f es)) = buildAdjList (mkGraph ns es).
Proof.
  intros Hf Hh. unfold buildAdjList.
  rewrite (activeEdges_relabel f ns) by done. cbn [nodes].
  by rewrite emptyAdj_relabel, addEdges_relabel.
Qed.

Lemma firstNodeId_relabel h ns es es' :
  (∀ n, Node.id (h n) = Node.id n) →
  firstNodeId (mkGraph (map h ns) es') = firstNodeId (mkGraph ns es).
Proof. intros Hh. unfold firstNodeId. destruct ns; cbn; [done|]. by rewrite Hh. Qed.

(** The analysis of a graph under other annotations of its nodes and edges
    is the analysis of the graph, with the bridges annotated alike. *)
Lemma analyze_relabel f h fuel ns es :
  sameLink f → (∀ n, Node.id (h n) = Node.id n) →
  analyze fuel (mkGraph (map h ns) (map f es))
  = relabelVisit f (analyze fuel (mkGraph ns es)).
Proof.
  intros Hf Hh. unfold analyze.
  rewrite (buildAdjList_relabel f h), (firstNodeId_relabel h ns es) by done.
  destruct (buildAdjList (mkGraph ns es)) as [adj|e|]; [|done|done].
  cbn [mbind Outcome_bind].
  destruct (firstNodeId (mkGraph ns es)) as [i|e|]; [|done|done].
  cbn [mbind Outcome_bind]. rewrite (activeEdges_relabel f ns) by done.
  by apply (dfsVisit_relabel f adj _ fuel i true Dfs.init).
Qed.

Lemma existsb_relabel f a b l :
  sameLink f → existsb (joins a b) (map f l) = existsb (joins a b) l.
Proof.
  intros Hf. induction l as [|e l IH]; [done|]. cbn.
  by rewrite joins_relabel, IH.
Qed.

Lemma markBridge_twice fb e :
  markBridge (map (markBridge fb) fb) (markBridge fb e) = markBridge fb e.
Proof.
  unfold markBridge at 1 3. cbn.
  by rewrite (existsb_relabel (markBridge fb)) by apply markBridge_sameLink.
Qed.


Lemma getNodeLabel_marked aps ns es es' i :
  getNodeLabel (mkGraph (map (markArticulation aps) ns) es') i
  = getNodeLabel (mkGraph ns es) i.
Proof.
  unfold getNodeLabel. cbn [nodes]. induction ns as [|n ns IH]; [done|]. cbn.
  by destruct (String.eqb (Node.id n) i).
Qed.

Lemma render_marked aps ns es es' e :
  render (mkGraph (map (markArticulation aps) ns) es') e = render (mkGraph ns es) e.
Proof.
  destruct e; cbn; rewrite ?(getNodeLabel_marked aps ns es es'); try done.
  do 2 f_equal. apply map_ext. intros i. apply getNodeLabel_marked.
Qed.

(** ** The analysis twice *)

(** C9: on a graph with at least one node whose edges all name nodes of
    the graph, [runDFS] returns within one unit of fuel for each node, and
    running it again on the state it left, where the graph is the same but
    for the annotations of the first run, gives the same bridges (as pairs of
    endpoints), the same articulation points, the same annotated graph and
    the same log. *)
Theorem analysis_is_idempotent (st : State) (fuel : nat) :
  wellFormed (graph st) → nodes (graph st) ≠ [] → length (nodes (graph st)) ≤ fuel →
  ∃ st1 st2,
    runDFS fuel st = Done st1 ∧ runDFS fuel st1 = Done st2 ∧
    map ends (bridges st2) = map ends (bridges st1) ∧
    articulationPoints st2 = articulationPoints st1 ∧
    graph st2 = graph st1 ∧
    algorithmResult st2 = algorithmResult st1.
Proof.
  destruct st as [[ns es] sel tgt res pth brs aps md rec]. cbn [graph nodes].
  intros Hwf Hne Hfuel.
  destruct (analyze_total fuel (mkGraph ns es) Hwf Hne Hfuel) as (d & log & Hd).
  eexists. eexists. split.
  { unfold runDFS. cbn [graph nodes edges]. rewrite Hd. reflexivity. }
  unfold runDFS. cbn [graph nodes edges].
  rewrite (analyze_relabel (markBridge (Dfs.foundBridges d))
             (markArticulation (Dfs.foundArticulationPoints d)) fuel ns es)
    by (done || apply markBridge_sameLink).
  rewrite Hd. unfold relabelVisit. cbn [mbind Outcome_bind].
  split; [reflexivity|]. cbn.
  rewrite !map_map.
  split; [done|]. split; [done|]. split.
  - f_equal. apply map_ext. intros e. apply markBridge_twice.
  - apply map_ext. intros e. apply render_marked.
Qed.

Lemma analysis_is_idempotent_witness :
  wellFormed (graph initialState) ∧ nodes (graph initialState) ≠ [] ∧
  length (nodes (graph initialState)) ≤ 13 ∧
  ∃ st1 st2,
    runDFS 13 initialState = Done st1 ∧ runDFS 13 st1 = Done st2 ∧
    map ends (bridges st2) = map ends (bridges st1) ∧
    articulationPoints st2 = articulationPoints st1 ∧
    graph st2 = graph st1 ∧
    algorithmResult st2 = algorithmResult st1.
Proof.
  assert (nodes (graph initialState) ≠ []) as Hne by discriminate.
  assert (length (nodes (graph initialState)) ≤ 13) as Hf by (vm_compute; lia).
  split; [exact initialGraph_wellFormed|]. split; [exact Hne|]. split; [exact Hf|].
  exact (analysis_is_idempotent initialState 13 initialGraph_wellFormed Hne Hf).
Defined.

(** * Further properties of the handlers *)

(** ** The adjacency list: when it raises, and what it holds *)

(** [buildAdjList] raises a [TypeError] exactly when some active edge names
    an id that is not the id of a node; an inactive edge may name anything.
    Otherwise it returns the adjacency list. *)
Theorem buildAdjList_raises_iff (g : Graph) :
  (buildAdjList g = Thrown TypeError ↔
   ∃ e, e ∈ edges g ∧ Edge.isActive e = true ∧
        (Edge.source e ∉ nodeIds g ∨ Edge.target e ∉ nodeIds g)) ∧
  (buildAdjList g ≠ Thrown TypeError → ∃ adj, buildAdjList g = Done adj).
Proof.
  assert (buildAdjList g ≠ OutOfFuel) as Hfuel by (by apply addEdges_fuel).
  split.
  - split.
    + intros Hthrown.
      destruct (decide (Exists (fun e => Edge.source e ∉ nodeIds g
                                         ∨ Edge.target e ∉ nodeIds g)
                               (activeEdges g))) as [Hex|Hno].
      * apply Exists_exists in Hex as (e & [He Ha]%elem_of_activeEdges & Hbad).
        eauto.
      * destruct (buildAdjList_ok g) as [adj Hadj]; [|congruence].
        intros e He. rewrite Exists_exists in Hno.
        destruct (decide (Edge.source e ∈ nodeIds g)) as [Hs|Hs];
          destruct (decide (Edge.target e ∈ nodeIds g)) as [Ht|Ht];
          try done; destruct Hno; eauto.
    + intros (e & He & Ha & Hbad).
      destruct (buildAdjList g) as [adj|[]|] eqn:Hb; [|done|done].
      apply buildAdjList_Done in Hb as [Hin _].
      destruct (Hin e) as [Hs Ht]; [by apply elem_of_activeEdges|].
      by destruct Hbad.
  - intros Hne. destruct (buildAdjList g) as [adj|[]|]; [eauto|done|done].
Qed.

Lemma count_neighbours es u v :
  u ≠ v →
  length (filter (fun w => w = v) (neighbours es u))
  = length (filter (fun e => joins u v e = true) es).
Proof.
  intros Hne. induction es as [|e es IH]; [done|].
  pose proof (neighbours_app [e] es u) as Happ. cbn [app] in Happ.
  rewrite Happ, filter_app, length_app, IH.
  rewrite (filter_cons (fun e => joins u v e = true)).
  unfold neighbours at 1. cbn [flat_map]. rewrite app_nil_r.
  pose proof (joins_spec u v e) as Hj.
  destruct (decide (Edge.source e = u)) as [Hs|Hs];
    destruct (decide (Edge.target e = u)) as [Ht|Ht];
    cbn [app]; rewrite ?filter_cons, ?filter_nil;
    repeat case_decide; cbn [length]; try lia; exfalso;
    try (apply not_true_iff_false in H); intuition congruence.
Qed.

(** The adjacency list has one key for each node id and no other; under
    [u] it lists [v] once for each active edge between [u] and [v]
    (parallel edges are not merged, and the direction of an edge does not
    matter), so each node is among the neighbours of its own neighbours as
    many times. *)
Theorem adjacency_counts_edges (g : Graph) (adj : gmap string (list string)) :
  buildAdjList g = Done adj →
  (∀ u, is_Some (adj !! u) ↔ u ∈ nodeIds g) ∧
  (∀ u v ns, adj !! u = Some ns → u ≠ v →
     length (filter (fun w => w = v) ns)
     = length (filter (fun e => joins u v e = true) (activeEdges g))) ∧
  (∀ u v ns ms, adj !! u = Some ns → adj !! v = Some ms →
     length (filter (fun w => w = v) ns) = length (filter (fun w => w = u) ms)).
Proof.
  intros Hb. pose proof (buildAdjList_adjacency g adj Hb) as Hadj.
  apply buildAdjList_Done in Hb as [_ Hb].
  split; [apply (adj_keys g adj Hadj)|]. split.
  - intros u v ns Hu Hne. rewrite Hb in Hu. case_decide; [|done].
    injection Hu as <-. by apply count_neighbours.
  - intros u v ns ms Hu Hv. rewrite Hb in Hu, Hv.
    repeat case_decide; try done. injection Hu as <-. injection Hv as <-.
    destruct (decide (u = v)) as [->|Hne]; [done|].
    rewrite !count_neighbours by done. f_equal.
    apply list_filter_iff. intros e. by rewrite joins_sym.
Qed.

Lemma adjacency_counts_edges_witness :
  buildAdjList parallelGraph = Done parallelAdj ∧
  (∀ u, is_Some (parallelAdj !! u) ↔ u ∈ nodeIds parallelGraph) ∧
  (∀ u v ns, parallelAdj !! u = Some ns → u ≠ v →
     length (filter (fun w => w = v) ns)
     = length (filter (fun e => joins u v e = true) (activeEdges parallelGraph))) ∧
  (∀ u v ns ms, parallelAdj !! u = Some ns → parallelAdj !! v = Some ms →
     length (filter (fun w => w = v) ns) = length (filter (fun w => w = u) ms)).
Proof.
  assert (buildAdjList parallelGraph = Done parallelAdj) as H
    by (vm_compute; reflexivity).
  split; [exact H|]. exact (adjacency_counts_edges parallelGraph parallelAdj H).
Defined.

(** ** [toggleEdge] composed with itself *)

Lemma flip_flip e : flip (flip e) = e.
Proof. destruct e as [s t b a r]. unfold flip. cbn. by rewrite negb_involutive. Qed.

Lemma joins_flip a b e : joins a b (flip e) = joins a b e.
Proof. done. Qed.

(** Toggling the same pair twice gives back the graph (every edge has the
    flag it had), whichever way round the pair is given the second time;
    and toggles of two pairs can be done in either order. *)
Theorem toggleEdge_twice (a b c d : string) (st : State) :
  graph (toggleEdge a b (toggleEdge a b st)) = graph st ∧
  graph (toggleEdge b a (toggleEdge a b st)) = graph st ∧
  toggleEdge a b (toggleEdge c d st) = toggleEdge c d (toggleEdge a b st).
Proof.
  assert (∀ x y, graph (toggleEdge x y (toggleEdge a b st)) =
                 mkGraph (nodes (graph st))
                   (map (fun e => if joins x y e
                                  then flip (if joins a b e then flip e else e)
                                  else if joins a b e then flip e else e)
                        (edges (graph st)))) as Hgraph.
  { intros x y. unfold toggleEdge. cbn. f_equal. rewrite map_map.
    apply map_ext. intros e. by destruct (joins a b e). }
  assert (∀ es, map (fun e => if joins a b e
                              then flip (if joins a b e then flip e else e)
                              else if joins a b e then flip e else e) es = es)
    as Hid.
  { intros es. rewrite <- (map_id es) at 2. apply map_ext. intros e.
    destruct (joins a b e); [apply flip_flip|done]. }
  split; [|split].
  - rewrite Hgraph, Hid. by destruct (graph st).
  - rewrite Hgraph.
    rewrite (map_ext _ (fun e => if joins a b e
                              then flip (if joins a b e then flip e else e)
                              else if joins a b e then flip e else e)).
    + rewrite Hid. by destruct (graph st).
    + intros e. by rewrite (joins_sym b a).
  - unfold toggleEdge. cbn. do 2 f_equal. rewrite !map_map. apply map_ext.
    intros e. destruct (joins a b e) eqn:E1, (joins c d e) eqn:E2;
      rewrite ?joins_flip, ?E1, ?E2; done.
Qed.

(** ** The levels of the breadth-first search *)

Lemma branch_functional R prev v p q :
  branch R prev v p → branch R prev v q → p = q.
Proof.
  intros Hp. revert q. induction Hp as [s Hs|u v p Hv _ IH _ _]; intros q Hq.
  - destruct Hq as [s' Hs'|u' v' q' Hv' _ _ _]; [done|congruence].
  - destruct Hq as [s' Hs'|u' v' q' Hv' Hq' _ _]; [congruence|].
    assert (u' = u) as -> by congruence. by rewrite (IH q').
Qed.

Lemma bfsNeighbors_marks current ns : ∀ st v,
  v ∈ ns → flag (Bfs.visited (fold_left (bfsNeighbor current) ns st)) v = true.
Proof.
  induction ns as [|x ns IH]; intros st v Hv; [by apply elem_of_nil in Hv|].
  cbn [fold_left]. apply elem_of_cons in Hv as [->|Hv]; [|by apply IH].
  assert (flag (Bfs.visited (bfsNeighbor current st x)) x = true) as Hx.
  { unfold bfsNeighbor. destruct (flag (Bfs.visited st) x) eqn:E; [done|].
    cbn. apply flag_insert_eq. }
  revert Hx. generalize (bfsNeighbor current st x). clear.
  induction ns as [|y ns IH]; intros st Hx; [done|]. cbn [fold_left].
  by apply IH, bfsNeighbor_visited.
Qed.

Lemma bfsLevels_init g s : bfsLevels g s (fun _ => 1) 1 None (Bfs.init s).
Proof.
  split; cbn.
  - split; [apply flag_insert_eq|done].
  - intros v [<-|Hv]%flag_insert_true; [|done].
    exists [s]. split; [|done]. apply branch_root, lookup_insert_eq.
  - exists [s], []. split; [done|]. split; [by constructor|constructor].
  - intros v [<-|Hv]%flag_insert_true Hq; [|done]. destruct Hq. by left.
  - done.
  - intros v w [<-|Hv]%flag_insert_true Hq; [|done]. destruct Hq. by left.
Qed.

(** Taking the head of the queue to expand it. *)
Lemma bfsLevels_dequeue g s r m vis c rest prev log e :
  flag vis c = true →
  bfsLevels g s r m None (Bfs.mk vis (c :: rest) prev log) →
  bfsLevels g s r (r c) (Some c) (Bfs.mk vis rest prev (log ++ [e])) ∧ m ≤ r c.
Proof.
  intros Hc L. destruct (lv_split _ _ _ _ _ _ L) as (lo & hi & Hq & Hlo & Hhi).
  cbn in Hq.
  assert (m ≤ r c ∧ ∃ lo' hi', rest = lo' ++ hi' ∧
          Forall (fun x => r x = r c) lo' ∧ Forall (fun x => r x = S (r c)) hi')
    as [Hm Hsplit].
  { destruct lo as [|x lo].
    - destruct hi as [|x hi]; [done|]. cbn in Hq. injection Hq as <- ->.
      apply Forall_cons in Hhi as [Hx Hhi]. split; [lia|].
      exists hi, []. rewrite app_nil_r. split; [done|]. split; [|constructor].
      eapply Forall_impl; [exact Hhi|]. cbn. intros; lia.
    - cbn in Hq. injection Hq as <- ->. apply Forall_cons in Hlo as [Hx Hlo].
      split; [lia|]. exists lo, hi. split; [done|]. by rewrite Hx. }
  split; [|done]. split; cbn.
  - apply (lv_source _ _ _ _ _ _ L).
  - apply (lv_rank _ _ _ _ _ _ L).
  - done.
  - intros v Hv Hnin. destruct (decide (v = c)) as [->|Hne]; [done|].
    etrans; [|exact Hm]. apply (lv_done _ _ _ _ _ _ L); [done|]. cbn.
    by intros [?|?]%elem_of_cons.
  - by intros ? [= <-].
  - intros v w Hv Hnin Hcur Hl. apply (lv_expanded _ _ _ _ _ _ L v w); try done.
    cbn. intros [->|?]%elem_of_cons; [by destruct Hcur|done].
Qed.

(** Visiting one neighbour of the node [c] being expanded. *)
Lemma bfsNeighbor_levels g s r c st w :
  linked (edges g) c w → bfsInv g s st →
  bfsLevels g s r (r c) (Some c) st →
  ∃ r', r' c = r c ∧ bfsLevels g s r' (r c) (Some c) (bfsNeighbor c st w).
Proof.
  intros Hl I L. unfold bfsNeighbor.
  destruct (flag (Bfs.visited st) w) eqn:E; cbn [negb]; [by exists r|].
  destruct (lv_cur _ _ _ _ _ _ L c eq_refl) as [Hc _].
  assert (c ≠ w) as Hcw by congruence.
  set (r' := fun x => if decide (x = w) then S (r c) else r x).
  assert (∀ x, flag (Bfs.visited st) x = true → r' x = r x) as Hr'.
  { intros x Hx. unfold r'. rewrite decide_False; [done|]. congruence. }
  assert (r' w = S (r c)) as Hw by (unfold r'; by rewrite decide_True).
  pose proof (inv_dom _ _ _ I w E) as Hprev.
  exists r'. split; [by apply Hr'|]. split; cbn.
  - destruct (lv_source _ _ _ _ _ _ L) as [Hs H1].
    split; [by apply flag_insert_mono|]. by rewrite Hr'.
  - intros v [<-|Hv]%flag_insert_true.
    + destruct (lv_rank _ _ _ _ _ _ L c Hc) as (p & Hp & Hlen).
      exists (p ++ [w]). split; [|rewrite length_app, Hw; cbn; lia].
      apply branch_step with c; [apply lookup_insert_eq|by apply branch_insert| |done].
      intros Hin. apply (branch_defined _ _ _ _ _ Hp) in Hin.
      rewrite Hprev in Hin. by destruct Hin.
    + destruct (lv_rank _ _ _ _ _ _ L v Hv) as (p & Hp & Hlen).
      exists p. split; [by apply branch_insert|]. by rewrite Hr'.
  - destruct (lv_split _ _ _ _ _ _ L) as (lo & hi & Hq & Hlo & Hhi).
    assert (∀ x, x ∈ Bfs.queue st → r' x = r x) as Hrq.
    { intros x Hx. apply Hr'. by apply (inv_queue _ _ _ I). }
    exists lo, (hi ++ [w]). rewrite Hq, app_assoc. split; [done|].
    rewrite Hq in Hrq. split.
    + rewrite Forall_forall in *. intros x Hx. rewrite Hrq; [by apply Hlo|].
      apply elem_of_app. by left.
    + apply Forall_app. split; [|by repeat constructor].
      rewrite Forall_forall in *. intros x Hx. rewrite Hrq; [by apply Hhi|].
      apply elem_of_app. by right.
  - intros v [<-|Hv]%flag_insert_true Hnin.
    + destruct Hnin. apply elem_of_app. right. by left.
    + rewrite Hr' by done. apply (lv_done _ _ _ _ _ _ L); [done|].
      intros Hin. apply Hnin, elem_of_app. by left.
  - intros ? [= <-]. split; [by apply flag_insert_mono|by apply Hr'].
  - intros v x [<-|Hv]%flag_insert_true Hnin Hcur Hvx.
    + destruct Hnin. apply elem_of_app. right. by left.
    + destruct (lv_expanded _ _ _ _ _ _ L v x) as [Hx Hle]; try done.
      { intros Hin. apply Hnin, elem_of_app. by left. }
      split; [by apply flag_insert_mono|]. by rewrite !Hr'.
Qed.

Lemma bfsNeighbors_levels g s c ns : ∀ r st,
  (∀ v, v ∈ ns → linked (edges g) c v ∧ v ∈ nodeIds g) →
  bfsInv g s st → bfsLevels g s r (r c) (Some c) st →
  ∃ r', r' c = r c ∧
        bfsLevels g s r' (r c) (Some c) (fold_left (bfsNeighbor c) ns st).
Proof.
  induction ns as [|w ns IH]; intros r st Hns I L; [by exists r|].
  cbn [fold_left]. destruct (Hns w) as [Hl Hw]; [by left|].
  destruct (bfsNeighbor_levels g s r c st w Hl I L) as (r1 & Hr1 & L1).
  rewrite <- Hr1 in L1.
  destruct (IH r1 (bfsNeighbor c st w)) as (r2 & Hr2 & L2); [|by apply bfsNeighbor_inv; [| |apply (lv_cur _ _ _ _ _ _ L c eq_refl)|]|done|].
  - intros v Hv. apply Hns. by right.
  - exists r2. split; [congruence|]. by rewrite <- Hr1.
Qed.

(** The expansion of [c] is over: all its neighbours are visited. *)
Lemma bfsLevels_expanded g s r c st :
  (∀ w, linked (edges g) c w → flag (Bfs.visited st) w = true) →
  bfsLevels g s r (r c) (Some c) st → bfsLevels g s r (r c) None st.
Proof.
  intros Hall L. split; try apply L; [done|].
  intros v w Hv Hnin _ Hl. destruct (decide (v = c)) as [->|Hne].
  - pose proof (Hall w Hl) as Hw. split; [done|].
    destruct (decide (w ∈ Bfs.queue st)) as [Hin|Hout].
    + destruct (lv_split _ _ _ _ _ _ L) as (lo & hi & Hq & Hlo & Hhi).
      rewrite Hq in Hin. rewrite Forall_forall in Hlo, Hhi.
      apply elem_of_app in Hin as [Hin|Hin];
        [rewrite (Hlo w Hin)|rewrite (Hhi w Hin)]; lia.
    + pose proof (lv_done _ _ _ _ _ _ L w Hw Hout). lia.
  - apply (lv_expanded _ _ _ _ _ _ L v w); try done. congruence.
Qed.

Section bfs_levels.
Context (g : Graph) (adj : gmap string (list string)) (s t : string).
Hypothesis Hadj : adjacency g adj.

Lemma bfsLoop_levels fuel : ∀ st st' r m,
  bfsInv g s st → bfsLevels g s r m None st →
  bfsLoop adj t fuel st = Done st' → ∃ r', bfsFinal g s t r' st'.
Proof.
  assert (∀ st r m, Bfs.queue st = [] → bfsLevels g s r m None st →
                    bfsFinal g s t r st) as Hempty.
  { intros st r m Hq L. split; [apply L|apply L|].
    intros v w Hv _ Hl. apply (lv_expanded _ _ _ _ _ _ L v w); try done.
    rewrite Hq. apply not_elem_of_nil. }
  induction fuel as [|fuel IH]; intros st st' r m I L H.
  - destruct st as [vis [|c rest] prev log]; cbn in H; [|done].
    injection H as <-. exists r. by eapply Hempty.
  - destruct st as [vis [|c rest] prev log]; cbn in H.
    { injection H as <-. exists r. by eapply Hempty. }
    assert (flag vis c = true) as Hc by (apply (inv_queue _ _ _ I); left).
    assert (bfsInv g s (Bfs.mk vis rest prev (log ++ [EvVisiting c]))) as I1.
    { apply (bfsInv_step g s (Bfs.mk vis (c :: rest) prev log)); [|done|done].
      intros x Hx. by right. }
    destruct (bfsLevels_dequeue g s r m vis c rest prev log (EvVisiting c) Hc L)
      as [L1 Hm].
    destruct (String.eqb c t) eqn:Hct.
    + injection H as <-. apply eqb_true in Hct as ->. exists r. split; cbn.
      * apply (lv_source _ _ _ _ _ _ L1).
      * apply (lv_rank _ _ _ _ _ _ L1).
      * intros v w Hv Hlt Hl. specialize (Hlt Hc).
        apply (lv_expanded _ _ _ _ _ _ L1 v w); cbn; try done.
        -- intros Hin.
           destruct (lv_split _ _ _ _ _ _ L1) as (lo & hi & Hq & Hlo & Hhi).
           cbn in Hq. rewrite Hq in Hin. rewrite Forall_forall in Hlo, Hhi.
           apply elem_of_app in Hin as [Hin|Hin];
             [pose proof (Hlo v Hin)|pose proof (Hhi v Hin)]; lia.
        -- intros [= ->]. lia.
    + destruct (adj !! c) as [ns|] eqn:Hns; [|done].
      assert (∀ v, v ∈ ns → linked (edges g) c v ∧ v ∈ nodeIds g) as Hnsok.
      { intros v Hv. split; [by apply (adj_sound g adj Hadj c ns)|
                             by apply (adj_closed g adj Hadj c ns)]. }
      destruct (bfsNeighbors_levels g s c ns r _ Hnsok I1 L1) as (r2 & Hr2 & L2).
      rewrite <- Hr2 in L2. apply bfsLevels_expanded in L2.
      * eapply IH; [|exact L2|exact H]. by apply bfsNeighbors_inv.
      * intros w Hl. apply (adj_complete g adj Hadj) in Hl as (ns' & Hns' & Hw).
        assert (ns' = ns) as -> by congruence. by apply bfsNeighbors_marks.
Qed.
End bfs_levels.

Lemma reachable_trans es u v w :
  reachable es u v → reachable es v w → reachable es u w.
Proof.
  intros Huv Hvw. induction Hvw as [|x y _ IH Hl]; [done|].
  by apply reach_step with x.
Qed.

Lemma chain_reachable es q : ∀ x t,
  head q = Some x → last q = Some t → chain (linked es) q → reachable es x t.
Proof.
  induction q as [|a [|b q] IH]; intros x t Hh Hl Hc; [done| |].
  - cbn in Hh, Hl. assert (x = t) as -> by congruence. apply reach_refl.
  - cbn in Hh. injection Hh as <-. destruct Hc as [Hab Hc].
    apply reachable_trans with b.
    + apply reach_step with a; [apply reach_refl|done].
    + apply IH; [done| |done]. by rewrite last_cons_cons in Hl.
Qed.

(** No walk from a visited node [x] to the target is shorter than the
    difference of their levels. *)
Lemma walk_rank g s t r st :
  bfsFinal g s t r st → flag (Bfs.visited st) t = true →
  ∀ q x, head q = Some x → last q = Some t → chain (linked (edges g)) q →
         flag (Bfs.visited st) x = true → r t ≤ r x + length q - 1.
Proof.
  intros F Ht. induction q as [|a [|b q] IH]; intros x Hh Hl Hc Hx; [done| |].
  - cbn in Hh, Hl. assert (x = t) as -> by congruence. cbn. lia.
  - cbn in Hh. injection Hh as <-. destruct Hc as [Hab Hc].
    destruct (decide (r a < r t)) as [Hlt|Hge]; [|cbn; lia].
    destruct (fin_expanded _ _ _ _ _ F a b Hx (fun _ => Hlt) Hab) as [Hb Hle].
    rewrite last_cons_cons in Hl.
    pose proof (IH b eq_refl Hl Hc Hb) as Hrec. cbn [length] in *. lia.
Qed.

Lemma bfsSearch_final g adj s t fuel st :
  adjacency g adj → bfsLoop adj t fuel (Bfs.init s) = Done st →
  bfsInv g s st ∧ ∃ r, bfsFinal g s t r st.
Proof.
  intros Hadj Hloop. split.
  - eapply bfsLoop_inv; [done|apply bfsInv_init|done].
  - eapply (bfsLoop_levels g adj s t Hadj); [apply bfsInv_init| |done].
    apply bfsLevels_init.
Qed.

Lemma bfsSearch_shortest g adj s t fuel p log :
  adjacency g adj → bfsSearch adj fuel s t = Done (Found p log) →
  ∀ q, head q = Some s → last q = Some t → chain (linked (edges g)) q →
       length p ≤ length q.
Proof.
  intros Hadj H. unfold bfsSearch in H. apply bind_Done in H as (st & Hloop & H).
  destruct (bfsSearch_final g adj s t fuel st Hadj Hloop) as [I [r F]].
  destruct (flag (Bfs.visited st) t) eqn:Ht; [|done].
  apply bind_Done in H as (p' & Hp' & H). injection H as <- _.
  destruct (fin_rank _ _ _ _ _ F t Ht) as (pt & Hpt & Hlen).
  apply (reconstruct_branch _ _ _ _ Hpt) in Hp'. rewrite app_nil_r in Hp'.
  subst p'. intros q Hh Hl Hc.
  destruct (fin_source _ _ _ _ _ F) as [Hs Hrs].
  pose proof (walk_rank g s t r st F Ht q s Hh Hl Hc Hs) as Hw.
  destruct q; [done|]. cbn [length] in *. lia.
Qed.

Lemma bfsSearch_reachable g adj s t fuel r :
  adjacency g adj → bfsSearch adj fuel s t = Done r →
  reachable (edges g) s t ↔ ∃ p log, r = Found p log.
Proof.
  intros Hadj H. split.
  - intros Hreach. destruct r as [p log|log]; [eauto|]. exfalso.
    unfold bfsSearch in H. apply bind_Done in H as (st & Hloop & H).
    destruct (bfsSearch_final g adj s t fuel st Hadj Hloop) as [I [rk F]].
    destruct (flag (Bfs.visited st) t) eqn:Ht.
    { apply bind_Done in H as (? & _ & ?). done. }
    assert (∀ x, reachable (edges g) s x → flag (Bfs.visited st) x = true) as Hall.
    { induction 1 as [|v w _ IH Hl]; [apply (fin_source _ _ _ _ _ F)|].
      apply (fin_expanded _ _ _ _ _ F v w); [done| |done]. congruence. }
    specialize (Hall t Hreach). congruence.
  - intros (p & log & ->).
    apply bfsSearch_path with (g := g) in H as (Hh & Hl & _ & Hc); [|done].
    by eapply chain_reachable.
Qed.

(** The path the search returns is a shortest one, on a graph whose nodes
    have ordinary ids and for an ordinary source and target: no walk along
    active edges of the graph from the source to the target has fewer nodes
    (so none has fewer hops).  (A node named after a member of
    [Object.prototype] reads as visited before the search has reached it,
    and the handler goes around it.) *)
Theorem shortest_path_is_shortest (g : Graph) (s t : string) (fuel : nat)
    (p : list string) (log : list Event) :
  ordinaryIds g → ordinary s → ordinary t →
  findShortestPath fuel g s t = Done (Found p log) →
  ∀ q, head q = Some s → last q = Some t → chain (linked (edges g)) q →
       length p ≤ length q.
Proof.
  unfold findShortestPath. intros _ _ _ H.
  apply bind_Done in H as (adj & Hadj & H).
  apply buildAdjList_adjacency in Hadj. by eapply bfsSearch_shortest.
Qed.

Lemma shortest_path_is_shortest_witness :
  ordinaryIds initialGraph ∧ ordinary "4" ∧ ordinary "6" ∧
  findShortestPath 13 initialGraph "4" "6"
  = Done (Found ["4"; "3"; "5"; "6"]
            [EvStartBFS "4"; EvVisiting "4"; EvDiscovered "3" "4";
             EvDiscovered "7" "4"; EvVisiting "3"; EvDiscovered "2" "3";
             EvDiscovered "5" "3"; EvVisiting "7"; EvVisiting "2";
             EvDiscovered "1" "2"; EvDiscovered "8" "2"; EvVisiting "5";
             EvDiscovered "6" "5"; EvVisiting "1"; EvDiscovered "11" "1";
             EvVisiting "8"; EvDiscovered "9" "8"; EvDiscovered "10" "8";
             EvVisiting "6"; EvFoundTarget "6";
             EvShortestPath ["4"; "3"; "5"; "6"]]) ∧
  ∀ q, head q = Some "4" → last q = Some "6" →
       chain (linked (edges initialGraph)) q →
       length ["4"; "3"; "5"; "6"] ≤ length q.
Proof.
  assert (ordinary "4") as Hs by (apply (bool_decide_unpack _); by vm_compute).
  assert (ordinary "6") as Ht by (apply (bool_decide_unpack _); by vm_compute).
  split; [exact initialGraph_ordinary|]. split; [exact Hs|]. split; [exact Ht|].
  split; [vm_compute; reflexivity|].
  eapply (shortest_path_is_shortest initialGraph "4" "6" 13
            _ _ initialGraph_ordinary Hs Ht).
  vm_compute; reflexivity.
Defined.

(** On a graph whose nodes have ordinary ids and for an ordinary source
    and target, the search finds a path exactly when the target can be
    reached from the source along active edges of the graph: the not-found
    result means that no route exists. *)
Theorem path_found_iff_reachable (g : Graph) (s t : string) (fuel : nat)
    (r : PathResult) :
  ordinaryIds g → ordinary s → ordinary t →
  findShortestPath fuel g s t = Done r →
  (reachable (edges g) s t ↔ ∃ p log, r = Found p log) ∧
  (¬ reachable (edges g) s t ↔ ∃ log, r = NotFound log).
Proof.
  unfold findShortestPath. intros _ _ _ H.
  apply bind_Done in H as (adj & Hadj & H).
  apply buildAdjList_adjacency in Hadj.
  pose proof (bfsSearch_reachable g adj s t fuel r Hadj H) as Hiff.
  split; [done|]. rewrite Hiff. destruct r as [p log|log].
  - split; [intros Hn; destruct Hn; eauto|by intros [? ?]].
  - split; [eauto|]. by intros _ (? & ? & ?).
Qed.

Lemma path_found_iff_reachable_witness :
  ordinaryIds cutGraph ∧ ordinary "1" ∧ ordinary "7" ∧
  findShortestPath 13 cutGraph "1" "7"
  = Done (NotFound [EvStartBFS "1"; EvVisiting "1"; EvDiscovered "2" "1";
                    EvDiscovered "11" "1"; EvVisiting "2"; EvDiscovered "8" "2";
                    EvVisiting "11"; EvDiscovered "12" "11"; EvVisiting "8";
                    EvDiscovered "9" "8"; EvDiscovered "10" "8"; EvVisiting "12";
                    EvDiscovered "13" "12"; EvVisiting "9"; EvVisiting "10";
                    EvVisiting "13"; EvNoPath "1" "7"]) ∧
  ¬ reachable (edges cutGraph) "1" "7".
Proof.
  assert (findShortestPath 13 cutGraph "1" "7"
          = Done (NotFound [EvStartBFS "1"; EvVisiting "1"; EvDiscovered "2" "1";
                    EvDiscovered "11" "1"; EvVisiting "2"; EvDiscovered "8" "2";
                    EvVisiting "11"; EvDiscovered "12" "11"; EvVisiting "8";
                    EvDiscovered "9" "8"; EvDiscovered "10" "8"; EvVisiting "12";
                    EvDiscovered "13" "12"; EvVisiting "9"; EvVisiting "10";
                    EvVisiting "13"; EvNoPath "1" "7"])) as H
    by (vm_compute; reflexivity).
  assert (ordinary "1") as Hs by (apply (bool_decide_unpack _); by vm_compute).
  assert (ordinary "7") as Ht by (apply (bool_decide_unpack _); by vm_compute).
  split; [exact cutGraph_ordinary|]. split; [exact Hs|]. split; [exact Ht|].
  split; [exact H|].
  apply (proj2 (path_found_iff_reachable cutGraph "1" "7" 13 _
                  cutGraph_ordinary Hs Ht H)). eauto.
Defined.

(** ** What the depth-first traversal visits and reports *)

(** The two ways one turn of the loop of [dfsVisit] can end. *)
Lemma dfsNeighbor_Done visit active u isRoot st c res v st' c' res' :
  dfsNeighbor visit active u isRoot (Done (st, c, res)) v = Done (st', c', res') →
  (flag (Dfs.visited st) v = true ∧
   Dfs.visited st' = Dfs.visited st ∧
   Dfs.foundBridges st' = Dfs.foundBridges st ∧
   Dfs.foundArticulationPoints st' = Dfs.foundArticulationPoints st) ∨
  (flag (Dfs.visited st) v = false ∧
   ∃ s1 childResults,
     visit v (Dfs.setParent v u st) = Done (s1, childResults) ∧
     Dfs.visited st' = Dfs.visited s1 ∧
     (Dfs.foundBridges st' = Dfs.foundBridges s1 ∨
      ∃ e, find (joins u v) active = Some e ∧
           Dfs.foundBridges st' = Dfs.foundBridges s1 ++ [e]) ∧
     (Dfs.foundArticulationPoints st' = Dfs.foundArticulationPoints s1 ∨
      Dfs.foundArticulationPoints st' = {[u]} ∪ Dfs.foundArticulationPoints s1)).
Proof.
  unfold dfsNeighbor. cbn [mbind Outcome_bind].
  destruct (flag (Dfs.visited st) v) eqn:E; cbn [negb].
  - intros H. left. split; [done|].
    destruct (negb (Dfs.isParent st u v)); injection H as <- _ _; done.
  - intros H. right. split; [done|].
    destruct (visit v (Dfs.setParent v u st)) as [[s1 cres]|e|]; [|done|done].
    exists s1, cres. split; [done|]. cbn [mbind Outcome_bind] in H.
    destruct (negb isRoot && _); destruct (_ <? _);
      injection H as <- _ _; rewrite ?pushBridge_visited;
      (split; [done|]);
      try (destruct (find (joins u v) active) as [e|]; cbn; eauto 10); eauto.
Qed.

Lemma dfsNeighbors_Done_acc visit active u isRoot ns : ∀ acc x,
  fold_left (dfsNeighbor visit active u isRoot) ns acc = Done x →
  ∃ a, acc = Done a.
Proof.
  induction ns as [|v ns IH]; intros acc x H; [eauto|]. cbn [fold_left] in H.
  apply IH in H as [a Ha]. destruct acc as [b|e|]; [eauto|done|done].
Qed.

Lemma dfsGrows_refl g st : dfsGrows g st st.
Proof. split; [done|]. congruence. Qed.

Lemma dfsGrows_trans g st1 st2 st3 :
  dfsGrows g st1 st2 → dfsGrows g st2 st3 → dfsGrows g st1 st3.
Proof.
  intros G1 G2. split.
  - intros v Hv. by apply (grows_mono _ _ _ G2), (grows_mono _ _ _ G1).
  - intros v w Hv Hnew Hl. destruct (flag (Dfs.visited st2) v) eqn:E.
    + apply (grows_mono _ _ _ G2). by apply (grows_closed _ _ _ G1 v w).
    + by apply (grows_closed _ _ _ G2 v w).
Qed.

Lemma dfsGrows_same g st st' :
  Dfs.visited st' = Dfs.visited st → dfsGrows g st st'.
Proof. intros H. split; rewrite H; [done|congruence]. Qed.

Section dfs_visits.
Context (g : Graph) (adj : gmap string (list string)) (root : string).
Hypothesis Hadj : adjacency g adj.

Lemma dfsVisit_spec fuel : ∀ u isRoot st st' res,
  dfsVisit adj (activeEdges g) fuel u isRoot st = Done (st', res) →
  flag (Dfs.visited st) u = false → reachable (edges g) root u → dfsOk g root st →
  dfsOk g root st' ∧ dfsGrows g st st' ∧ flag (Dfs.visited st') u = true.
Proof.
  induction fuel as [|fuel IH]; intros u isRoot st st' res H Hnew Hu Hok; [done|].
  cbn [dfsVisit] in H. destruct (adj !! u) as [ns|] eqn:Hns; [|done].
  apply bind_Done in H as ([[st2 c2] res2] & Hfold & H).
  assert (dfsOk g root (Dfs.enter u st)) as Hok1.
  { split; cbn.
    - intros v [<-|Hv]%flag_insert_true; [done|by apply (ok_visited _ _ _ Hok)].
    - intros e He. destruct (ok_bridges _ _ _ Hok e He) as (? & ? & ?).
      split; [done|]. split; by apply flag_insert_mono.
    - intros a Ha. by apply flag_insert_mono, (ok_articulation _ _ _ Hok). }
  assert (∀ ms stk c r' stl cl rl,
    (∀ v, v ∈ ms → linked (edges g) u v) →
    fold_left (dfsNeighbor (fun v => dfsVisit adj (activeEdges g) fuel v false)
                           (activeEdges g) u isRoot)
              ms (Done (stk, c, r')) = Done (stl, cl, rl) →
    flag (Dfs.visited stk) u = true → dfsOk g root stk →
    dfsOk g root stl ∧ dfsGrows g stk stl ∧
    ∀ v, v ∈ ms → flag (Dfs.visited stl) v = true) as Hloop.
  { induction ms as [|v ms IHms]; intros stk c r' stl cl rl Hms Hf Hvu Hokk.
    - injection Hf as <- _ _. split; [done|]. split; [apply dfsGrows_refl|].
      by intros v Hv%elem_of_nil.
    - cbn [fold_left] in Hf.
      destruct (dfsNeighbors_Done_acc _ _ _ _ _ _ _ Hf) as ([[s1 c1] r1] & Hstep).
      rewrite Hstep in Hf.
      assert (linked (edges g) u v) as Huv by (apply Hms; by left).
      assert (dfsOk g root s1 ∧ dfsGrows g stk s1 ∧ flag (Dfs.visited s1) v = true)
        as (Hok1' & Hg1 & Hv1).
      { apply dfsNeighbor_Done in Hstep
          as [(Hv & Hvis & Hbr & Hap)|(Hv & s0 & cres & Hcall & Hvis & Hbr & Hap)].
        - split; [|split; [by apply dfsGrows_same|by rewrite Hvis]].
          split; rewrite ?Hvis, ?Hbr, ?Hap; apply Hokk.
        - apply IH in Hcall as (Hok0 & Hg0 & Hv0); [|done| |].
          + split; [|split; [|by rewrite Hvis]].
            * split; rewrite ?Hvis.
              -- apply (ok_visited _ _ _ Hok0).
              -- intros e He. destruct Hbr as [Hbr|(e' & Hfind & Hbr)];
                   rewrite Hbr in He; [by apply (ok_bridges _ _ _ Hok0)|].
                 apply elem_of_app in He as [He|He%list_elem_of_singleton];
                   [by apply (ok_bridges _ _ _ Hok0)|]. subst e'.
                 apply find_some in Hfind as [Hin Hj].
                 apply list_elem_of_In in Hin. split; [done|].
                 assert (flag (Dfs.visited s0) u = true) as Hu0
                   by (by apply (grows_mono _ _ _ Hg0)).
                 apply joins_spec in Hj as [[-> ->]|[-> ->]]; done.
              -- intros a Ha. destruct Hap as [Hap|Hap]; rewrite Hap in Ha;
                   [by apply (ok_articulation _ _ _ Hok0)|].
                 apply elem_of_union in Ha as [->%elem_of_singleton|Ha];
                   [by apply (grows_mono _ _ _ Hg0)|
                    by apply (ok_articulation _ _ _ Hok0)].
            * split; rewrite ?Hvis; [apply (grows_mono _ _ _ Hg0)|].
              apply (grows_closed _ _ _ Hg0).
          + by apply reach_step with u.
          + split; [apply Hokk|apply Hokk|apply Hokk]. }
      destruct (IHms s1 c1 r1 stl cl rl) as (Hokl & Hgl & Hall); try done.
      + intros w Hw. apply Hms. by right.
      + by apply (grows_mono _ _ _ Hg1).
      + split; [done|]. split; [by eapply dfsGrows_trans|].
        intros w [->|Hw]%elem_of_cons; [by apply (grows_mono _ _ _ Hgl)|by apply Hall]. }
  destruct (Hloop ns (Dfs.enter u st) 0 [EvVisiting u] st2 c2 res2)
    as (Hok2 & Hg2 & Hall); try done.
  { intros v Hv. by apply (adj_sound g adj Hadj u ns). }
  { cbn. apply flag_insert_eq. }
  assert (flag (Dfs.visited st2) u = true) as Hu2.
  { apply (grows_mono _ _ _ Hg2). cbn. apply flag_insert_eq. }
  assert (dfsGrows g st st2) as Hg.
  { split.
    - intros v Hv. apply (grows_mono _ _ _ Hg2). cbn. by apply flag_insert_mono.
    - intros v w Hv Hnv Hl. destruct (decide (v = u)) as [->|Hne].
      + apply (adj_complete g adj Hadj) in Hl as (ns' & Hns' & Hw).
        assert (ns' = ns) as -> by congruence. by apply Hall.
      + apply (grows_closed _ _ _ Hg2 v w); [done| |done]. cbn.
        by rewrite flag_insert_ne. }
  destruct (isRoot && (1 <? c2)); injection H as <- _; [|done].
  split; [|split; [|done]].
  - split; cbn; [apply Hok2|apply Hok2|].
    intros a [->%elem_of_singleton|Ha]%elem_of_union;
      [done|by apply (ok_articulation _ _ _ Hok2)].
  - split; cbn; [apply Hg|apply Hg].
Qed.
End dfs_visits.

Lemma linked_swap es u v : linked es u v → linked es v u.
Proof. intros (e & ? & ? & ?). exists e. by rewrite joins_sym. Qed.

Lemma reachable_node g adj start v :
  adjacency g adj → start ∈ nodeIds g → reachable (edges g) start v → v ∈ nodeIds g.
Proof.
  intros Hadj Hs. destruct 1 as [|u w _ Hl]; [done|].
  apply linked_swap, (adj_complete g adj Hadj) in Hl as (ns & Hns & _).
  apply (adj_keys g adj Hadj). eauto.
Qed.

Lemma dfsOk_init g root : dfsOk g root Dfs.init.
Proof.
  split; cbn.
  - done.
  - by intros e He%elem_of_nil.
  - by intros a Ha%not_elem_of_empty.
Qed.

Lemma analyze_spec fuel g d log :
  analyze fuel g = Done (d, log) →
  ∃ start, firstNodeId g = Done start ∧ start ∈ nodeIds g ∧
           dfsOk g start d ∧ dfsGrows g Dfs.init d ∧
           flag (Dfs.visited d) start = true ∧
           ∀ v, reachable (edges g) start v → v ∈ nodeIds g.
Proof.
  unfold analyze. intros H. apply bind_Done in H as (adj & Hadj & H).
  apply buildAdjList_adjacency in Hadj.
  apply bind_Done in H as (start & Hstart & H). exists start.
  pose proof (firstNodeId_Done g start Hstart) as Hin.
  apply (dfsVisit_spec g adj start Hadj) in H as (Hok & Hg & Hv);
    [|done|apply reach_refl|apply dfsOk_init].
  repeat (split; [done|]). intros v. by apply (reachable_node g adj).
Qed.

(** The analysis is that of the component of the first node, on a graph
    whose nodes have ordinary ids: when it returns, the nodes it has visited
    (read at ordinary keys) are exactly those that can be reached from the
    first node of the list along active edges; every bridge it has found is
    an active edge of the graph inside that component, and every
    articulation point it has found is a node of that component.  (A node
    named after a member of [Object.prototype] reads as visited and is never
    entered.) *)
Theorem analysis_covers_first_component (g : Graph) (fuel : nat)
    (d : Dfs.state) (log : list Event) :
  ordinaryIds g →
  analyze fuel g = Done (d, log) →
  ∃ start,
    firstNodeId g = Done start ∧
    (∀ v, ordinary v →
          (flag (Dfs.visited d) v = true ↔ reachable (edges g) start v)) ∧
    (∀ e, e ∈ Dfs.foundBridges d →
          e ∈ edges g ∧ Edge.isActive e = true ∧
          reachable (edges g) start (Edge.source e) ∧
          reachable (edges g) start (Edge.target e)) ∧
    (∀ a, a ∈ Dfs.foundArticulationPoints d →
          a ∈ nodeIds g ∧ reachable (edges g) start a).
Proof.
  intros _ H.
  apply analyze_spec in H as (start & Hstart & Hin & Hok & Hg & Hs & Hnodes).
  exists start. split; [done|]. split; [|split].
  - intros v _. split; [apply (ok_visited _ _ _ Hok)|].
    induction 1 as [|u w _ IH Hl]; [done|].
    by apply (grows_closed _ _ _ Hg u w).
  - intros e He. destruct (ok_bridges _ _ _ Hok e He) as (Ha & Hsrc & Htgt).
    apply elem_of_activeEdges in Ha as [? ?].
    repeat split; try done; by apply (ok_visited _ _ _ Hok).
  - intros a Ha. apply (ok_articulation _ _ _ Hok), (ok_visited _ _ _ Hok) in Ha.
    split; [by apply Hnodes|done].
Qed.

Lemma analysis_covers_first_component_witness :
  ordinaryIds cutGraph ∧
  ∃ d log,
    analyze 13 cutGraph = Done (d, log) ∧
    ∃ start,
      firstNodeId cutGraph = Done start ∧
      (∀ v, ordinary v →
            (flag (Dfs.visited d) v = true
             ↔ reachable (edges cutGraph) start v)) ∧
      (∀ e, e ∈ Dfs.foundBridges d →
            e ∈ edges cutGraph ∧ Edge.isActive e = true ∧
            reachable (edges cutGraph) start (Edge.source e) ∧
            reachable (edges cutGraph) start (Edge.target e)) ∧
      (∀ a, a ∈ Dfs.foundArticulationPoints d →
            a ∈ nodeIds cutGraph ∧ reachable (edges cutGraph) start a).
Proof.
  destruct (analyze 13 cutGraph) as [[d log]|e|] eqn:H;
    [|exfalso; revert H; vm_compute; discriminate
     |exfalso; revert H; vm_compute; discriminate].
  split; [exact cutGraph_ordinary|].
  exists d, log. split; [reflexivity|].
  exact (analysis_covers_first_component cutGraph 13 d log cutGraph_ordinary H).
Defined.

(** What [runDFS] writes into the graph concerns the component of the first
    node only: a node it marks as an articulation point, and both endpoints
    of an edge it marks as a bridge, can be reached from the first node
    along active edges; the bridges it lists are active edges of the graph.
    Critical links and nodes of any other component are not reported. *)
Theorem runDFS_marks_first_component_only (fuel : nat) (st st' : State) :
  runDFS fuel st = Done st' →
  ∃ start,
    firstNodeId (graph st) = Done start ∧
    (∀ n, n ∈ nodes (graph st') → Node.isArticulationPoint n = Some true →
          reachable (edges (graph st)) start (Node.id n)) ∧
    (∀ e, e ∈ edges (graph st') → Edge.isBridge e = Some true →
          reachable (edges (graph st)) start (Edge.source e) ∧
          reachable (edges (graph st)) start (Edge.target e)) ∧
    (∀ b, b ∈ bridges st' → b ∈ edges (graph st) ∧ Edge.isActive b = true) ∧
    (∀ n, n ∈ articulationPoints st' →
          reachable (edges (graph st)) start (Node.id n)).
Proof.
  unfold runDFS. intros H. apply bind_Done in H as ([d log] & Han & H).
  injection H as <-. cbn [graph nodes edges bridges articulationPoints].
  apply analyze_spec in Han as (start & Hstart & _ & Hok & _ & _ & _).
  exists start. split; [done|].
  assert (∀ n, n ∈ map (markArticulation (Dfs.foundArticulationPoints d))
                       (nodes (graph st)) →
               Node.isArticulationPoint n = Some true →
               reachable (edges (graph st)) start (Node.id n)) as Hnodes.
  { intros n Hn Hap. apply (list_elem_of_fmap_1 _ _ _) in Hn as (n0 & -> & _).
    cbn in *. injection Hap as Hap. apply bool_decide_eq_true in Hap.
    by apply (ok_visited _ _ _ Hok), (ok_articulation _ _ _ Hok). }
  split; [done|]. split; [|split].
  - intros e He Hbr. apply (list_elem_of_fmap_1 _ _ _) in He as (e0 & -> & _).
    cbn in *. injection Hbr as Hbr.
    apply existsb_exists in Hbr as (b & Hb & Hj).
    apply list_elem_of_In in Hb.
    destruct (ok_bridges _ _ _ Hok b Hb) as (_ & Hs & Ht).
    apply (ok_visited _ _ _ Hok) in Hs, Ht.
    apply joins_spec in Hj as [[<- <-]|[<- <-]]; done.
  - intros b Hb. destruct (ok_bridges _ _ _ Hok b Hb) as (Ha & _ & _).
    by apply elem_of_activeEdges in Ha.
  - intros n [Hap Hn]%list_elem_of_filter. by apply Hnodes.
Qed.

Lemma runDFS_marks_first_component_only_witness :
  ∃ st',
    runDFS 13 (showing cutGraph) = Done st' ∧
    ∃ start,
      firstNodeId (graph (showing cutGraph)) = Done start ∧
      (∀ n, n ∈ nodes (graph st') → Node.isArticulationPoint n = Some true →
            reachable (edges (graph (showing cutGraph))) start (Node.id n)) ∧
      (∀ e, e ∈ edges (graph st') → Edge.isBridge e = Some true →
            reachable (edges (graph (showing cutGraph))) start (Edge.source e) ∧
            reachable (edges (graph (showing cutGraph))) start (Edge.target e)) ∧
      (∀ b, b ∈ bridges st' →
            b ∈ edges (graph (showing cutGraph)) ∧ Edge.isActive b = true) ∧
      (∀ n, n ∈ articulationPoints st' →
            reachable (edges (graph (showing cutGraph))) start (Node.id n)).
Proof.
  destruct (runDFS 13 (showing cutGraph)) as [st'|e|] eqn:H;
    [|exfalso; revert H; vm_compute; discriminate
     |exfalso; revert H; vm_compute; discriminate].
  exists st'. split; [reflexivity|].
  exact (runDFS_marks_first_component_only 13 (showing cutGraph) st' H).
Defined.

(** ** [runDFS] returns *)

(** On a graph whose edges name nodes of the graph, and that has a node,
    [runDFS] returns: the recursion of [dfsVisit] is never deeper than the
    number of nodes.  The new graph differs from the old one by the marks
    only: same nodes but for [isArticulationPoint], same edges but for
    [isBridge]; and the path is cleared. *)
Theorem runDFS_returns (fuel : nat) (st : State) :
  wellFormed (graph st) → nodes (graph st) ≠ [] →
  length (nodes (graph st)) ≤ fuel →
  ∃ st', runDFS fuel st = Done st' ∧
         path st' = [] ∧
         selectedNode st' = selectedNode st ∧ targetNode st' = targetNode st ∧
         recoveryEdges st' = recoveryEdges st ∧
         Forall2 (fun n n' =>
                    Node.id n' = Node.id n ∧ Node.label n' = Node.label n ∧
                    Node.x n' = Node.x n ∧ Node.y n' = Node.y n ∧
                    Node.type n' = Node.type n)
                 (nodes (graph st)) (nodes (graph st')) ∧
         Forall2 (fun e e' =>
                    Edge.source e' = Edge.source e ∧ Edge.target e' = Edge.target e ∧
                    Edge.isActive e' = Edge.isActive e ∧
                    Edge.isRecovery e' = Edge.isRecovery e)
                 (edges (graph st)) (edges (graph st')).
Proof.
  intros Hwf Hne Hfuel.
  destruct (analyze_total fuel (graph st) Hwf Hne Hfuel) as (d & log & Hd).
  unfold runDFS. rewrite Hd. cbn [mbind Outcome_bind]. eexists. split; [done|].
  cbn [path selectedNode targetNode recoveryEdges graph nodes edges].
  repeat (split; [done|]). split.
  - apply Forall2_fmap_r, Forall_Forall2_diag, Forall_forall. by intros n _.
  - apply Forall2_fmap_r, Forall_Forall2_diag, Forall_forall. by intros e _.
Qed.

Lemma runDFS_returns_witness :
  wellFormed (graph initialState) ∧ nodes (graph initialState) ≠ [] ∧
  length (nodes (graph initialState)) ≤ 13 ∧
  ∃ st', runDFS 13 initialState = Done st' ∧
         path st' = [] ∧
         selectedNode st' = selectedNode initialState ∧
         targetNode st' = targetNode initialState ∧
         recoveryEdges st' = recoveryEdges initialState ∧
         Forall2 (fun n n' =>
                    Node.id n' = Node.id n ∧ Node.label n' = Node.label n ∧
                    Node.x n' = Node.x n ∧ Node.y n' = Node.y n ∧
                    Node.type n' = Node.type n)
                 (nodes (graph initialState)) (nodes (graph st')) ∧
         Forall2 (fun e e' =>
                    Edge.source e' = Edge.source e ∧ Edge.target e' = Edge.target e ∧
                    Edge.isActive e' = Edge.isActive e ∧
                    Edge.isRecovery e' = Edge.isRecovery e)
                 (edges (graph initialState)) (edges (graph st')).
Proof.
  assert (wellFormed (graph initialState)) as H1 by exact initialGraph_wellFormed.
  assert (nodes (graph initialState) ≠ []) as H2 by (vm_compute; discriminate).
  assert (length (nodes (graph initialState)) ≤ 13) as H3 by (vm_compute; lia).
  split; [exact H1|]. split; [exact H2|]. split; [exact H3|].
  exact (runDFS_returns 13 initialState H1 H2 H3).
Defined.

(** ** The bridges reported are bridges *)

Lemma reachable_sym es u v : reachable es u v → reachable es v u.
Proof.
  induction 1 as [|v w _ IH Hl]; [apply reach_refl|].
  apply reachable_trans with v; [|done].
  apply reach_step with w; [apply reach_refl|by apply linked_swap].
Qed.

Lemma without_swap a b es : without a b es = without b a es.
Proof.
  unfold without. apply list_filter_iff. intros e. by rewrite joins_sym.
Qed.

Lemma linked_without a b es x y :
  linked (without a b es) x y → linked es x y ∧ ¬ (x = a ∧ y = b) ∧ ¬ (x = b ∧ y = a).
Proof.
  intros (e & [Hj He]%list_elem_of_filter & Hact & Hxy).
  split; [by exists e|].
  split; intros [-> ->]; [|rewrite joins_sym in Hxy]; congruence.
Qed.

(** A set of nodes that only the edges joining [u] and [v] leave, holding
    [v] and not [u], makes an edge between [u] and [v] a bridge. *)
Lemma bridgeOf_intro g (inside : string → Prop) u v e :
  joins u v e = true →
  inside v → ¬ inside u →
  (∀ x y, inside x → linked (edges g) x y → ¬ (x = v ∧ y = u) → inside y) →
  bridgeOf g e.
Proof.
  intros Hj Hv Hu Hclosed.
  assert (u ≠ v) as Hne by (by intros ->).
  assert (∀ x, reachable (without u v (edges g)) v x → inside x) as Hin.
  { induction 1 as [|x y _ IH Hl]; [done|].
    apply linked_without in Hl as (Hl & _ & Hvu). by apply (Hclosed x y). }
  assert (¬ reachable (without u v (edges g)) v u) as Hvu by (intros H%Hin; done).
  assert (¬ reachable (without u v (edges g)) u v) as Huv
    by (intros H%reachable_sym; done).
  unfold bridgeOf. apply joins_spec in Hj as [[-> ->]|[-> ->]].
  - done.
  - rewrite without_swap. split; [done|]. by split.
Qed.

Lemma dfsNeighbor_effect visit active u isRoot st c res v st' c' res' :
  dfsNeighbor visit active u isRoot (Done (st, c, res)) v = Done (st', c', res') →
  (flag (Dfs.visited st) v = true ∧
   ((Dfs.isParent st u v = true ∧ st' = st) ∨
    (Dfs.isParent st u v = false ∧
     st' = Dfs.lower u (num (Dfs.discoveryTime st) v) st))) ∨
  (flag (Dfs.visited st) v = false ∧
   ∃ s1 childResults,
     visit v (Dfs.setParent v u st) = Done (s1, childResults) ∧
     Dfs.visited st' = Dfs.visited s1 ∧
     Dfs.discoveryTime st' = Dfs.discoveryTime s1 ∧
     Dfs.lowTime st' =
       <[u := Nat.min (num (Dfs.lowTime s1) u) (num (Dfs.lowTime s1) v)]>
         (Dfs.lowTime s1) ∧
     Dfs.parent st' = Dfs.parent s1 ∧
     Dfs.time st' = Dfs.time s1 ∧
     ((Dfs.foundBridges st' = Dfs.foundBridges s1 ∧
       (num (Dfs.lowTime st') v ≤ num (Dfs.discoveryTime st') u ∨
        find (joins u v) active = None)) ∨
      ∃ e, num (Dfs.discoveryTime st') u < num (Dfs.lowTime st') v ∧
           find (joins u v) active = Some e ∧
           Dfs.foundBridges st' = Dfs.foundBridges s1 ++ [e])).
Proof.
  unfold dfsNeighbor. cbn [mbind Outcome_bind].
  destruct (flag (Dfs.visited st) v) eqn:E; cbn [negb].
  - intros H. left. split; [done|].
    destruct (Dfs.isParent st u v); cbn [negb] in H; injection H as <- _ _; eauto.
  - intros H. right. split; [done|].
    destruct (visit v (Dfs.setParent v u st)) as [[s1 cres]|e|]; [|done|done].
    exists s1, cres. split; [done|]. cbn [mbind Outcome_bind] in H.
    destruct (negb isRoot && _);
      match type of H with
      | context [if ?b then _ else _] => destruct b eqn:Hlt
      end; injection H as <- _ _;
      try (destruct (find (joins u v) active) as [e|] eqn:Hfind); cbn;
      repeat (split; [done|]);
      first [apply Nat.ltb_lt in Hlt | apply Nat.ltb_ge in Hlt];
      cbn in Hlt;
      first [ by (right; exists e) | by (left; split; [|right])
            | by (left; split; [|left]) ].
Qed.

Lemma flag_false_ne (m : gmap string bool) x y :
  flag m x = true → flag m y = false → x ≠ y.
Proof. intros Hx Hy ->. congruence. Qed.

Section dfs_bridges.
Context (g : Graph) (adj : gmap string (list string)).
Hypothesis Hadj : adjacency g adj.

Lemma dfsLoop_enter onStack u st :
  flag (Dfs.visited st) u = false → dfsPre g onStack st →
  dfsLoop g u st (Dfs.enter u st).
Proof.
  intros Hnew Hpre. split; cbn.
  - intros x Hx. by apply flag_insert_mono.
  - intros x Hx. rewrite num_insert_ne; [done|]. intros ->. congruence.
  - intros x Hx. rewrite num_insert_ne; [done|]. intros ->. congruence.
  - done.
  - apply flag_insert_eq.
  - apply num_insert_eq.
  - intros x [->|Hx]%flag_insert_true Hnx Hne; [done|congruence].
  - intros x [->|Hx]%flag_insert_true.
    + by rewrite num_insert_eq.
    + rewrite num_insert_ne by (intros ->; congruence).
      pose proof (pre_time _ _ _ Hpre x Hx). lia.
  - lia.
  - intros x y [->|Hx]%flag_insert_true Hnx Hne; [done|congruence].
  - apply Hpre.
Qed.

Lemma dfsPre_loop onStack u st stk :
  dfsPre g onStack st → dfsLoop g u st stk →
  dfsPre g (fun x => onStack x ∨ x = u) stk.
Proof.
  intros Hpre L. split.
  - intros x Hx. destruct (decide (x = u)) as [->|Hne]; [left; by right|].
    destruct (flag (Dfs.visited st) x) eqn:Hold.
    + destruct (pre_stack _ _ _ Hpre x Hold) as [Hs|Hc]; [left; by left|].
      right. intros w Hw. by apply (lp_mono _ _ _ _ L), Hc.
    + right. by apply (lp_closed _ _ _ _ L).
  - intros x [Hs| ->]; [|apply (lp_u _ _ _ _ L)].
    by apply (lp_mono _ _ _ _ L), (pre_stack_visited _ _ _ Hpre).
  - apply L.
  - apply L.
Qed.

(** On the stack nothing is discovered later than the node on top. *)
Lemma stack_before_top onStack u st stk y :
  dfsPre g onStack st → dfsLoop g u st stk → onStack y ∨ y = u →
  num (Dfs.discoveryTime stk) y ≤ num (Dfs.discoveryTime stk) u.
Proof.
  intros Hpre L [Hs| ->]; [|done].
  apply (pre_stack_visited _ _ _ Hpre) in Hs as Hy.
  rewrite (lp_disc _ _ _ _ L y Hy), (lp_disc_u _ _ _ _ L).
  pose proof (pre_time _ _ _ Hpre y Hy). lia.
Qed.

(** One iteration of the loop of [dfsVisit (u, _)], given what the recursive
    call does. *)
Lemma dfsNeighbor_loop visit onStack u isRoot st v stk c r s' c' r' :
  (∀ s1 cres, visit v (Dfs.setParent v u stk) = Done (s1, cres) →
              flag (Dfs.visited stk) v = false →
              dfsPost g v (Dfs.setParent v u stk) s1) →
  flag (Dfs.visited st) u = false → dfsPre g onStack st →
  linked (edges g) u v →
  dfsNeighbor visit (activeEdges g) u isRoot (Done (stk, c, r)) v
  = Done (s', c', r') →
  dfsLoop g u st stk →
  dfsLoop g u st s' ∧
  num (Dfs.lowTime s') u ≤ num (Dfs.lowTime stk) u ∧
  (∀ x, flag (Dfs.visited stk) x = true → flag (Dfs.visited s') x = true) ∧
  flag (Dfs.visited s') v = true ∧
  (flag (Dfs.visited st) v = true →
   Dfs.parent st !! u = Some v ∨
   num (Dfs.lowTime s') u ≤ num (Dfs.discoveryTime st) v).
Proof.
  intros Hvisit Hnew Hpre Huv Hs L.
  apply dfsNeighbor_effect in Hs
    as [(Hv & [[Hp ->]|[Hp ->]])
       |(Hv & s1 & cres & Hcall & Hvis & Hdisc & Hlow & Hpar & Htime & Hbr)].
  - (* the parent: skipped *)
    repeat (split; [done|]). intros _. left.
    unfold Dfs.isParent in Hp. rewrite <- (lp_parent _ _ _ _ L u) by (by right).
    destruct (Dfs.parent stk !! u) as [p|]; [|done].
    by apply eqb_true in Hp as ->.
  - (* a visited node other than the parent *)
    assert (num (Dfs.lowTime (Dfs.lower u (num (Dfs.discoveryTime stk) v) stk)) u
            = Nat.min (num (Dfs.lowTime stk) u) (num (Dfs.discoveryTime stk) v))
      as Hlu by (cbn; apply num_insert_eq).
    split; [|split; [lia|split; [done|split; [done|]]]].
    + split.
      * apply (lp_mono _ _ _ _ L).
      * apply (lp_disc _ _ _ _ L).
      * intros x Hx. cbn. rewrite num_insert_ne; [by apply (lp_low _ _ _ _ L)|].
        intros ->. congruence.
      * apply (lp_parent _ _ _ _ L).
      * apply (lp_u _ _ _ _ L).
      * apply (lp_disc_u _ _ _ _ L).
      * apply (lp_closed _ _ _ _ L).
      * apply (lp_time _ _ _ _ L).
      * apply (lp_time_mono _ _ _ _ L).
      * intros x y Hx Hnx Hne Hy Hl. rewrite Hlu.
        pose proof (lp_low_bound _ _ _ _ L x y Hx Hnx Hne Hy Hl). lia.
      * apply (lp_bridges _ _ _ _ L).
    + intros Hold. right. rewrite Hlu, (lp_disc _ _ _ _ L v Hold). lia.
  - (* an unvisited node: the recursive call *)
    assert (u ≠ v) as Hne by (apply (flag_false_ne (Dfs.visited stk)); [apply (lp_u _ _ _ _ L)|done]).
    pose proof (dfsPre_loop onStack u st stk Hpre L) as Hprek.
    assert (dfsPre g (fun x => onStack x ∨ x = u) (Dfs.setParent v u stk)) as Hpre1.
    { split; cbn; apply Hprek. }
    pose proof (Hvisit s1 cres Hcall Hv) as P.
    assert (∀ x, flag (Dfs.visited stk) x = true → x ≠ v) as Hxv.
    { intros x Hx. by apply (flag_false_ne (Dfs.visited stk)). }
    assert (∀ x, flag (Dfs.visited st) x = true → x ≠ u) as Hxu.
    { intros x Hx. by apply (flag_false_ne (Dfs.visited st)). }
    assert (num (Dfs.lowTime s') u
            = Nat.min (num (Dfs.lowTime stk) u) (num (Dfs.lowTime s1) v)) as Hlu.
    { rewrite Hlow, num_insert_eq.
      change (num (Dfs.lowTime s1) u = num (Dfs.lowTime (Dfs.setParent v u stk)) u
              → _) || idtac.
      by rewrite (post_low _ _ _ _ P u (lp_u _ _ _ _ L)). }
    assert (num (Dfs.lowTime s') v = num (Dfs.lowTime s1) v) as Hlv.
    { by rewrite Hlow, num_insert_ne. }
    assert (∀ x, flag (Dfs.visited stk) x = true →
                 num (Dfs.discoveryTime s') x = num (Dfs.discoveryTime stk) x)
      as Hdk.
    { intros x Hx. rewrite Hdisc. by apply (post_disc _ _ _ _ P). }
    split; [|split; [lia|split; [|split]]].
    + split; rewrite ?Hvis, ?Hpar, ?Htime.
      * intros x Hx. by apply (post_mono _ _ _ _ P), (lp_mono _ _ _ _ L).
      * intros x Hx. rewrite Hdk by (by apply (lp_mono _ _ _ _ L)).
        by apply (lp_disc _ _ _ _ L).
      * intros x Hx. rewrite Hlow, num_insert_ne by (by apply not_eq_sym, Hxu).
        rewrite (post_low _ _ _ _ P x) by (by apply (lp_mono _ _ _ _ L)).
        by apply (lp_low _ _ _ _ L).
      * intros x Hx.
        assert (flag (Dfs.visited stk) x = true) as Hxk.
        { destruct Hx as [Hx| ->]; [by apply (lp_mono _ _ _ _ L)|apply (lp_u _ _ _ _ L)]. }
        rewrite (post_parent _ _ _ _ P x) by (by left). cbn.
        rewrite lookup_insert_ne by (by apply not_eq_sym, Hxv).
        by apply (lp_parent _ _ _ _ L).
      * apply (post_mono _ _ _ _ P), (lp_u _ _ _ _ L).
      * rewrite Hdk by apply (lp_u _ _ _ _ L). apply (lp_disc_u _ _ _ _ L).
      * intros x Hx Hnx Hxne w Hw. rewrite Hvis.
        destruct (flag (Dfs.visited stk) x) eqn:Hxk.
        -- by apply (post_mono _ _ _ _ P), (lp_closed _ _ _ _ L x).
        -- by apply (post_closed _ _ _ _ P x).
      * intros x Hx. rewrite Hdisc. by apply (post_time _ _ _ _ P).
      * pose proof (lp_time_mono _ _ _ _ L).
        pose proof (post_time_mono _ _ _ _ P) as Ht. cbn in Ht. lia.
      * intros x y Hx Hnx Hxne Hy Hl. rewrite Hlu.
        destruct (flag (Dfs.visited stk) x) eqn:Hxk.
        -- pose proof (lp_low_bound _ _ _ _ L x y Hxk Hnx Hxne Hy Hl). lia.
        -- assert (flag (Dfs.visited stk) y = true) as Hyk
             by (by apply (lp_mono _ _ _ _ L)).
           destruct (post_low_bound _ _ _ _ P x y Hx Hxk Hyk Hl)
             as [[-> Hp]|Hb].
           ++ cbn in Hp. rewrite lookup_insert_eq in Hp. injection Hp as <-.
              by destruct (Hxu u Hy).
           ++ cbn in Hb. rewrite (lp_disc _ _ _ _ L y Hy) in Hb. lia.
      * intros e He.
        destruct Hbr as [[Hbr _]|(e' & Hlt & Hfind & Hbr)]; rewrite Hbr in He;
          [by apply (post_bridges _ _ _ _ P)|].
        apply elem_of_app in He as [He|He%list_elem_of_singleton];
          [by apply (post_bridges _ _ _ _ P)|]. subst e'.
        apply find_some in Hfind as [_ Hj].
        rewrite Hlv, (Hdk u (lp_u _ _ _ _ L)) in Hlt.
        apply (bridgeOf_intro g
                 (fun x => flag (Dfs.visited s1) x = true ∧
                           flag (Dfs.visited stk) x = false) u v e Hj).
        -- split; [apply (post_u _ _ _ _ P)|done].
        -- intros [_ Hu]. rewrite (lp_u _ _ _ _ L) in Hu. done.
        -- intros x y [Hx Hxk] Hl Hnot.
           assert (flag (Dfs.visited s1) y = true) as Hy1
             by (by apply (post_closed _ _ _ _ P x)).
           split; [done|]. destruct (flag (Dfs.visited stk) y) eqn:Hyk; [|done].
           exfalso.
           destruct (post_low_bound _ _ _ _ P x y Hx Hxk Hyk Hl) as [[-> Hp]|Hb].
           ++ cbn in Hp. rewrite lookup_insert_eq in Hp. injection Hp as <-.
              by apply Hnot.
           ++ cbn in Hb.
              destruct (pre_stack _ _ _ Hprek y Hyk) as [Hs|Hc].
              ** pose proof (stack_before_top onStack u st stk y Hpre L Hs). lia.
              ** apply linked_swap in Hl. apply Hc in Hl. congruence.
    + intros x Hx. rewrite Hvis. by apply (post_mono _ _ _ _ P).
    + rewrite Hvis. apply (post_u _ _ _ _ P).
    + intros Hold. apply (lp_mono _ _ _ _ L) in Hold. congruence.
Qed.

Lemma dfsVisit_bridges fuel : ∀ u isRoot onStack st st' res,
  dfsVisit adj (activeEdges g) fuel u isRoot st = Done (st', res) →
  flag (Dfs.visited st) u = false → dfsPre g onStack st →
  dfsPost g u st st'.
Proof.
  induction fuel as [|fuel IH]; intros u isRoot onStack st st' res H Hnew Hpre;
    [done|].
  cbn [dfsVisit] in H. destruct (adj !! u) as [ns|] eqn:Hns; [|done].
  apply bind_Done in H as ([[st2 c2] res2] & Hfold & H).
  assert (∀ v stk c r s' c' r',
    linked (edges g) u v →
    dfsNeighbor (fun v => dfsVisit adj (activeEdges g) fuel v false)
                (activeEdges g) u isRoot (Done (stk, c, r)) v = Done (s', c', r') →
    dfsLoop g u st stk →
    dfsLoop g u st s' ∧
    num (Dfs.lowTime s') u ≤ num (Dfs.lowTime stk) u ∧
    (∀ x, flag (Dfs.visited stk) x = true → flag (Dfs.visited s') x = true) ∧
    flag (Dfs.visited s') v = true ∧
    (flag (Dfs.visited st) v = true →
     Dfs.parent st !! u = Some v ∨
     num (Dfs.lowTime s') u ≤ num (Dfs.discoveryTime st) v)) as Hstep.
  { intros v stk c r s' c' r' Huv Hs L.
    apply (dfsNeighbor_loop (fun v => dfsVisit adj (activeEdges g) fuel v false)
                            onStack u isRoot st v stk c r s' c' r');
      [|done|done|done|done|done].
    intros s1 cres Hcall Hv.
    apply (IH v false (fun x => onStack x ∨ x = u) _ _ _ Hcall Hv).
    pose proof (dfsPre_loop onStack u st stk Hpre L) as Hprek.
    split; cbn; apply Hprek. }
  assert (∀ ms stk c r stl cl rl,
    (∀ v, v ∈ ms → linked (edges g) u v) →
    fold_left (dfsNeighbor (fun v => dfsVisit adj (activeEdges g) fuel v false)
                           (activeEdges g) u isRoot)
              ms (Done (stk, c, r)) = Done (stl, cl, rl) →
    dfsLoop g u st stk →
    dfsLoop g u st stl ∧
    num (Dfs.lowTime stl) u ≤ num (Dfs.lowTime stk) u ∧
    (∀ x, flag (Dfs.visited stk) x = true → flag (Dfs.visited stl) x = true) ∧
    ∀ v, v ∈ ms →
         flag (Dfs.visited stl) v = true ∧
         (flag (Dfs.visited st) v = true →
          Dfs.parent st !! u = Some v ∨
          num (Dfs.lowTime stl) u ≤ num (Dfs.discoveryTime st) v)) as Hloop.
  { induction ms as [|v ms IHms]; intros stk c r stl cl rl Hms Hf L.
    - injection Hf as <- _ _. repeat (split; [done|]).
      by intros v Hv%elem_of_nil.
    - cbn [fold_left] in Hf.
      destruct (dfsNeighbors_Done_acc _ _ _ _ _ _ _ Hf) as ([[s1 c1] r1] & Hs).
      rewrite Hs in Hf.
      destruct (Hstep v stk c r s1 c1 r1) as (L1 & Hlow1 & Hmono1 & Hv1 & Hb1);
        [apply Hms; by left|done|done|].
      destruct (IHms s1 c1 r1 stl cl rl) as (Ll & Hlowl & Hmonol & Hall);
        [intros w Hw; apply Hms; by right|done|done|].
      split; [done|]. split; [lia|]. split; [by auto|].
      intros w [->|Hw]%elem_of_cons; [|by apply Hall].
      split; [by apply Hmonol|]. intros Hold.
      destruct (Hb1 Hold) as [?|?]; [by left|right; lia]. }
  destruct (Hloop ns (Dfs.enter u st) 0 [EvVisiting u] st2 c2 res2)
    as (L & _ & _ & Hall).
  { intros v Hv. by apply (adj_sound g adj Hadj u ns). }
  { done. }
  { by apply (dfsLoop_enter onStack). }
  assert (dfsPost g u st st2) as P.
  { split.
    - apply (lp_mono _ _ _ _ L).
    - apply (lp_disc _ _ _ _ L).
    - apply (lp_low _ _ _ _ L).
    - apply (lp_parent _ _ _ _ L).
    - apply (lp_u _ _ _ _ L).
    - intros x Hx Hnx. destruct (decide (x = u)) as [->|Hne].
      + intros w Hw. apply (adj_complete g adj Hadj) in Hw as (ns' & Hns' & Hw).
        assert (ns' = ns) as -> by congruence. by apply Hall.
      + by apply (lp_closed _ _ _ _ L).
    - apply (lp_time _ _ _ _ L).
    - apply (lp_time_mono _ _ _ _ L).
    - intros x y Hx Hnx Hy Hl. destruct (decide (x = u)) as [->|Hne].
      + apply (adj_complete g adj Hadj) in Hl as (ns' & Hns' & Hw).
        assert (ns' = ns) as -> by congruence.
        destruct (Hall y Hw) as [_ [Hp|Hb]]; [done|by left|by right].
      + right. by apply (lp_low_bound _ _ _ _ L x y).
    - apply (lp_bridges _ _ _ _ L). }
  destruct (isRoot && (1 <? c2)); injection H as <- _; [|done].
  split.
  - apply (post_mono _ _ _ _ P).
  - apply (post_disc _ _ _ _ P).
  - apply (post_low _ _ _ _ P).
  - apply (post_parent _ _ _ _ P).
  - apply (post_u _ _ _ _ P).
  - apply (post_closed _ _ _ _ P).
  - apply (post_time _ _ _ _ P).
  - apply (post_time_mono _ _ _ _ P).
  - apply (post_low_bound _ _ _ _ P).
  - apply (post_bridges _ _ _ _ P).
Qed.
End dfs_bridges.

Lemma reachable_mono es es' u v :
  (∀ x y, linked es x y → linked es' x y) → reachable es u v → reachable es' u v.
Proof.
  intros Hsub. induction 1 as [|x y _ IH Hl]; [apply reach_refl|].
  apply reach_step with x; [done|by apply Hsub].
Qed.

Lemma linked_without_relabel f a b es x y :
  sameLink f → linked (without a b (map f es)) x y → linked (without a b es) x y.
Proof.
  intros Hf (e & [Hj He]%list_elem_of_filter & Hact & Hxy).
  apply (list_elem_of_fmap_1 _ _ _) in He as (e0 & -> & He0).
  rewrite (joins_relabel f) in Hj, Hxy by done.
  destruct (Hf e0) as (_ & _ & Ha). rewrite Ha in Hact.
  exists e0. split; [|done]. by apply list_elem_of_filter.
Qed.

Lemma linked_toggled a b es x y :
  (∀ e, e ∈ es → joins a b e = true → Edge.isActive e = true) →
  linked (map (fun edge => if joins a b edge then flip edge else edge) es) x y →
  linked (without a b es) x y.
Proof.
  intros Hact (e & He & Ha & Hxy).
  apply (list_elem_of_fmap_1 _ _ _) in He as (e0 & -> & He0).
  destruct (joins a b e0) eqn:Hj.
  - apply Hact in Hj; [|done]. cbn in Ha. rewrite Hj in Ha. done.
  - exists e0. split; [|done]. by apply list_elem_of_filter.
Qed.

Lemma analyze_bridges fuel g d log e :
  analyze fuel g = Done (d, log) → e ∈ Dfs.foundBridges d → bridgeOf g e.
Proof.
  unfold analyze. intros H. apply bind_Done in H as (adj & Hadj & H).
  apply buildAdjList_adjacency in Hadj.
  apply bind_Done in H as (start & _ & H).
  apply (dfsVisit_bridges g adj Hadj fuel start true (fun _ => False)) in H.
  - apply (post_bridges _ _ _ _ H).
  - done.
  - split; cbn; try done. by intros e' He'%elem_of_nil.
Qed.

(** The edges that [runDFS] marks as bridges are bridges: the two ends of a
    marked edge are different nodes, and once the edges that join them are
    taken away neither end can be reached from the other along active
    edges.  When every edge joining them is active (as when there is one
    only), what is left of the graph after [toggleEdge] on the marked edge
    has its two ends apart. *)
Theorem marked_bridges_are_bridges (fuel : nat) (st st' : State) (e : Edge.t) :
  runDFS fuel st = Done st' →
  e ∈ edges (graph st') → Edge.isBridge e = Some true →
  Edge.source e ≠ Edge.target e ∧
  ¬ reachable (without (Edge.source e) (Edge.target e) (edges (graph st')))
              (Edge.source e) (Edge.target e) ∧
  ((∀ e', e' ∈ edges (graph st') →
          joins (Edge.source e) (Edge.target e) e' = true →
          Edge.isActive e' = true) →
   ¬ reachable (edges (graph (toggleEdge (Edge.source e) (Edge.target e) st')))
               (Edge.source e) (Edge.target e)).
Proof.
  unfold runDFS. intros H He Hbr. apply bind_Done in H as ([d log] & Han & H).
  injection H as <-. cbn [graph nodes edges toggleEdge] in *.
  apply (list_elem_of_fmap_1 _ _ _) in He as (e0 & -> & He0).
  cbn in Hbr. injection Hbr as Hbr. cbn [markBridge Edge.source Edge.target].
  apply existsb_exists in Hbr as (b & Hb%list_elem_of_In & Hj).
  destruct (analyze_bridges fuel (graph st) d log b Han Hb) as (Hne & Hst & _).
  pose proof (markBridge_sameLink (Dfs.foundBridges d)) as Hsame.
  assert (¬ reachable (without (Edge.source e0) (Edge.target e0)
                               (map (markBridge (Dfs.foundBridges d))
                                    (edges (graph st))))
                      (Edge.source e0) (Edge.target e0)) as Hcut.
  { intros Hr.
    apply (reachable_mono _ (without (Edge.source e0) (Edge.target e0)
                                     (edges (graph st)))) in Hr;
      [|intros x y; by apply linked_without_relabel].
    apply joins_spec in Hj as [[Hs Ht]|[Hs Ht]]; rewrite <- Hs, <- Ht in Hr.
    - done.
    - rewrite without_swap in Hr. by apply reachable_sym in Hr. }
  split; [|split; [done|]].
  - apply joins_spec in Hj as [[<- <-]|[<- <-]]; [done|by apply not_eq_sym].
  - intros Hact Hr. apply Hcut. revert Hr. apply reachable_mono.
    intros x y. by apply linked_toggled.
Qed.

Lemma marked_bridges_are_bridges_witness :
  ∃ st' e,
    runDFS 13 initialState = Done st' ∧
    edges (graph st') !! 2 = Some e ∧ ends e = ("2", "3") ∧
    Edge.isBridge e = Some true ∧
    Edge.source e ≠ Edge.target e ∧
    ¬ reachable (without (Edge.source e) (Edge.target e) (edges (graph st')))
                (Edge.source e) (Edge.target e) ∧
    ((∀ e', e' ∈ edges (graph st') →
            joins (Edge.source e) (Edge.target e) e' = true →
            Edge.isActive e' = true) →
     ¬ reachable (edges (graph (toggleEdge (Edge.source e) (Edge.target e) st')))
                 (Edge.source e) (Edge.target e)).
Proof.
  destruct (runDFS 13 initialState) as [st'|err|] eqn:H;
    [|exfalso; revert H; vm_compute; discriminate
     |exfalso; revert H; vm_compute; discriminate].
  destruct (edges (graph st') !! 2) as [e|] eqn:He;
    [|exfalso; revert H He; vm_compute; intros [= <-]; discriminate].
  assert (ends e = ("2", "3") ∧ Edge.isBridge e = Some true) as [H1 H2].
  { revert H He. vm_compute. intros [= <-] [= <-]. split; reflexivity. }
  exists st', e. split; [reflexivity|]. split; [exact He|].
  split; [exact H1|]. split; [exact H2|].
  exact (marked_bridges_are_bridges 13 initialState st' e H
           (list_elem_of_lookup_2 _ 2 e He) H2).
Defined.

(** ** Every bridge is reported *)

Lemma linked_without_intro a b es x y :
  linked es x y → ¬ (x = a ∧ y = b) → ¬ (x = b ∧ y = a) →
  linked (without a b es) x y.
Proof.
  intros (e & He & Hact & Hxy) H1 H2. exists e. split; [|done].
  apply list_elem_of_filter. split; [|done].
  destruct (joins a b e) eqn:Hab; [|done]. exfalso.
  apply joins_spec in Hab, Hxy.
  destruct Hab as [[Ha Hb]|[Ha Hb]], Hxy as [[Hx Hy]|[Hx Hy]];
    (apply H1; split; congruence) || (apply H2; split; congruence).
Qed.

Lemma linkedIn_mono g (N N' : string → Prop) x y :
  (∀ z, N z → N' z) → rtc (linkedIn g N) x y → rtc (linkedIn g N') x y.
Proof.
  intros Hsub. apply rtc_subrel. intros a b (Hl & Ha & Hb).
  split; [done|]. split; by apply Hsub.
Qed.

(** A path through a set of nodes avoids the edges at a node outside it. *)
Lemma linkedIn_without g (N : string → Prop) a b x y :
  rtc (linkedIn g N) x y → ¬ N a →
  reachable (without a b (edges g)) x y ∧ reachable (without b a (edges g)) x y.
Proof.
  intros Hr Ha. rewrite (without_swap b a). split.
  all: revert y Hr; apply rtc_ind_r; [apply reach_refl|].
  all: intros z y _ (Hl & Hz & Hy) IH.
  all: apply reach_step with z; [done|].
  all: apply linked_without_intro; [done| |]; intros [-> ->]; done.
Qed.

Lemma settled_sym g found x y : settled g found x y → settled g found y x.
Proof.
  intros [(b & Hb & Hj)|Hr].
  - left. exists b. by rewrite joins_sym.
  - right. rewrite without_swap. by apply reachable_sym.
Qed.

Lemma settled_mono g found found' x y :
  (∀ e, e ∈ found → e ∈ found') → settled g found x y → settled g found' x y.
Proof. intros Hsub [(b & Hb & Hj)|Hr]; [left; exists b; auto|by right]. Qed.

Section dfs_complete.
Context (g : Graph) (adj : gmap string (list string)).
Hypothesis Hadj : adjacency g adj.

Lemma treeInv_enter u st :
  flag (Dfs.visited st) u = false →
  treeInv g u (fun x _ => x = u) st (Dfs.enter u st).
Proof.
  intros Hnew.
  assert (∀ x, newIn st (Dfs.enter u st) x → x = u) as Hu.
  { intros x [[->|Hx]%flag_insert_true Hnx]; [done|congruence]. }
  split.
  - intros x ->%Hu. apply rtc_refl.
  - intros x ->%Hu. cbn. rewrite num_insert_eq. lia.
  - left. cbn. by rewrite !num_insert_eq.
  - intros x y ->%Hu Hopen. by destruct Hopen.
  - done.
Qed.

(** The stack of a recursive call: the stack of the caller and the caller. *)
Lemma treePre_child onStack u v st stk :
  treePre g onStack u st → linked (edges g) u v →
  Dfs.parent stk !! u = Dfs.parent st !! u →
  treePre g (fun x => onStack x ∨ x = u) v (Dfs.setParent v u stk).
Proof.
  intros Htp Huv Hpar. split.
  - intros x Hx. exists u. split; [cbn; apply lookup_insert_eq|].
    destruct Hx as [Hon| ->]; [|apply rtc_refl].
    destruct (tp_stack _ _ _ _ Htp x Hon) as (p & Hp & Hr).
    destruct (tp_parent _ _ _ _ Htp p Hp) as [Hpon Hpl].
    eapply rtc_r; [eapply linkedIn_mono; [|exact Hr]; intros; by left|].
    split; [done|]. split; [by left|by right].
  - intros p Hp. cbn in Hp. rewrite lookup_insert_eq in Hp. injection Hp as <-.
    split; [by right|done].
Qed.

(** One iteration of the loop of [dfsVisit (u, _)], given what the recursive
    call does. *)
Lemma dfsNeighbor_tree visit onStack u isRoot st v stk c r s' c' r' :
  (∀ s1 cres,
     visit v (Dfs.setParent v u stk) = Done (s1, cres) →
     flag (Dfs.visited stk) v = false →
     dfsPost g v (Dfs.setParent v u stk) s1 ∧
     treeInv g v (fun x y => x = v ∧
                             Dfs.parent (Dfs.setParent v u stk) !! v = Some y)
             (Dfs.setParent v u stk) s1) →
  flag (Dfs.visited st) u = false → dfsPre g onStack st → treePre g onStack u st →
  linked (edges g) u v →
  dfsNeighbor visit (activeEdges g) u isRoot (Done (stk, c, r)) v
  = Done (s', c', r') →
  dfsLoop g u st stk → treeInv g u (fun x _ => x = u) st stk →
  treeInv g u (fun x _ => x = u) st s'.
Proof.
  intros Hvisit Hnew Hpre Htp Huv Hs L T.
  pose proof (dfsPre_loop g onStack u st stk Hpre L) as Hprek.
  pose proof (lp_u _ _ _ _ L) as Huk.
  apply dfsNeighbor_effect in Hs
    as [(Hv & [[Hp ->]|[Hp ->]])
       |(Hv & s1 & cres & Hcall & Hvis & Hdisc & Hlow & Hpar & Htime & Hbr)].
  - done.
  - (* a visited node other than the parent *)
    split.
    + apply (tr_tree _ _ _ _ _ T).
    + apply (tr_disc _ _ _ _ _ T).
    + cbn. rewrite num_insert_eq.
      destruct (Nat.min_spec (num (Dfs.lowTime stk) u) (num (Dfs.discoveryTime stk) v))
        as [[_ ->]|[_ ->]].
      * apply (tr_low _ _ _ _ _ T).
      * right. exists u, v. split; [by split|]. split; [done|]. split; [done|].
        split; [|done]. intros [_ Hpu]. unfold Dfs.isParent in Hp.
        rewrite (lp_parent _ _ _ _ L u) in Hp by (by right).
        rewrite Hpu, String.eqb_refl in Hp. done.
    + apply (tr_settled _ _ _ _ _ T).
    + apply (tr_found _ _ _ _ _ T).
  - (* an unvisited node: the recursive call *)
    destruct (Hvisit s1 cres Hcall Hv) as [P T1].
    assert (u ≠ v) as Hne by (by apply (flag_false_ne (Dfs.visited stk))).
    assert (∀ x, newIn st s' x ↔
                 newIn st stk x ∨ newIn (Dfs.setParent v u stk) s1 x) as HN.
    { intros x. unfold newIn. rewrite Hvis. cbn. split.
      - intros [Hx Hnx]. destruct (flag (Dfs.visited stk) x) eqn:E; [left|right]; done.
      - intros [[Hx Hnx]|[Hx Hnx]]; (split; [|]); try done.
        + by apply (post_mono _ _ _ _ P).
        + destruct (flag (Dfs.visited st) x) eqn:E; [|done].
          apply (lp_mono _ _ _ _ L) in E. congruence. }
    assert (∀ x, newIn st stk x → newIn st s' x) as Hsub1
      by (intros x Hx; apply HN; by left).
    assert (∀ x, newIn (Dfs.setParent v u stk) s1 x → newIn st s' x) as Hsub2
      by (intros x Hx; apply HN; by right).
    assert (∀ x, num (Dfs.discoveryTime s') x = num (Dfs.discoveryTime s1) x) as Hd1
      by (intros x; by rewrite Hdisc).
    assert (∀ x, flag (Dfs.visited stk) x = true →
                 num (Dfs.discoveryTime s') x = num (Dfs.discoveryTime stk) x) as Hds.
    { intros x Hx. rewrite Hd1. by apply (post_disc _ _ _ _ P). }
    assert (num (Dfs.lowTime s') u
            = Nat.min (num (Dfs.lowTime stk) u) (num (Dfs.lowTime s1) v)) as Hlu.
    { rewrite Hlow, num_insert_eq. by rewrite (post_low _ _ _ _ P u Huk). }
    assert (num (Dfs.lowTime s') v = num (Dfs.lowTime s1) v) as Hlv
      by (by rewrite Hlow, num_insert_ne).
    assert (∀ e, e ∈ Dfs.foundBridges s1 → e ∈ Dfs.foundBridges s') as Hfound1.
    { intros e He. destruct Hbr as [[-> _]|(e' & _ & _ & ->)]; [done|].
      apply elem_of_app. by left. }
    assert (∀ e, e ∈ Dfs.foundBridges stk → e ∈ Dfs.foundBridges s1) as Hfoundk
      by apply (tr_found _ _ _ _ _ T1).
    assert (¬ newIn (Dfs.setParent v u stk) s1 u) as Hnu.
    { intros [_ Hu]. cbn in Hu. congruence. }
    split.
    + intros x [Hx|Hx]%HN.
      * eapply linkedIn_mono; [exact Hsub1|by apply (tr_tree _ _ _ _ _ T)].
      * apply rtc_l with v.
        -- split; [done|]. split; [by apply Hsub1|].
           apply Hsub2. split; [apply (post_u _ _ _ _ P)|done].
        -- eapply linkedIn_mono; [exact Hsub2|by apply (tr_tree _ _ _ _ _ T1)].
    + intros x [Hx|Hx]%HN.
      * rewrite Hds by apply Hx. by apply (tr_disc _ _ _ _ _ T).
      * rewrite Hd1. pose proof (tr_disc _ _ _ _ _ T1 x Hx) as H1. cbn in H1.
        pose proof (lp_time_mono _ _ _ _ L). lia.
    + rewrite Hlu.
      destruct (Nat.min_spec (num (Dfs.lowTime stk) u) (num (Dfs.lowTime s1) v))
        as [[_ ->]|[_ ->]].
      * destruct (tr_low _ _ _ _ _ T) as [Heq|(x & y & Hx & Hy & Hl & Hnp & Heq)].
        -- left. by rewrite Hds.
        -- right. exists x, y. split; [by apply Hsub1|].
           split; [rewrite Hvis; by apply (post_mono _ _ _ _ P)|].
           split; [done|]. split; [done|]. by rewrite Hds.
      * right.
        destruct (tr_low _ _ _ _ _ T1) as [Heq|(x & y & Hx & Hy & Hl & Hnp & Heq)].
        -- exists u, v. split; [by apply Hsub1|].
           split; [rewrite Hvis; apply (post_u _ _ _ _ P)|]. split; [done|].
           split; [|by rewrite Hd1].
           intros [_ Hp]. apply (tp_parent _ _ _ _ Htp) in Hp as [Hon _].
           apply (pre_stack_visited _ _ _ Hpre), (lp_mono _ _ _ _ L) in Hon.
           congruence.
        -- exists x, y. split; [by apply Hsub2|]. split; [by rewrite Hvis|].
           split; [done|]. split; [|by rewrite Hd1].
           intros [-> _]. done.
    + intros x y [Hx|Hx]%HN Hxu Hl Hxy.
      * apply (settled_mono g (Dfs.foundBridges stk)); [by auto|].
        by apply (tr_settled _ _ _ _ _ T).
      * destruct (decide (x = v ∧ y = u)) as [[-> ->]|Hnot].
        -- (* the edge to the new child *)
           destruct Hbr as [[Hbr [Hle|Hnone]]|(e & Hlt & Hfind & Hbr)].
           ++ right. rewrite Hlv, (Hds u Huk) in Hle.
              pose proof (tr_disc _ _ _ _ _ T1 v Hx) as Hdv. cbn in Hdv.
              pose proof (lp_time _ _ _ _ L u Huk) as Hdu.
              destruct (tr_low _ _ _ _ _ T1)
                as [Heq|(x' & y' & Hx' & Hy' & Hl' & Hnp & Heq)]; [lia|].
              assert (flag (Dfs.visited stk) y' = true) as Hyk.
              { destruct (flag (Dfs.visited stk) y') eqn:E; [done|].
                pose proof (tr_disc _ _ _ _ _ T1 y' (conj Hy' E)) as Hd.
                cbn in Hd. lia. }
              assert (onStack y' ∨ y' = u) as Hstack.
              { destruct (pre_stack _ _ _ Hprek y' Hyk) as [?|Hc]; [done|].
                apply linked_swap in Hl'. apply Hc in Hl'.
                destruct Hx' as [_ Hx']. cbn in Hx'. congruence. }
              apply reachable_trans with x'.
              { by destruct (linkedIn_without g _ u v v x'
                               (tr_tree _ _ _ _ _ T1 x' Hx') Hnu) as [_ ?]. }
              apply reachable_trans with y'.
              { apply reach_step with x'; [apply reach_refl|].
                apply linked_without_intro; [done| |].
                - intros [-> ->]. apply Hnp. split; [done|].
                  cbn. apply lookup_insert_eq.
                - intros [-> _]. done. }
              assert (rtc (linkedIn g (fun z => onStack z ∨ z = u)) y' u) as Hr.
              { destruct Hstack as [Hon| ->]; [|apply rtc_refl].
                destruct (tp_stack _ _ _ _ Htp y' Hon) as (p & Hp & Hr).
                destruct (tp_parent _ _ _ _ Htp p Hp) as [Hpon Hpl].
                eapply rtc_r; [eapply linkedIn_mono; [|exact Hr]; intros; by left|].
                split; [done|]. split; [by left|by right]. }
              apply (linkedIn_without g _ v u) in Hr as [Hr _]; [done|].
              intros [Hon| ->]; [|done].
              apply (pre_stack_visited _ _ _ Hpre), (lp_mono _ _ _ _ L) in Hon.
              congruence.
           ++ exfalso. destruct Huv as (e & He & Hact & Hj).
              pose proof (find_none _ _ Hnone e) as Hf. rewrite Hj in Hf.
              discriminate Hf. apply list_elem_of_In, elem_of_activeEdges. done.
           ++ left. exists e. split.
              ** rewrite Hbr. apply elem_of_app. right. by left.
              ** apply find_some in Hfind as [_ Hj]. by rewrite joins_sym.
        -- apply (settled_mono g (Dfs.foundBridges s1)); [done|].
           apply (tr_settled _ _ _ _ _ T1); try done.
           intros [-> Hp]. apply Hnot. split; [done|]. cbn in Hp.
           rewrite lookup_insert_eq in Hp. by injection Hp.
    + intros e He. by apply Hfound1, Hfoundk, (tr_found _ _ _ _ _ T).
Qed.
Lemma dfsVisit_settles fuel : ∀ u isRoot onStack st st' res,
  dfsVisit adj (activeEdges g) fuel u isRoot st = Done (st', res) →
  flag (Dfs.visited st) u = false → dfsPre g onStack st → treePre g onStack u st →
  treeInv g u (fun x y => x = u ∧ Dfs.parent st !! u = Some y) st st'.
Proof.
  induction fuel as [|fuel IH];
    intros u isRoot onStack st st' res H Hnew Hpre Htp; [done|].
  cbn [dfsVisit] in H. destruct (adj !! u) as [ns|] eqn:Hns; [|done].
  apply bind_Done in H as ([[st2 c2] res2] & Hfold & H).
  assert (∀ v stk s1 cres,
    dfsLoop g u st stk → linked (edges g) u v →
    dfsVisit adj (activeEdges g) fuel v false (Dfs.setParent v u stk)
    = Done (s1, cres) →
    flag (Dfs.visited stk) v = false →
    dfsPost g v (Dfs.setParent v u stk) s1 ∧
    treeInv g v (fun x y => x = v ∧
                            Dfs.parent (Dfs.setParent v u stk) !! v = Some y)
            (Dfs.setParent v u stk) s1) as Hcall.
  { intros v stk s1 cres L Huv Hc Hv.
    pose proof (dfsPre_loop g onStack u st stk Hpre L) as Hprek.
    assert (dfsPre g (fun x => onStack x ∨ x = u) (Dfs.setParent v u stk)) as Hpre1.
    { split; cbn; apply Hprek. }
    split.
    - by apply (dfsVisit_bridges g adj Hadj fuel v false
                  (fun x => onStack x ∨ x = u) _ _ _ Hc).
    - apply (IH v false (fun x => onStack x ∨ x = u) _ _ _ Hc); [done|done|].
      apply (treePre_child onStack u v st stk); [done|done|].
      apply (lp_parent _ _ _ _ L). by right. }
  assert (∀ ms stk c r stl cl rl,
    (∀ v, v ∈ ms → linked (edges g) u v) →
    fold_left (dfsNeighbor (fun v => dfsVisit adj (activeEdges g) fuel v false)
                           (activeEdges g) u isRoot)
              ms (Done (stk, c, r)) = Done (stl, cl, rl) →
    dfsLoop g u st stk → treeInv g u (fun x _ => x = u) st stk →
    dfsLoop g u st stl ∧ treeInv g u (fun x _ => x = u) st stl ∧
    (∀ x, flag (Dfs.visited stk) x = true → flag (Dfs.visited stl) x = true) ∧
    ∀ v, v ∈ ms → flag (Dfs.visited stl) v = true) as Hloop.
  { induction ms as [|v ms IHms]; intros stk c r stl cl rl Hms Hf L T.
    - injection Hf as <- _ _. repeat (split; [done|]).
      by intros v Hv%elem_of_nil.
    - cbn [fold_left] in Hf.
      destruct (dfsNeighbors_Done_acc _ _ _ _ _ _ _ Hf) as ([[s1 c1] r1] & Hs).
      rewrite Hs in Hf.
      assert (linked (edges g) u v) as Huv by (apply Hms; by left).
      destruct (dfsNeighbor_loop g
                  (fun v => dfsVisit adj (activeEdges g) fuel v false)
                  onStack u isRoot st v stk c r s1 c1 r1)
        as (L1 & _ & Hmono1 & Hv1 & _); [|done|done|done|done|done|].
      { intros s0 cres Hc Hv. by apply (Hcall v stk s0 cres). }
      pose proof (dfsNeighbor_tree
                    (fun v => dfsVisit adj (activeEdges g) fuel v false)
                    onStack u isRoot st v stk c r s1 c1 r1) as T1.
      destruct (IHms s1 c1 r1 stl cl rl) as (Ll & Tl & Hmonol & Hall);
        [intros w Hw; apply Hms; by right|done|done| |].
      { apply T1; try done. intros s0 cres Hc Hv. by apply (Hcall v stk s0 cres). }
      split; [done|]. split; [done|]. split; [by auto|].
      intros w [->|Hw]%elem_of_cons; [by apply Hmonol|by apply Hall]. }
  destruct (Hloop ns (Dfs.enter u st) 0 [EvVisiting u] st2 c2 res2)
    as (L & T & _ & Hall).
  { intros v Hv. by apply (adj_sound g adj Hadj u ns). }
  { done. }
  { by apply (dfsLoop_enter g onStack). }
  { by apply treeInv_enter. }
  assert (treeInv g u (fun x y => x = u ∧ Dfs.parent st !! u = Some y) st st2) as P.
  { split.
    - apply (tr_tree _ _ _ _ _ T).
    - apply (tr_disc _ _ _ _ _ T).
    - apply (tr_low _ _ _ _ _ T).
    - intros x y Hx Hopen Hl Hxy. destruct (decide (x = u)) as [->|Hne];
        [|by apply (tr_settled _ _ _ _ _ T)].
      assert (flag (Dfs.visited st2) y = true) as Hy2.
      { apply (adj_complete g adj Hadj) in Hl as (ns' & Hns' & Hw).
        assert (ns' = ns) as -> by congruence. by apply Hall. }
      destruct (flag (Dfs.visited st) y) eqn:Hy.
      + (* a node of the stack other than the parent *)
        destruct (pre_stack _ _ _ Hpre y Hy) as [Hon|Hc];
          [|apply linked_swap, Hc in Hl; congruence].
        destruct (tp_stack _ _ _ _ Htp y Hon) as (p & Hp & Hr).
        destruct (tp_parent _ _ _ _ Htp p Hp) as [Hpon Hpl].
        assert (¬ onStack u) as Hnu.
        { intros Hu%(pre_stack_visited _ _ _ Hpre). congruence. }
        right. apply reachable_sym, reach_step with p.
        * by destruct (linkedIn_without g _ u y y p Hr Hnu) as [? _].
        * apply linked_without_intro; [done| |].
          -- intros [-> _]. done.
          -- intros [-> _]. apply Hopen. by split.
      + apply settled_sym.
        apply (tr_settled _ _ _ _ _ T y u);
          [by split|cbn; congruence|by apply linked_swap|congruence].
    - apply (tr_found _ _ _ _ _ T). }
  destruct (isRoot && (1 <? c2)); injection H as <- _; [|done].
  split.
  - apply (tr_tree _ _ _ _ _ P).
  - apply (tr_disc _ _ _ _ _ P).
  - apply (tr_low _ _ _ _ _ P).
  - apply (tr_settled _ _ _ _ _ P).
  - apply (tr_found _ _ _ _ _ P).
Qed.
End dfs_complete.

(** When the analysis returns, every link of a node it has visited is
    settled. *)
Lemma analyze_settles fuel g d log x y :
  analyze fuel g = Done (d, log) →
  flag (Dfs.visited d) x = true → linked (edges g) x y → x ≠ y →
  settled g (Dfs.foundBridges d) x y.
Proof.
  unfold analyze. intros H Hx Hl Hxy. apply bind_Done in H as (adj & Hadj & H).
  apply buildAdjList_adjacency in Hadj.
  apply bind_Done in H as (start & _ & H).
  apply (dfsVisit_settles g adj Hadj fuel start true (fun _ => False)) in H.
  - apply (tr_settled _ _ _ _ _ H x y); try done. by intros [_ ?].
  - done.
  - split; cbn; try done. by intros e' He'%elem_of_nil.
  - split; cbn; done.
Qed.

Lemma analyze_visited fuel g d log start v :
  analyze fuel g = Done (d, log) → firstNodeId g = Done start →
  reachable (edges g) start v → flag (Dfs.visited d) v = true.
Proof.
  intros H Hstart Hr.
  apply analyze_spec in H as (start' & Hstart' & _ & _ & Hg & Hs & _).
  assert (start' = start) as -> by congruence.
  induction Hr as [|u w _ IH Hl]; [done|].
  by apply (grows_closed _ _ _ Hg u w).
Qed.

Lemma bridgeOf_joins g b e :
  joins (Edge.source e) (Edge.target e) b = true → bridgeOf g b → bridgeOf g e.
Proof.
  intros Hj (Hne & H1 & H2). unfold bridgeOf.
  apply joins_spec in Hj as [[Hs Ht]|[Hs Ht]]; rewrite Hs, Ht in Hne, H1, H2.
  - done.
  - rewrite without_swap. split; [by apply not_eq_sym|]. by split.
Qed.

(** On a graph whose nodes have ordinary ids, among the active edges of
    the component of the first node, [runDFS] marks the bridges and nothing
    else: the edge in the same place of the new graph has [isBridge] set
    exactly when the two ends of the edge are different nodes that are no
    longer connected once the edges joining them are taken away.  (A node
    named after a member of [Object.prototype] is never entered, and the
    bridges towards it are not reported.) *)
Theorem runDFS_marks_exactly_the_bridges (fuel : nat) (st st' : State)
    (start : string) (i : nat) (e : Edge.t) :
  ordinaryIds (graph st) →
  runDFS fuel st = Done st' →
  firstNodeId (graph st) = Done start →
  edges (graph st) !! i = Some e → Edge.isActive e = true →
  reachable (edges (graph st)) start (Edge.source e) →
  ∃ e', edges (graph st') !! i = Some e' ∧ ends e' = ends e ∧
        (Edge.isBridge e' = Some true ↔ bridgeOf (graph st) e).
Proof.
  unfold runDFS. intros _ H Hstart Hi Hact Hreach.
  apply bind_Done in H as ([d log] & Han & H). injection H as <-.
  cbn [graph nodes edges].
  exists (markBridge (Dfs.foundBridges d) e).
  split; [by rewrite list_lookup_fmap, Hi|]. split; [done|].
  cbn [markBridge Edge.isBridge]. split.
  - intros [= Hex]. apply existsb_exists in Hex as (b & Hb%list_elem_of_In & Hj).
    apply (bridgeOf_joins _ b); [done|]. by apply (analyze_bridges fuel _ d log).
  - intros (Hne & Hcut & _). f_equal. apply existsb_exists.
    assert (linked (edges (graph st)) (Edge.source e) (Edge.target e)) as Hl.
    { exists e. split; [by apply list_elem_of_lookup_2 with i|]. split; [done|].
      apply joins_spec. by left. }
    destruct (analyze_settles fuel (graph st) d log _ _ Han
                (analyze_visited fuel _ d log start _ Han Hstart Hreach) Hl Hne)
      as [(b & Hb%list_elem_of_In & Hj)|Hr]; [by exists b|done].
Qed.

Lemma runDFS_marks_exactly_the_bridges_witness :
  ordinaryIds (graph initialState) ∧
  ∃ st' e,
    runDFS 13 initialState = Done st' ∧
    firstNodeId (graph initialState) = Done "1" ∧
    edges (graph initialState) !! 0 = Some e ∧ Edge.isActive e = true ∧
    reachable (edges (graph initialState)) "1" (Edge.source e) ∧
    ∃ e', edges (graph st') !! 0 = Some e' ∧ ends e' = ends e ∧
          (Edge.isBridge e' = Some true ↔ bridgeOf (graph initialState) e).
Proof.
  destruct (runDFS 13 initialState) as [st'|err|] eqn:H;
    [|exfalso; revert H; vm_compute; discriminate
     |exfalso; revert H; vm_compute; discriminate].
  destruct (edges (graph initialState) !! 0) as [e|] eqn:He;
    [|exfalso; revert He; vm_compute; discriminate].
  assert (firstNodeId (graph initialState) = Done "1") as H1 by reflexivity.
  assert (Edge.isActive e = true ∧ Edge.source e = "1") as [H2 H3].
  { revert He. vm_compute. intros [= <-]. split; reflexivity. }
  assert (reachable (edges (graph initialState)) "1" (Edge.source e)) as H4.
  { rewrite H3. apply reach_refl. }
  split; [exact initialGraph_ordinary|].
  exists st', e. split; [reflexivity|]. split; [exact H1|].
  split; [reflexivity|]. split; [exact H2|]. split; [exact H4|].
  exact (runDFS_marks_exactly_the_bridges 13 initialState st' "1" 0 e
           initialGraph_ordinary H H1 He H2 H4).
Defined.

(** ** The articulation points reported are the cut nodes *)

Lemma linked_avoiding u es x y :
  linked (avoiding u es) x y ↔ linked es x y ∧ x ≠ u ∧ y ≠ u.
Proof.
  split.
  - intros (e & [[Hs Ht] He]%list_elem_of_filter & Hact & Hj).
    split; [by exists e|].
    apply joins_spec in Hj as [[<- <-]|[<- <-]]; done.
  - intros ((e & He & Hact & Hj) & Hx & Hy). exists e. split; [|done].
    apply list_elem_of_filter. split; [|done].
    apply joins_spec in Hj as [[-> ->]|[-> ->]]; done.
Qed.

Lemma linkedIn_sym g (N : string → Prop) x y :
  rtc (linkedIn g N) x y → rtc (linkedIn g N) y x.
Proof.
  induction 1 as [|x z y (Hl & Hx & Hz) _ IH]; [apply rtc_refl|].
  eapply rtc_r; [exact IH|]. split; [by apply linked_swap|done].
Qed.

(** A path through a set of nodes avoids a node outside it. *)
Lemma linkedIn_avoiding g (N : string → Prop) w x y :
  rtc (linkedIn g N) x y → ¬ N w → reachable (avoiding w (edges g)) x y.
Proof.
  intros Hr Hw. revert y Hr. apply rtc_ind_r; [apply reach_refl|].
  intros z y _ (Hl & Hz & Hy) IH. apply reach_step with z; [done|].
  apply linked_avoiding. split; [done|]. split; intros ->; done.
Qed.

(** A set of nodes that only links to [u] leave, with a neighbour of [u]
    in it and another outside, makes [u] a cut node. *)
Lemma cutNode_intro g (F : string → Prop) u a b :
  linked (edges g) u a → linked (edges g) u b → a ≠ u → b ≠ u →
  F a → ¬ F b →
  (∀ x y, F x → linked (edges g) x y → y ≠ u → F y) →
  cutNode g u.
Proof.
  intros Ha Hb Hau Hbu HFa HFb Hclosed. exists a, b.
  repeat (split; [done || (apply reach_step with u; [apply reach_refl|done])|]).
  intros Hr. apply HFb. clear Hb Hbu HFb.
  induction Hr as [|x y _ IH Hl]; [done|].
  apply linked_avoiding in Hl as (Hl & _ & Hy). by apply (Hclosed x y).
Qed.

Lemma dfsNeighbor_points visit active u isRoot st c res v st' c' res' :
  dfsNeighbor visit active u isRoot (Done (st, c, res)) v = Done (st', c', res') →
  (flag (Dfs.visited st) v = true ∧ c' = c ∧
   Dfs.foundArticulationPoints st' = Dfs.foundArticulationPoints st) ∨
  (flag (Dfs.visited st) v = false ∧
   ∃ s1 childResults,
     visit v (Dfs.setParent v u st) = Done (s1, childResults) ∧
     c' = S c ∧
     ((Dfs.foundArticulationPoints st' = Dfs.foundArticulationPoints s1 ∧
       (isRoot = true ∨
        num (Dfs.lowTime st') v < num (Dfs.discoveryTime st') u)) ∨
      (isRoot = false ∧
       num (Dfs.discoveryTime st') u ≤ num (Dfs.lowTime st') v ∧
       Dfs.foundArticulationPoints st' = {[u]} ∪ Dfs.foundArticulationPoints s1))).
Proof.
  unfold dfsNeighbor. cbn [mbind Outcome_bind].
  destruct (flag (Dfs.visited st) v) eqn:E; cbn [negb].
  - intros H. left. split; [done|].
    destruct (Dfs.isParent st u v); cbn [negb] in H; by injection H as <- <- _.
  - intros H. right. split; [done|].
    destruct (visit v (Dfs.setParent v u st)) as [[s1 cres]|e|]; [|done|done].
    exists s1, cres. split; [done|]. cbn [mbind Outcome_bind] in H.
    destruct isRoot; cbn [negb andb] in H.
    + destruct (_ <? _); injection H as <- <- _; (split; [done|]); left;
        (split; [|by left]);
        try (destruct (find (joins u v) active)); done.
    + destruct (_ <=? _) eqn:Hle;
        first [apply Nat.leb_le in Hle | apply Nat.leb_gt in Hle];
        cbn in Hle;
        destruct (_ <? _); injection H as <- <- _; (split; [done|]);
        try (destruct (find (joins u v) active)); cbn;
        first [ by (right; split; [|split])
              | by (left; split; [|right]) ].
Qed.

Section dfs_points.
Context (g : Graph) (adj : gmap string (list string)).
Hypothesis Hadj : adjacency g adj.

Lemma apInv_enter onStack u isRoot st :
  flag (Dfs.visited st) u = false → apPre g onStack u isRoot st →
  apInv g onStack u isRoot st (Dfs.enter u st) ∧ apCount g u 0 st (Dfs.enter u st).
Proof.
  intros Hnew Hpre.
  assert (∀ x, newIn st (Dfs.enter u st) x → x = u) as Hu.
  { intros x [[->|Hx]%flag_insert_true Hnx]; [done|congruence]. }
  split; split.
  - done.
  - apply (app_sound _ _ _ _ _ Hpre).
  - intros w a ->%Hu. done.
  - intros a _ _ ->%Hu. done.
  - intros _. exact Hu.
  - intros _ a b ->%Hu. done.
  - lia.
  - lia.
Qed.

(** One iteration of the loop of [dfsVisit (u, isRoot)], given what the
    recursive call does. *)
Lemma dfsNeighbor_cut visit onStack u isRoot st v stk c r s' c' r' :
  (∀ s1 cres,
     visit v (Dfs.setParent v u stk) = Done (s1, cres) →
     flag (Dfs.visited stk) v = false →
     dfsPost g v (Dfs.setParent v u stk) s1 ∧
     treeInv g v (fun x y => x = v ∧
                             Dfs.parent (Dfs.setParent v u stk) !! v = Some y)
             (Dfs.setParent v u stk) s1 ∧
     apInv g (fun x => onStack x ∨ x = u) v false (Dfs.setParent v u stk) s1) →
  flag (Dfs.visited st) u = false →
  dfsPre g onStack st → treePre g onStack u st → apPre g onStack u isRoot st →
  linked (edges g) u v →
  dfsNeighbor visit (activeEdges g) u isRoot (Done (stk, c, r)) v
  = Done (s', c', r') →
  dfsLoop g u st stk → treeInv g u (fun x _ => x = u) st stk →
  apInv g onStack u isRoot st stk → (isRoot = true → apCount g u c st stk) →
  apInv g onStack u isRoot st s' ∧ (isRoot = true → apCount g u c' st s').
Proof.
  intros Hvisit Hnew Hpre Htp Hap Huv Hs L T A C.
  pose proof (dfsPre_loop g onStack u st stk Hpre L) as Hprek.
  pose proof (lp_u _ _ _ _ L) as Huk.
  pose proof Hs as Hs'.
  apply dfsNeighbor_points in Hs'
    as [(Hv & -> & Haps)|(Hv & s1 & cres & Hcall & -> & Haps)].
  - (* a visited node *)
    apply dfsNeighbor_effect in Hs as [(_ & Hst)|(Hv' & _)]; [|congruence].
    assert (Dfs.visited s' = Dfs.visited stk) as Hvis
      by (by destruct Hst as [[_ ->]|[_ ->]]).
    assert (∀ x, newIn st s' x ↔ newIn st stk x) as HN
      by (intros x; unfold newIn; by rewrite Hvis).
    split.
    + split; rewrite ?Haps.
      * apply (ap_found _ _ _ _ _ _ A).
      * apply (ap_sound _ _ _ _ _ _ A).
      * intros w a Hw%HN Ha%HN. by apply (ap_inner _ _ _ _ _ _ A).
      * intros a Hr Hu Ha%HN. by apply (ap_top _ _ _ _ _ _ A).
    + intros Hroot. specialize (C Hroot). split.
      * intros Hc a Ha%HN. by apply (apc_none _ _ _ _ _ C).
      * intros Hc a b Ha%HN Hb%HN. by apply (apc_one _ _ _ _ _ C).
      * intros Hc. destruct (apc_iso _ _ _ _ _ C Hc) as (v1 & F & ? & ? & ? & HF & ?).
        exists v1, F. repeat (split; [done|]). split; [|done].
        intros x Hx. rewrite Hvis. by apply HF.
      * apply (apc_cut _ _ _ _ _ C).
  - (* an unvisited node: the recursive call *)
    destruct (Hvisit s1 cres Hcall Hv) as (P & T1 & A1).
    apply dfsNeighbor_effect in Hs
      as [(Hv' & _)
         |(_ & s1' & cres' & Hcall' & Hvis & Hdisc & Hlow & Hpar & Htime & Hbr)];
      [congruence|].
    assert (s1' = s1) as -> by congruence. clear Hcall' cres' Hbr.
    assert (u ≠ v) as Hne by (by apply (flag_false_ne (Dfs.visited stk))).
    assert (∀ x, newIn st s' x ↔
                 newIn st stk x ∨ newIn (Dfs.setParent v u stk) s1 x) as HN.
    { intros x. unfold newIn. rewrite Hvis. cbn. split.
      - intros [Hx Hnx]. destruct (flag (Dfs.visited stk) x) eqn:E; [left|right]; done.
      - intros [[Hx Hnx]|[Hx Hnx]]; (split; [|]); try done.
        + by apply (post_mono _ _ _ _ P).
        + destruct (flag (Dfs.visited st) x) eqn:E; [|done].
          apply (lp_mono _ _ _ _ L) in E. congruence. }
    assert (∀ x, flag (Dfs.visited stk) x = true →
                 num (Dfs.discoveryTime s') x = num (Dfs.discoveryTime stk) x) as Hds.
    { intros x Hx. rewrite Hdisc. by apply (post_disc _ _ _ _ P). }
    assert (num (Dfs.lowTime s') v = num (Dfs.lowTime s1) v) as Hlv
      by (by rewrite Hlow, num_insert_ne).
    assert (newIn (Dfs.setParent v u stk) s1 v) as Hvn
      by (split; [apply (post_u _ _ _ _ P)|done]).
    assert (¬ newIn (Dfs.setParent v u stk) s1 u) as Hnu.
    { intros [_ Hu]. cbn in Hu. congruence. }
    assert (newIn st stk u) as Hun by (by split).
    assert (∀ a, a ∈ Dfs.foundArticulationPoints s1 →
                 a ∈ Dfs.foundArticulationPoints s') as Hfound1.
    { intros a Ha. destruct Haps as [[-> _]|(_ & _ & ->)]; [done|].
      apply elem_of_union. by right. }
    assert (∀ a, a ∈ Dfs.foundArticulationPoints stk →
                 a ∈ Dfs.foundArticulationPoints s1) as Hfoundk
      by apply (ap_found _ _ _ _ _ _ A1).
    (* the nodes of the stack hang together *)
    assert (∀ y, onStack y ∨ y = u →
                 rtc (linkedIn g (fun z => onStack z ∨ z = u)) y u) as Hstack.
    { intros y [Hon| ->]; [|apply rtc_refl].
      destruct (tp_stack _ _ _ _ Htp y Hon) as (p & Hp & Hr).
      destruct (tp_parent _ _ _ _ Htp p Hp) as [Hpon Hpl].
      eapply rtc_r; [eapply linkedIn_mono; [|exact Hr]; intros; by left|].
      split; [done|]. split; [by left|by right]. }
    assert (∀ y, onStack y ∨ y = u → flag (Dfs.visited stk) y = true) as Hstackv.
    { intros y [Hon| ->]; [|done].
      by apply (lp_mono _ _ _ _ L), (pre_stack_visited _ _ _ Hpre). }
    (* a link that leaves the new subtree goes to the stack *)
    assert (∀ x y, newIn (Dfs.setParent v u stk) s1 x → linked (edges g) x y →
                   newIn (Dfs.setParent v u stk) s1 y ∨
                   (flag (Dfs.visited stk) y = true ∧ (onStack y ∨ y = u) ∧
                    (y = u ∨ num (Dfs.lowTime s1) v
                             ≤ num (Dfs.discoveryTime stk) y))) as Hout.
    { intros x y Hx Hl.
      assert (flag (Dfs.visited s1) y = true) as Hy1
        by (by apply (post_closed _ _ _ _ P x); [apply Hx|apply Hx|]).
      destruct (flag (Dfs.visited stk) y) eqn:Hyk; [right|left; by split].
      split; [done|].
      assert (onStack y ∨ y = u) as Hys.
      { destruct (pre_stack _ _ _ Hprek y Hyk) as [?|Hc]; [done|].
        apply linked_swap, Hc in Hl. destruct Hx as [_ Hx]. cbn in Hx. congruence. }
      split; [done|].
      destruct (post_low_bound _ _ _ _ P x y) as [[_ Hp]|Hb];
        [apply Hx|apply Hx|done|done| |by right].
      cbn in Hp. rewrite lookup_insert_eq in Hp. left. by injection Hp. }
    split.
    + split.
      * intros a Ha. by apply Hfound1, Hfoundk, (ap_found _ _ _ _ _ _ A).
      * intros a Ha.
        destruct Haps as [[Haps _]|(Hroot & Hle & Haps)]; rewrite Haps in Ha;
          [by apply (ap_sound _ _ _ _ _ _ A1)|].
        apply elem_of_union in Ha as [->%elem_of_singleton|Ha];
          [|by apply (ap_sound _ _ _ _ _ _ A1)].
        (* [u] is reported: the subtree of [v] is cut off from [parent[u]] *)
        destruct (app_parent _ _ _ _ _ Hap Hroot) as [p Hp].
        destruct (tp_parent _ _ _ _ Htp p Hp) as [Hpon Hpl].
        assert (flag (Dfs.visited st) p = true) as Hpv
          by (by apply (pre_stack_visited _ _ _ Hpre)).
        apply (cutNode_intro g (newIn (Dfs.setParent v u stk) s1) u v p);
          [done|by apply linked_swap|by apply not_eq_sym|congruence|done| |].
        -- intros [_ Hpn]. cbn in Hpn. apply (lp_mono _ _ _ _ L) in Hpv. congruence.
        -- intros x y Hx Hl Hyu.
           destruct (Hout x y Hx Hl) as [?|(Hyk & [Hon|?] & [?|Hb])]; try done.
           rewrite Hlv, (Hds u Huk) in Hle.
           apply (pre_stack_visited _ _ _ Hpre) in Hon as Hyv.
           rewrite (lp_disc _ _ _ _ L y Hyv) in Hb.
           rewrite (lp_disc_u _ _ _ _ L) in Hle.
           pose proof (pre_time _ _ _ Hpre y Hyv). lia.
      * intros w a [Hw|Hw]%HN [Ha|Ha]%HN Haw Hwu Hwap.
        -- apply (ap_inner _ _ _ _ _ _ A); try done. by auto.
        -- apply reach_step with v.
           ++ apply (linkedIn_avoiding g (newIn (Dfs.setParent v u stk) s1)).
              ** by apply linkedIn_sym, (tr_tree _ _ _ _ _ T1).
              ** intros [_ Hwn]. cbn in Hwn. destruct Hw. congruence.
           ++ apply linked_avoiding. split; [by apply linked_swap|].
              split; [|by apply not_eq_sym].
              intros ->. destruct Hw. congruence.
        -- apply reachable_sym.
           apply (linkedIn_avoiding g (newIn st stk));
             [by apply (tr_tree _ _ _ _ _ T)|].
           intros [Hwk _]. destruct Hw as [_ Hw]. cbn in Hw. congruence.
        -- destruct (decide (w = v)) as [->|Hwv].
           ++ destruct (ap_top _ _ _ _ _ _ A1 a) as (y & Hy & Hr); try done.
              { by auto. }
              apply reachable_trans with y; [done|].
              apply (linkedIn_avoiding g (fun z => onStack z ∨ z = u));
                [by apply Hstack|].
              intros Hvs%Hstackv. congruence.
           ++ apply reach_step with v.
              ** apply (ap_inner _ _ _ _ _ _ A1); try done. by auto.
              ** apply linked_avoiding. split; [by apply linked_swap|].
                 split; by apply not_eq_sym.
      * intros a Hroot Hu [Ha|Ha]%HN Hau.
        -- apply (ap_top _ _ _ _ _ _ A); try done. by auto.
        -- destruct Haps as [[Haps [Hr|Hlt]]|(_ & _ & Haps)];
             [congruence|
             |destruct Hu; rewrite Haps; apply elem_of_union; left;
              by apply elem_of_singleton].
           rewrite Hlv, (Hds u Huk) in Hlt.
           pose proof (tr_disc _ _ _ _ _ T1 v Hvn) as Hdv. cbn in Hdv.
           pose proof (lp_time _ _ _ _ L u Huk) as Hdu.
           destruct (tr_low _ _ _ _ _ T1)
             as [Heq|(x' & y' & Hx' & Hy' & Hl' & Hnp & Heq)]; [lia|].
           destruct (Hout x' y' Hx' Hl') as [Hyn|(Hyk & [Hon| ->] & _)].
           ++ pose proof (tr_disc _ _ _ _ _ T1 y' Hyn) as Hd. cbn in Hd. lia.
           ++ exists y'. split; [done|].
              apply reach_step with x'.
              ** apply (linkedIn_avoiding g (newIn (Dfs.setParent v u stk) s1));
                   [|done].
                 eapply rtc_trans;
                   [apply linkedIn_sym|]; by apply (tr_tree _ _ _ _ _ T1).
              ** apply linked_avoiding. split; [done|]. split.
                 --- intros ->. done.
                 --- intros ->.
                     apply (pre_stack_visited _ _ _ Hpre) in Hon. congruence.
           ++ rewrite (post_disc _ _ _ _ P u Huk) in Heq. cbn in Heq. lia.
    + intros Hroot. specialize (C Hroot).
      assert (∀ x y, newIn (Dfs.setParent v u stk) s1 x → linked (edges g) x y →
                     y ≠ u → newIn (Dfs.setParent v u stk) s1 y) as Hiso.
      { intros x y Hx Hl Hyu.
        destruct (Hout x y Hx Hl) as [?|(_ & [Hon| ->] & _)]; try done.
        by destruct (app_root _ _ _ _ _ Hap Hroot y). }
      split.
      * lia.
      * intros Hc a b [Ha|Ha]%HN [Hb|Hb]%HN Hau Hbu;
          try (by destruct Hau; apply (apc_none _ _ _ _ _ C); [lia|]);
          try (by destruct Hbu; apply (apc_none _ _ _ _ _ C); [lia|]).
        apply (linkedIn_avoiding g (newIn (Dfs.setParent v u stk) s1)); [|done].
        eapply rtc_trans;
          [apply linkedIn_sym|]; by apply (tr_tree _ _ _ _ _ T1).
      * intros _. destruct (decide (c = 0)) as [->|Hc].
        -- exists v, (newIn (Dfs.setParent v u stk) s1).
           repeat (split; [done|]). split; [|done].
           intros x [Hx _]. by rewrite Hvis.
        -- destruct (apc_iso _ _ _ _ _ C) as (v1 & F & ? & ? & ? & HF & ?); [lia|].
           exists v1, F. repeat (split; [done|]). split; [|done].
           intros x Hx. rewrite Hvis. by apply (post_mono _ _ _ _ P), HF.
      * intros Hc.
        destruct (apc_iso _ _ _ _ _ C) as (v1 & F & Hl1 & HF1 & HFu & HF & Hcl);
          [lia|].
        apply (cutNode_intro g F u v1 v);
          [done|done|by intros ->|by apply not_eq_sym|done| |done].
        intros Hvk%HF. congruence.
Qed.
Lemma dfsVisit_points fuel : ∀ u isRoot onStack st st' res,
  dfsVisit adj (activeEdges g) fuel u isRoot st = Done (st', res) →
  flag (Dfs.visited st) u = false →
  dfsPre g onStack st → treePre g onStack u st → apPre g onStack u isRoot st →
  apInv g onStack u isRoot st st' ∧
  (isRoot = true → u ∉ Dfs.foundArticulationPoints st' →
   ∀ a b, newIn st st' a → newIn st st' b → a ≠ u → b ≠ u →
          reachable (avoiding u (edges g)) a b).
Proof.
  induction fuel as [|fuel IH];
    intros u isRoot onStack st st' res H Hnew Hpre Htp Hap; [done|].
  cbn [dfsVisit] in H. destruct (adj !! u) as [ns|] eqn:Hns; [|done].
  apply bind_Done in H as ([[st2 c2] res2] & Hfold & H).
  assert (∀ v stk s1 cres,
    dfsLoop g u st stk → apInv g onStack u isRoot st stk →
    linked (edges g) u v →
    dfsVisit adj (activeEdges g) fuel v false (Dfs.setParent v u stk)
    = Done (s1, cres) →
    flag (Dfs.visited stk) v = false →
    dfsPost g v (Dfs.setParent v u stk) s1 ∧
    treeInv g v (fun x y => x = v ∧
                            Dfs.parent (Dfs.setParent v u stk) !! v = Some y)
            (Dfs.setParent v u stk) s1 ∧
    apInv g (fun x => onStack x ∨ x = u) v false (Dfs.setParent v u stk) s1)
    as Hcall.
  { intros v stk s1 cres L A Huv Hc Hv.
    pose proof (dfsPre_loop g onStack u st stk Hpre L) as Hprek.
    assert (dfsPre g (fun x => onStack x ∨ x = u) (Dfs.setParent v u stk)) as Hpre1.
    { split; cbn; apply Hprek. }
    assert (treePre g (fun x => onStack x ∨ x = u) v (Dfs.setParent v u stk))
      as Htp1.
    { apply (treePre_child g onStack u v st stk); [done|done|].
      apply (lp_parent _ _ _ _ L). by right. }
    split; [|split].
    - by apply (dfsVisit_bridges g adj Hadj fuel v false
                  (fun x => onStack x ∨ x = u) _ _ _ Hc).
    - by apply (dfsVisit_settles g adj Hadj fuel v false
                  (fun x => onStack x ∨ x = u) _ _ _ Hc).
    - apply (IH v false (fun x => onStack x ∨ x = u) _ _ _ Hc); try done.
      split; cbn.
      + apply (ap_sound _ _ _ _ _ _ A).
      + done.
      + intros _. rewrite lookup_insert_eq. by eexists. }
  assert (∀ ms stk c r stl cl rl,
    (∀ v, v ∈ ms → linked (edges g) u v) →
    fold_left (dfsNeighbor (fun v => dfsVisit adj (activeEdges g) fuel v false)
                           (activeEdges g) u isRoot)
              ms (Done (stk, c, r)) = Done (stl, cl, rl) →
    dfsLoop g u st stk → treeInv g u (fun x _ => x = u) st stk →
    apInv g onStack u isRoot st stk → (isRoot = true → apCount g u c st stk) →
    apInv g onStack u isRoot st stl ∧ (isRoot = true → apCount g u cl st stl))
    as Hloop.
  { induction ms as [|v ms IHms]; intros stk c r stl cl rl Hms Hf L T A C.
    - by injection Hf as <- <- _.
    - cbn [fold_left] in Hf.
      destruct (dfsNeighbors_Done_acc _ _ _ _ _ _ _ Hf) as ([[s1 c1] r1] & Hs).
      rewrite Hs in Hf.
      assert (linked (edges g) u v) as Huv by (apply Hms; by left).
      destruct (dfsNeighbor_loop g
                  (fun v => dfsVisit adj (activeEdges g) fuel v false)
                  onStack u isRoot st v stk c r s1 c1 r1)
        as (L1 & _); [|done|done|done|done|done|].
      { intros s0 cres Hc Hv. by apply (Hcall v stk s0 cres). }
      assert (treeInv g u (fun x _ => x = u) st s1) as T1.
      { apply (dfsNeighbor_tree g
                 (fun v => dfsVisit adj (activeEdges g) fuel v false)
                 onStack u isRoot st v stk c r s1 c1 r1); try done.
        intros s0 cres Hc Hv. split; by apply (Hcall v stk s0 cres). }
      destruct (dfsNeighbor_cut
                  (fun v => dfsVisit adj (activeEdges g) fuel v false)
                  onStack u isRoot st v stk c r s1 c1 r1) as [A1 C1]; try done.
      { intros s0 cres Hc Hv. by apply (Hcall v stk s0 cres). }
      apply (IHms s1 c1 r1 stl cl rl); try done.
      intros w Hw. apply Hms. by right. }
  destruct (apInv_enter onStack u isRoot st Hnew Hap) as [A0 C0].
  destruct (Hloop ns (Dfs.enter u st) 0 [EvVisiting u] st2 c2 res2) as [A C];
    try done.
  { intros v Hv. by apply (adj_sound g adj Hadj u ns). }
  { by apply (dfsLoop_enter g onStack). }
  { by apply treeInv_enter. }
  destruct isRoot; cbn [andb] in H.
  - specialize (C eq_refl). destruct (1 <? c2) eqn:Hc; injection H as <- _.
    + apply Nat.ltb_lt in Hc. split.
      * split; cbn.
        -- intros a Ha. apply elem_of_union. right.
           by apply (ap_found _ _ _ _ _ _ A).
        -- intros a [->%elem_of_singleton|Ha]%elem_of_union;
             [by apply (apc_cut _ _ _ _ _ C)|by apply (ap_sound _ _ _ _ _ _ A)].
        -- intros w a Hw Ha Haw Hwu Hwap.
           apply (ap_inner _ _ _ _ _ _ A); try done.
           intros Hin. apply Hwap, elem_of_union. by right.
        -- done.
      * intros _ Hu. destruct Hu. cbn. apply elem_of_union. left.
        by apply elem_of_singleton.
    + apply Nat.ltb_ge in Hc. split; [done|]. intros _ _.
      by apply (apc_one _ _ _ _ _ C).
  - injection H as <- _. split; [done|]. done.
Qed.
End dfs_points.

(** When the analysis returns, the articulation points it has found among
    the nodes it has visited are the cut nodes. *)
Lemma analyze_points fuel g d log w :
  analyze fuel g = Done (d, log) → flag (Dfs.visited d) w = true →
  w ∈ Dfs.foundArticulationPoints d ↔ cutNode g w.
Proof.
  intros H Hw. pose proof H as Hspec.
  apply analyze_spec in Hspec as (start & Hstart & _ & _ & Hg & Hs & _).
  unfold analyze in H. apply bind_Done in H as (adj & Hadj & H).
  apply buildAdjList_adjacency in Hadj.
  apply bind_Done in H as (start' & Hstart' & H).
  assert (start' = start) as -> by congruence.
  apply (dfsVisit_points g adj Hadj fuel start true (fun _ => False)) in H
    as [A R].
  - split; [apply (ap_sound _ _ _ _ _ _ A)|].
    intros (a & b & Haw & Hbw & Ha & Hb & Hcut).
    destruct (decide (w ∈ Dfs.foundArticulationPoints d)) as [|Hnot]; [done|].
    destruct Hcut.
    assert (∀ x, reachable (edges g) w x → newIn Dfs.init d x) as Hvis.
    { intros x Hx. split; [|done].
      induction Hx as [|y z _ IH Hl]; [done|].
      destruct (flag (Dfs.visited d) z) eqn:Hz; [done|].
      by rewrite (grows_closed _ _ _ Hg y z IH eq_refl Hl) in Hz. }
    destruct (decide (w = start)) as [->|Hne].
    + by apply R; try apply Hvis.
    + apply reachable_trans with start.
      * apply (ap_inner _ _ _ _ _ _ A w a); try done; by apply Hvis || split.
      * apply reachable_sym.
        apply (ap_inner _ _ _ _ _ _ A w b); try done; by apply Hvis || split.
  - done.
  - split; cbn; try done. by intros e' He'%elem_of_nil.
  - split; cbn; done.
  - split; cbn; [by intros a Ha%not_elem_of_empty|by intros _ x []|done].
Qed.

(** On a graph whose nodes have ordinary ids, among the nodes of the
    component of the first node, [runDFS] marks the articulation points and
    nothing else: the node in the same place of the new graph has
    [isArticulationPoint] set exactly when taking the node away separates
    two other nodes of its component.  (Next to a node named after a
    member of [Object.prototype] the low times are no numbers, and
    articulation points are missed.) *)
Theorem runDFS_marks_exactly_the_cut_nodes (fuel : nat) (st st' : State)
    (start : string) (i : nat) (n : Node.t) :
  ordinaryIds (graph st) →
  runDFS fuel st = Done st' →
  firstNodeId (graph st) = Done start →
  nodes (graph st) !! i = Some n →
  reachable (edges (graph st)) start (Node.id n) →
  ∃ n', nodes (graph st') !! i = Some n' ∧ Node.id n' = Node.id n ∧
        (Node.isArticulationPoint n' = Some true ↔ cutNode (graph st) (Node.id n)) ∧
        (n' ∈ articulationPoints st' ↔ cutNode (graph st) (Node.id n)).
Proof.
  unfold runDFS. intros _ H Hstart Hi Hreach.
  apply bind_Done in H as ([d log] & Han & H). injection H as <-.
  cbn [graph nodes edges articulationPoints].
  pose proof (analyze_points fuel (graph st) d log (Node.id n) Han
                (analyze_visited fuel _ d log start _ Han Hstart Hreach)) as Hiff.
  exists (markArticulation (Dfs.foundArticulationPoints d) n).
  split; [by rewrite list_lookup_fmap, Hi|]. split; [done|].
  assert (Node.isArticulationPoint (markArticulation (Dfs.foundArticulationPoints d) n)
          = Some true ↔ cutNode (graph st) (Node.id n)) as Hmark.
  { rewrite <- Hiff. cbn. split.
    - intros [= Hb]. by apply bool_decide_eq_true in Hb.
    - intros Hin. f_equal. by apply bool_decide_eq_true. }
  split; [done|]. rewrite <- Hmark. rewrite list_elem_of_filter. split.
  - by intros [? _].
  - intros Hm. split; [done|].
    apply list_elem_of_fmap. exists n. split; [done|].
    by apply list_elem_of_lookup_2 with i.
Qed.

Lemma runDFS_marks_exactly_the_cut_nodes_witness :
  ordinaryIds (graph initialState) ∧
  ∃ st' n,
    runDFS 13 initialState = Done st' ∧
    firstNodeId (graph initialState) = Done "1" ∧
    nodes (graph initialState) !! 1 = Some n ∧
    reachable (edges (graph initialState)) "1" (Node.id n) ∧
    ∃ n', nodes (graph st') !! 1 = Some n' ∧ Node.id n' = Node.id n ∧
          (Node.isArticulationPoint n' = Some true
           ↔ cutNode (graph initialState) (Node.id n)) ∧
          (n' ∈ articulationPoints st' ↔ cutNode (graph initialState) (Node.id n)).
Proof.
  destruct (runDFS 13 initialState) as [st'|err|] eqn:H;
    [|exfalso; revert H; vm_compute; discriminate
     |exfalso; revert H; vm_compute; discriminate].
  destruct (nodes (graph initialState) !! 1) as [n|] eqn:Hn;
    [|exfalso; revert Hn; vm_compute; discriminate].
  assert (firstNodeId (graph initialState) = Done "1") as H1 by reflexivity.
  assert (Node.id n = "2") as H2.
  { revert Hn. vm_compute. intros [= <-]. reflexivity. }
  assert (reachable (edges (graph initialState)) "1" (Node.id n)) as H3.
  { rewrite H2. apply reach_step with "1"; [apply reach_refl|].
    exists (link "1" "2" true).
    split; [|split; reflexivity].
    apply (list_elem_of_lookup_2 _ 0). reflexivity. }
  split; [exact initialGraph_ordinary|].
  exists st', n. split; [reflexivity|]. split; [exact H1|].
  split; [reflexivity|]. split; [exact H3|].
  exact (runDFS_marks_exactly_the_cut_nodes 13 initialState st' "1" 1 n
           initialGraph_ordinary H H1 Hn H3).
Defined.

(** ** The nearest reachable node *)












(** ** Recovery edges are beside the graph *)



(** ** The path colour of the drawing *)

Lemma includes_spec p x : includes p x = true ↔ x ∈ p.
Proof.
  unfold includes. rewrite existsb_exists. split.
  - intros (y & Hy & Heq). apply eqb_true in Heq as ->.
    by apply list_elem_of_In.
  - intros H. exists x. rewrite <- list_elem_of_In, String.eqb_refl. done.
Qed.

(** [path[path.indexOf(x)]] is [x] itself when the path includes [x]. *)
Lemma item_indexOf p x : x ∈ p → item p (indexOf p x) = Some x.
Proof.
  induction p as [|y p IH]; intros H; [by apply elem_of_nil in H|]. cbn [indexOf].
  destruct (String.eqb y x) eqn:E.
  - apply eqb_true in E as ->. done.
  - apply eqb_false in E. apply elem_of_cons in H as [?|H]; [congruence|].
    specialize (IH H). unfold item in IH |- *.
    destruct (indexOf p x <? 0)%Z eqn:Hneg; [done|].
    apply Z.ltb_ge in Hneg.
    rewrite (proj2 (Z.ltb_ge (indexOf p x + 1) 0)) by lia.
    replace (Z.to_nat (indexOf p x + 1)) with (S (Z.to_nat (indexOf p x))) by lia.
    done.
Qed.

Lemma pathTest_loop p e :
  pathTest p e = true ↔ Edge.source e = Edge.target e ∧ Edge.source e ∈ p.
Proof.
  unfold pathTest. rewrite !andb_true_iff, orb_true_iff, !includes_spec. split.
  - intros [[Hs Ht] Hsame]. rewrite !item_indexOf in Hsame by done.
    cbn in Hsame. rewrite !eqb_true in Hsame. split; [by destruct Hsame|done].
  - intros [Heq Hs]. rewrite <- Heq. rewrite item_indexOf by done. cbn.
    rewrite String.eqb_refl. auto.
Qed.

Lemma drawEdge_segments g p es : ∀ acc seg,
  seg ∈ (fold_left (drawEdge g p) es acc).1 →
  seg ∈ acc.1 ∨
  (drawn seg ∈ es ∧ ∃ ctx, stroke seg = edgeStroke p (drawn seg) ctx).
Proof.
  induction es as [|e es IH]; intros acc seg H; [by left|]. cbn [fold_left] in H.
  apply IH in H as [H|[H1 H2]]; [|right; split; [by right|done]].
  unfold drawEdge in H.
  destruct (find _ (nodes g)) as [a|]; [|by left].
  destruct (find _ (nodes g)) as [b|]; [|by left].
  cbn in H. apply elem_of_app in H as [H| ->%list_elem_of_singleton]; [by left|].
  right. cbn. split; [by left|eauto].
Qed.

(** The test for the path colour compares [path[path.indexOf(edge.source)]],
    which is [edge.source] itself, with [edge.target]: it holds only of an
    edge from a node of the path to itself.  So no line between two
    different nodes is ever drawn in the path colour, whatever the path
    shown: a line drawn in that colour is an active edge, not marked as a
    bridge, whose two endpoints are one node of the path. *)
Theorem path_colour_only_on_loops (st : State) (ctx : Ctx) (seg : Segment) :
  seg ∈ (drawEdges st ctx).1 → strokeStyle (stroke seg) = "#00cc00" →
  drawn seg ∈ edges (graph st) ∧ Edge.isActive (drawn seg) = true ∧
  Edge.source (drawn seg) = Edge.target (drawn seg) ∧
  Edge.source (drawn seg) ∈ path st.
Proof.
  intros Hseg Hgreen. unfold drawEdges in Hseg.
  apply drawEdge_segments in Hseg as [Hin|[Hin [c Hstroke]]];
    [by apply elem_of_nil in Hin|].
  split; [done|]. rewrite Hstroke in Hgreen. unfold edgeStroke in Hgreen.
  destruct (Edge.isActive (drawn seg)); cbn in Hgreen; [|done].
  destruct (default false (Edge.isBridge (drawn seg))); [done|].
  destruct (pathTest (path st) (drawn seg)) eqn:Htest; [|done].
  split; [done|]. by apply pathTest_loop.
Qed.

Lemma path_colour_only_on_loops_witness :
  let seg := mkSegment (link "A" "A" true) (node "A" "a" 0 0 city)
                       (node "A" "a" 0 0 city) (mkCtx "#00cc00" 3 []) in
  seg ∈ (drawEdges loopState freshCtx).1 ∧
  strokeStyle (stroke seg) = "#00cc00" ∧
  drawn seg ∈ edges (graph loopState) ∧ Edge.isActive (drawn seg) = true ∧
  Edge.source (drawn seg) = Edge.target (drawn seg) ∧
  Edge.source (drawn seg) ∈ path loopState.
Proof.
  intros seg.
  assert (seg ∈ (drawEdges loopState freshCtx).1) as H1 by (vm_compute; left).
  assert (strokeStyle (stroke seg) = "#00cc00") as H2 by reflexivity.
  split; [exact H1|]. split; [exact H2|].
  exact (path_colour_only_on_loops loopState freshCtx seg H1 H2).
Defined.

(** ** When the computations raise *)

Section no_raise.
Context (g : Graph) (adj : gmap string (list string)).
Hypothesis Hadj : adjacency g adj.




End no_raise.



(** ** The component never raises *)

Lemma nodeIds_initial_nonempty s : s ∈ nodeIds initialGraph → s ≠ "".
Proof.
  intros H ->. revert H. apply (bool_decide_unpack _). by vm_compute.
Qed.

Lemma uiInv_wellFormed g :
  nodeIds g = nodeIds initialGraph →
  map ends (edges g) = map ends (edges initialGraph) →
  wellFormed g ∧ nodes g ≠ [] ∧ length (nodes g) = 13.
Proof.
  intros Hn He. split; [|split].
  - unfold wellFormed. rewrite Hn.
    assert (Forall (fun pr => pr.1 ∈ nodeIds initialGraph
                              ∧ pr.2 ∈ nodeIds initialGraph)
                   (map ends (edges g))) as H.
    { rewrite He. apply (bool_decide_unpack _). by vm_compute. }
    change (map ends (edges g)) with (ends <$> edges g) in H.
    by apply Forall_fmap in H.
  - intros Hnil. unfold nodeIds in Hn. by rewrite Hnil in Hn.
  - unfold nodeIds in Hn. apply (f_equal length) in Hn.
    by rewrite length_map in Hn.
Qed.

Lemma uiInv_unselected st :
  uiInv st → unset (selectedNode st) = true →
  selectedNode st = None ∧ targetNode st = None ∧ path st = [].
Proof.
  intros I Hun.
  assert (selectedNode st = None) as Hs.
  { destruct (selectedNode st) as [s|] eqn:E; [|done]. cbn in Hun.
    apply eqb_true in Hun as ->.
    by destruct (nodeIds_initial_nonempty "" (ui_selected _ I "" E)). }
  split; [done|].
  assert (targetNode st = None) as Ht.
  { destruct (targetNode st) as [t|] eqn:E; [|done].
    destruct (ui_target _ I t E) as (_ & s0 & Hsel & _). congruence. }
  split; [done|]. destruct (path st) eqn:Hp; [done|].
  destruct (ui_path _ I) as (s0 & t0 & Hsel & _); [by rewrite Hp|congruence].
Qed.

Lemma uiInv_untargeted st :
  uiInv st → unset (targetNode st) = true → targetNode st = None ∧ path st = [].
Proof.
  intros I Hun.
  assert (targetNode st = None) as Ht.
  { destruct (targetNode st) as [t|] eqn:E; [|done]. cbn in Hun.
    apply eqb_true in Hun as ->.
    by destruct (nodeIds_initial_nonempty "" (proj1 (ui_target _ I "" E))). }
  split; [done|]. destruct (path st) eqn:Hp; [done|].
  destruct (ui_path _ I) as (s0 & t0 & _ & Htgt & _); [by rewrite Hp|congruence].
Qed.

Lemma clickedNode_id g x y n : clickedNode g x y = Some n → Node.id n ∈ nodeIds g.
Proof.
  unfold clickedNode. intros [Hin _]%find_some. apply list_elem_of_In in Hin.
  by apply (list_elem_of_fmap_2 Node.id).
Qed.

Lemma uiInv_init : uiInv initialState.
Proof. split; cbn; try done. Qed.

Lemma uiInv_click e st : uiInv st → uiInv (handleCanvasClick e st).
Proof.
  intros I. unfold handleCanvasClick. destruct (canvasRect e) as [rect|]; [|done].
  destruct (clickedNode _ _ _) as [n|] eqn:Hn; [|done].
  apply clickedNode_id in Hn. rewrite (ui_nodes _ I) in Hn.
  destruct (unset (selectedNode st)) eqn:Hsel.
  - destruct (uiInv_unselected st I Hsel) as (Hs & Ht & Hp).
    split; cbn; rewrite ?Ht, ?Hp; try apply I; try done. by intros s [= <-].
  - destruct (unset (targetNode st)) eqn:Htgt; [|].
    + destruct (uiInv_untargeted st I Htgt) as (Ht & Hp).
      destruct (bool_decide (Some (Node.id n) = selectedNode st)) eqn:Hsame;
        cbn [negb]; [done|].
      apply bool_decide_eq_false in Hsame.
      split; cbn; rewrite ?Hp; try apply I; try done.
      intros t [= <-]. split; [done|].
      destruct (selectedNode st) as [s|] eqn:E; [|done].
      exists s. split; [done|]. congruence.
    + split; cbn; try apply I; try done. by intros s [= <-].
Qed.

Lemma ends_toggle a b es :
  map ends (map (fun edge => if joins a b edge then flip edge else edge) es)
  = map ends es.
Proof. rewrite map_map. apply map_ext. intros e. by destruct (joins a b e). Qed.

Lemma uiInv_toggle a b st : uiInv st → uiInv (toggleEdge a b st).
Proof.
  intros I. split; cbn; try apply I; [|done].
  rewrite ends_toggle. apply I.
Qed.

Lemma uiInv_reset st : uiInv (resetSimulation st).
Proof. split; cbn; try done. Qed.

Lemma uiInv_runDFS fuel st st' : uiInv st → runDFS fuel st = Done st' → uiInv st'.
Proof.
  intros I H. unfold runDFS in H. apply bind_Done in H as ([d log] & _ & H).
  injection H as <-. split; cbn; try apply I; [| |done].
  - unfold nodeIds. cbn. rewrite map_map. apply (ui_nodes _ I).
  - rewrite map_map. apply (ui_edges _ I).
Qed.

Lemma uiInv_recover fuel st st' :
  uiInv st → recoverNetwork fuel st = Done st' → uiInv st'.
Proof.
  intros I H. unfold recoverNetwork in H. apply bind_Done in H as (p & _ & H).
  injection H as <-. split; cbn; apply I.
Qed.

Lemma uiInv_runBFS fuel st st' :
  uiInv st → (unset (selectedNode st) || unset (targetNode st)) = false →
  runBFS fuel st = Done st' → uiInv st'.
Proof.
  intros I Hguard H. unfold runBFS in H.
  destruct (selectedNode st) as [s|] eqn:Hs; [|done].
  destruct (targetNode st) as [t|] eqn:Ht; [|by rewrite orb_true_r in Hguard].
  rewrite Hguard in H. apply bind_Done in H as (r & Hr & H).
  unfold findShortestPath in Hr. apply bind_Done in Hr as (adj & Hadj & Hr).
  apply buildAdjList_adjacency in Hadj.
  assert (uiInv (setBfsResult st [] [])) as I0.
  { split; cbn; try apply I; done. }
  destruct r as [p log|log]; injection H as <-.
  - split; cbn; try apply I0.
    intros _. exists s, t. rewrite Hs, Ht.
    destruct (bfsSearch_path (graph st) adj s t Hadj fuel p log Hr)
      as (Hh & Hl & Hnd & Hc).
    repeat (split; [done|]). by eapply bfsSearch_shortest.
  - split; cbn; apply I0.
Qed.

Lemma step_inv fuel st a st' : uiInv st → step fuel st a = Done st' → uiInv st'.
Proof.
  intros I H. destruct a as [e|idx| | | | |m]; cbn in H.
  - injection H as <-. by apply uiInv_click.
  - destruct (mode st); [by injection H as <-|].
    destruct (edges (graph st) !! idx); injection H as <-; [|done].
    by apply uiInv_toggle.
  - by eapply uiInv_runDFS.
  - destruct (unset (selectedNode st) || unset (targetNode st)) eqn:Hguard;
      [by injection H as <-|]. by eapply uiInv_runBFS.
  - by eapply uiInv_recover.
  - injection H as <-. apply uiInv_reset.
  - injection H as <-. split; cbn; apply I.
Qed.

Lemma uiReachable_inv st : uiReachable st → uiInv st.
Proof.
  induction 1 as [|st a fuel st' _ IH Hstep]; [apply uiInv_init|].
  by eapply step_inv.
Qed.

(** Whatever the user does, no handler raises: from every state the
    component can reach, every action (with one unit of fuel for each of
    the 13 nodes) leads to a state. *)
Theorem ui_never_raises (st : State) (a : Action) (fuel : nat) :
  uiReachable st → 13 ≤ fuel → ∃ st', step fuel st a = Done st'.
Proof.
  intros Hreach Hfuel. apply uiReachable_inv in Hreach as I.
  destruct (uiInv_wellFormed (graph st) (ui_nodes _ I) (ui_edges _ I))
    as (Hwf & Hne & Hlen).
  assert (length (nodes (graph st)) ≤ fuel) as Hf by lia.
  destruct a as [e|idx| | | | |m]; cbn; eauto.
  - destruct (mode st); [eauto|]. destruct (edges (graph st) !! idx); eauto.
  - destruct (analyze_total fuel (graph st) Hwf Hne Hf) as (d & log & Hd).
    unfold runDFS. rewrite Hd. cbn. eauto.
  - destruct (unset (selectedNode st) || unset (targetNode st)) eqn:Hguard;
      [eauto|].
    unfold runBFS. destruct (selectedNode st) as [s|] eqn:Hs; [|done].
    destruct (targetNode st) as [t|] eqn:Ht; [|by rewrite orb_true_r in Hguard].
    rewrite Hguard. unfold findShortestPath.
    destruct (wellFormed_buildAdjList (graph st) Hwf) as (adj & -> & Hadj). cbn.
    pose proof (ui_selected _ I s Hs) as Hin. rewrite <- (ui_nodes _ I) in Hin.
    destruct (bfsSearch_total (graph st) adj s t Hadj fuel Hin Hf)
      as (r & -> & _). cbn. destruct r; eauto.
  - destruct (planRecovery_ok fuel (graph st) Hwf Hne Hf) as [p Hp].
    unfold recoverNetwork. rewrite Hp. cbn. eauto.
Qed.

Lemma ui_never_raises_witness :
  uiReachable (toggleEdge "2" "3" (setMode failure initialState)) ∧ 13 ≤ 13 ∧
  ∃ st', step 13 (toggleEdge "2" "3" (setMode failure initialState)) Recover = Done st'.
Proof.
  assert (uiReachable (setMode failure initialState)) as H0.
  { exact (ui_step initialState (SetMode failure) 0 _ ui_init eq_refl). }
  assert (uiReachable (toggleEdge "2" "3" (setMode failure initialState))) as H1.
  { exact (ui_step (setMode failure initialState) (ToggleRow 2) 0 _ H0 eq_refl). }
  assert (13 ≤ 13) as H2 by lia.
  split; [exact H1|]. split; [exact H2|].
  exact (ui_never_raises _ Recover 13 H1 H2).
Defined.

(** In every state the component can reach, the graph has the nodes and the
    links of the initial graph, a selection is the id of a node, the target
    differs from the source, and the path shown, if there is one, is a path
    of the graph as it now is: from the selected source to the selected
    target along active edges, without a repeated node, and a shortest
    one.  A toggle, a reset or a new selection never leaves a stale path. *)
Theorem ui_state_is_consistent (st : State) :
  uiReachable st →
  nodeIds (graph st) = nodeIds initialGraph ∧
  map ends (edges (graph st)) = map ends (edges initialGraph) ∧
  (∀ s, selectedNode st = Some s → s ∈ nodeIds (graph st)) ∧
  (∀ t, targetNode st = Some t →
        t ∈ nodeIds (graph st) ∧ ∃ s, selectedNode st = Some s ∧ s ≠ t) ∧
  (path st ≠ [] →
   ∃ s t, selectedNode st = Some s ∧ targetNode st = Some t ∧
          head (path st) = Some s ∧ last (path st) = Some t ∧
          NoDup (path st) ∧ chain (linked (edges (graph st))) (path st) ∧
          ∀ q, head q = Some s → last q = Some t →
               chain (linked (edges (graph st))) q →
               length (path st) ≤ length q).
Proof.
  intros Hreach. apply uiReachable_inv in Hreach as I.
  split; [apply I|]. split; [apply I|]. rewrite (ui_nodes _ I).
  split; [apply I|]. split; [apply I|]. apply I.
Qed.

Lemma ui_state_is_consistent_witness :
  ∃ st,
    step 13 (selecting "13" "7" initialState) RunBFS = Done st ∧
    path st = ["13"; "12"; "11"; "1"; "2"; "3"; "4"; "7"] ∧
    uiReachable st ∧
    nodeIds (graph st) = nodeIds initialGraph ∧
    map ends (edges (graph st)) = map ends (edges initialGraph) ∧
    (∀ s, selectedNode st = Some s → s ∈ nodeIds (graph st)) ∧
    (∀ t, targetNode st = Some t →
          t ∈ nodeIds (graph st) ∧ ∃ s, selectedNode st = Some s ∧ s ≠ t) ∧
    (path st ≠ [] →
     ∃ s t, selectedNode st = Some s ∧ targetNode st = Some t ∧
            head (path st) = Some s ∧ last (path st) = Some t ∧
            NoDup (path st) ∧ chain (linked (edges (graph st))) (path st) ∧
            ∀ q, head q = Some s → last q = Some t →
                 chain (linked (edges (graph st))) q →
                 length (path st) ≤ length q).
Proof.
  assert (uiReachable (selecting "13" "7" initialState)) as H0.
  { pose (e1 := mkClick 500 300 (Some (DOMRect.mk 0 0 600 450))).
    pose (e2 := mkClick 150 380 (Some (DOMRect.mk 0 0 600 450))).
    assert (uiReachable (handleCanvasClick e1 initialState)) as Ha
      by exact (ui_step initialState (Click e1) 0 _ ui_init eq_refl).
    assert (uiReachable (handleCanvasClick e2 (handleCanvasClick e1 initialState)))
      as Hb by exact (ui_step _ (Click e2) 0 _ Ha eq_refl).
    assert (handleCanvasClick e2 (handleCanvasClick e1 initialState)
            = selecting "13" "7" initialState) as <- by (vm_compute; reflexivity).
    exact Hb. }
  destruct (step 13 (selecting "13" "7" initialState) RunBFS) as [st|e|] eqn:Hst;
    [|exfalso; revert Hst; vm_compute; discriminate
     |exfalso; revert Hst; vm_compute; discriminate].
  assert (uiReachable st) as H1 by exact (ui_step _ RunBFS 13 st H0 Hst).
  exists st. split; [reflexivity|]. split.
  { revert Hst. vm_compute. by intros [= <-]. }
  split; [exact H1|]. exact (ui_state_is_consistent st H1).
Defined.

(** ** The toggle in the component *)

(** No two edges of the initial graph join the same two nodes. *)
Lemma initialGraph_simple i j e1 e2 :
  edges initialGraph !! i = Some e1 → edges initialGraph !! j = Some e2 →
  joins (Edge.source e1) (Edge.target e1) e2 = true → i = j.
Proof.
  intros H1 H2 Hj.
  do 13 (destruct i as [|i];
         [injection H1 as <-;
          do 13 (destruct j as [|j];
                 [injection H2 as <-;
                  first [reflexivity|by vm_compute in Hj]|]);
          discriminate H2|]).
  discriminate H1.
Qed.

(** In the component, where no two edges join the same two nodes, the
    toggle of a row of the failure table flips that edge and no other. *)
Theorem ui_toggle_flips_one_edge (st : State) (i : nat) (e : Edge.t) :
  uiReachable st → edges (graph st) !! i = Some e →
  edges (graph (toggleEdge (Edge.source e) (Edge.target e) st))
  = <[i := flip e]> (edges (graph st)) ∧
  nodes (graph (toggleEdge (Edge.source e) (Edge.target e) st))
  = nodes (graph st).
Proof.
  intros Hreach Hi. apply uiReachable_inv in Hreach as I.
  split; [|done]. cbn [toggleEdge graph edges].
  pose proof (ui_edges _ I) as Hends.
  assert (∀ k x, edges (graph st) !! k = Some x →
                 ∃ x0, edges initialGraph !! k = Some x0 ∧
                       Edge.source x0 = Edge.source x ∧
                       Edge.target x0 = Edge.target x) as H0.
  { intros k x Hk.
    assert (map ends (edges (graph st)) !! k = Some (ends x)) as Hm
      by (by rewrite list_lookup_fmap, Hk).
    rewrite Hends, list_lookup_fmap in Hm.
    destruct (edges initialGraph !! k) as [x0|]; [|done].
    cbn in Hm. injection Hm as Hs Ht. by exists x0. }
  apply list_eq. intros k. rewrite list_lookup_fmap.
  destruct (decide (k = i)) as [->|Hne].
  - rewrite list_lookup_insert_eq by (by eapply lookup_lt_Some).
    rewrite Hi. cbn.
    assert (joins (Edge.source e) (Edge.target e) e = true) as ->; [|done].
    apply joins_spec. by left.
  - rewrite list_lookup_insert_ne by done.
    destruct (edges (graph st) !! k) as [x|] eqn:Hk; [|done]. cbn.
    destruct (joins (Edge.source e) (Edge.target e) x) eqn:Hj; [|done].
    destruct (H0 i e Hi) as (e0 & Hi0 & Hs & Ht).
    destruct (H0 k x Hk) as (x0 & Hk0 & Hxs & Hxt).
    destruct Hne. symmetry. apply (initialGraph_simple i k e0 x0 Hi0 Hk0).
    rewrite Hs, Ht. unfold joins in *. by rewrite Hxs, Hxt.
Qed.

Lemma ui_toggle_flips_one_edge_witness :
  uiReachable (setMode failure initialState) ∧
  edges (graph (setMode failure initialState)) !! 2 = Some (link "2" "3" true) ∧
  edges (graph (toggleEdge "2" "3" (setMode failure initialState)))
  = <[2 := flip (link "2" "3" true)]> (edges (graph (setMode failure initialState))) ∧
  nodes (graph (toggleEdge "2" "3" (setMode failure initialState)))
  = nodes (graph (setMode failure initialState)).
Proof.
  assert (uiReachable (setMode failure initialState)) as H0
    by exact (ui_step initialState (SetMode failure) 0 _ ui_init eq_refl).
  assert (edges (graph (setMode failure initialState)) !! 2
          = Some (link "2" "3" true)) as H1 by reflexivity.
  split; [exact H0|]. split; [exact H1|].
  exact (ui_toggle_flips_one_edge (setMode failure initialState) 2
           (link "2" "3" true) H0 H1).
Defined.
